(** * The saport simplex solvers (lab03, lab04): model and verification

    The development follows [src/lab03_simplex/saport/simplex/solver.py]
    (classes [Solution], [Tableaux] and the one-phase [Solver]) and
    [src/lab04_general_simplex-master/saport/simplex/solver.py] (the
    two-phase [Solver]).

    Numbers.  The tableaux is a numpy array of doubles.  A finite cell is
    modelled by an exact rational ([Qc]); rounding and overflow are not
    modelled.  The non-finite values that numpy's division produces
    (inf, -inf, nan) are modelled where the code filters them
    ([choose_leaving_variable], [choose_entering_variable]); a tableaux cell
    never holds one: [pivot] stops with [NonFinite] on a zero pivot element.
    The theorems are about what rounding leaves as it is: the comparisons
    and the choices that the code makes on given cells, the formula of one
    operation, the structure of the objects and of the results, bounds that
    a monotone rounding keeps, and runs on whole numbers, where the
    operations of the code are exact.

    Objects.  A Python [Model] object, with the constraints, the objective
    and the expressions it owns, is one cell of the store; [deepcopy]
    allocates a new cell.  The solver's fields ([slack_variables], ...) are
    part of the state. *)

From Stdlib Require Import QArith Qcanon DecimalString.
From stdpp Require Import base option list numbers strings.

(** ** Errors and results *)

Inductive error : Type :=
  | Unbounded      (* Exception("Linear Programming model is unbounded") *)
  | Infeasible     (* PositiveArtificialVariablesError *)
  | IndexError     (* Python's IndexError *)
  | ValueError     (* Python's ValueError: min of an empty list, shapes *)
  | NonFinite      (* a cell would become inf or nan: outside the model *)
  | OutOfFuel.     (* the loop did not stop within the given fuel *)

Inductive result (A : Type) : Type :=
  | Ok (a : A)
  | Err (e : error).
Arguments Ok {A} a.
Arguments Err {A} e.

Global Instance error_eq_dec : EqDecision error.
Proof. solve_decision. Defined.

Global Instance result_ret : MRet result := @Ok.
Global Instance result_bind : MBind result := λ A B f r,
  match r with Ok a => f a | Err e => Err e end.

Global Instance result_fmap : FMap result := λ A B f r,
  match r with Ok a => Ok (f a) | Err e => Err e end.

Definition from_option {A} (e : error) (o : option A) : result A :=
  match o with Some a => Ok a | None => Err e end.

(** ** Floating point values that are not cells: numpy's division and
    [float('inf')] *)

Inductive float : Type :=
  | Fin (q : Qc)
  | PInf
  | NInf
  | NaN.

(** [a / b] on doubles, for finite [a] and [b]. *)
Definition np_div (a b : Qc) : float :=
  if decide (b = 0%Qc) then
    if decide (0 < a)%Qc then PInf
    else if decide (a < 0)%Qc then NInf
    else NaN
  else Fin (a / b)%Qc.

(** [x < y] on doubles: false as soon as one side is nan. *)
Definition float_ltb (x y : float) : bool :=
  match x, y with
  | NaN, _ | _, NaN => false
  | _, NInf => false
  | NInf, _ => true
  | PInf, _ => false
  | Fin _, PInf => true
  | Fin a, Fin b => bool_decide (a < b)%Qc
  end.

(** [x == y] on doubles. *)
Definition float_eqb (x y : float) : bool :=
  match x, y with
  | Fin a, Fin b => bool_decide (a = b)
  | PInf, PInf | NInf, NInf => true
  | _, _ => false
  end.

(** [x >= 0] on doubles. *)
Definition float_ge0 (x : float) : bool :=
  match x with
  | Fin a => bool_decide (0 ≤ a)%Qc
  | PInf => true
  | NInf | NaN => false
  end.

(** Python's [min] of a list: the first item that no later item is
    strictly below; [None] stands for the ValueError on an empty list. *)
Definition min_step (best y : float) : float :=
  if float_ltb y best then y else best.
Definition py_min (l : list float) : option float :=
  match l with
  | [] => None
  | x :: l' => Some (foldl min_step x l')
  end.

(** [l.index(x)] and [np.where(l == x)[0][0]]: the first position that
    holds a value equal to [x]. *)
Fixpoint index_of (x : float) (l : list float) : option nat :=
  match l with
  | [] => None
  | y :: l' => if float_eqb y x then Some 0 else S <$> index_of x l'
  end.

(** Python's indexing of a sequence of length [n]: a negative index counts
    from the end. *)
Definition py_index (n : nat) (i : Z) : option nat :=
  if decide (0 ≤ i < Z.of_nat n)%Z then Some (Z.to_nat i)
  else if decide (- Z.of_nat n ≤ i < 0)%Z then Some (Z.to_nat (Z.of_nat n + i))
  else None.

(** [l[i] = x] on a Python list. *)
Definition py_setitem {A} (l : list A) (i : Z) (x : A) : result (list A) :=
  match py_index (length l) i with
  | Some k => Ok (<[k := x]> l)
  | None => Err IndexError
  end.

(** [l[i]] on a Python list or a numpy vector. *)
Definition py_getitem {A} (l : list A) (i : Z) : result A :=
  match py_index (length l) i with
  | Some k => from_option IndexError (l !! k)
  | None => Err IndexError
  end.

(** ** The linear model

    Of the package [saport.simplex] only [expressions/atom.py] is among the
    sources; the other classes are used by the solvers through the
    operations below. *)

(** [Variable] ([Variable] is a reserved word here). *)
Record Var : Type := mkVariable { index : nat; name : string }.

(** [Atom]: a variable and its factor ([atom.py]). *)
Record Atom : Type := mkAtom { var : Var; factor : Qc }.

(** Modelled from the spec: class [Expression] (expressions/expression.py)
    is missing; it is "an ordered sum of Atoms"; "multiple atoms may
    reference the same variable (not auto-merged until evaluated into the
    dense factor vector)", and the operators return new expressions. *)
Definition Expression : Type := list Atom.

Inductive ConstraintType : Type := LE | EQ | GE.
Inductive ObjectiveType : Type := MIN | MAX.

Global Instance ConstraintType_eq_dec : EqDecision ConstraintType.
Proof. solve_decision. Defined.
Global Instance ObjectiveType_eq_dec : EqDecision ObjectiveType.
Proof. solve_decision. Defined.
Global Instance Var_eq_dec : EqDecision Var.
Proof. solve_decision. Defined.

(** Modelled from the spec: class [Constraint] (expressions/constraint.py)
    is missing: "(expression, relation ∈ {≤, ≥, =}, bound: real)". *)
Record Constraint : Type := mkConstraint {
  c_expression : Expression;
  c_type : ConstraintType;
  bound : Qc
}.

(** Modelled from the spec: class [Objective] (expressions/objective.py) is
    missing: "(expression, direction ∈ {MIN, MAX})". *)
Record Objective : Type := mkObjective {
  o_expression : Expression;
  o_type : ObjectiveType
}.

(** Modelled from the spec: class [Model] (model.py) is missing: it "owns
    the ordered list of Variables (insertion order = index order), the list
    of Constraints, and the Objective". *)
Record Model : Type := mkModel {
  variables : list Var;
  constraints : list Constraint;
  objective : Objective
}.

(** [Atom.__mul__], [Atom.__neg__] of atom.py, mapped over the sum. *)
Definition atom_mul (k : Qc) (a : Atom) : Atom := mkAtom (var a) (factor a * k)%Qc.
Definition atom_neg (a : Atom) : Atom := mkAtom (var a) (- factor a)%Qc.

(** Modelled from the spec: the operators of the missing [Expression]:
    "addition, scalar multiplication, negation, and subtraction, producing
    new Expressions".  A [Variable] used as an operand is the atom with
    factor 1. *)
Definition expr_of_var (v : Var) : Expression := [mkAtom v 1%Qc].
Definition expr_add (e1 e2 : Expression) : Expression := e1 ++ e2.
Definition expr_scale (k : Qc) (e : Expression) : Expression := atom_mul k <$> e.
Definition expr_neg (e : Expression) : Expression := atom_neg <$> e.
Definition expr_sub (e1 e2 : Expression) : Expression := expr_add e1 (expr_neg e2).

Definition Qc_sum (l : list Qc) : Qc := foldr Qcplus 0%Qc l.

(** Modelled from the spec: [Expression.factors(model)] "materializes a
    dense vector of length |model.variables| (zero for absent variables)". *)
Definition factors (e : Expression) (m : Model) : list Qc :=
  (λ v : Var,
     Qc_sum (factor <$> filter (λ a, index (var a) = index v) e)) <$> variables m.

(** Modelled from the spec: [Expression.evaluate(assignment)] "returns the
    dot product of factors with assigned variable values"; the value of an
    atom is [factor * assigned_value] (atom.py). *)
Fixpoint evaluate (e : Expression) (assignment : list Qc) : result Qc :=
  match e with
  | [] => Ok 0%Qc
  | a :: e' =>
      x ← from_option IndexError (assignment !! index (var a));
      s ← evaluate e' assignment;
      Ok (factor a * x + s)%Qc
  end.

(** Modelled from the spec: [Objective.invert()] "negates the expression and
    flips direction". *)
Definition objective_invert (o : Objective) : Objective :=
  mkObjective (expr_neg (o_expression o))
              (match o_type o with MIN => MAX | MAX => MIN end).

(** Modelled from the spec: [Constraint.invert()]: "multiply expression and
    bound by −1, flip relation ≤↔≥; = stays =". *)
Definition constraint_invert (c : Constraint) : Constraint :=
  mkConstraint (expr_neg (c_expression c))
               (match c_type c with LE => GE | GE => LE | EQ => EQ end)
               (- bound c)%Qc.

(** Modelled from the spec: [Model.create_variable(name)] "appends, returns
    stable identity"; the index is "assigned sequentially by the owning
    model at creation". *)
Definition create_variable (nm : string) (m : Model) : Var * Model :=
  let v := mkVariable (length (variables m)) nm in
  (v, mkModel (variables m ++ [v]) (constraints m) (objective m)).

(** The f-string [f"{prefix}{i}"]. *)
Definition fstring (prefix : string) (i : nat) : string :=
  prefix +:+ NilEmpty.string_of_uint (Nat.to_uint i).

(** ** Class [Solution] (lab03 solver.py, lines 7-47)

    A model is referred to by its place in the store. *)

Abbreviation loc := nat.

Record Solution : Type := mkSolution {
  s_model : loc;
  assignment : list Qc
}.

(** [Solution.value]: [self.assignment[var.index]]. *)
Definition value (s : Solution) (v : Var) : result Qc :=
  from_option IndexError (assignment s !! index v).

(** ** Class [Tableaux] (lab03 solver.py, lines 50-168)

    [table] is the numpy array, a list of rows.  A numpy array of shape
    (rows, cols) is rectangular: see [wf_table]. *)

Record Tableaux : Type := mkTableaux {
  t_model : loc;
  table : list (list Qc)
}.

Definition nrows (tb : list (list Qc)) : nat := length tb.
Definition ncols (tb : list (list Qc)) : nat := length (default [] (tb !! 0)).

(** The shape of a tableaux: a cost row, and every row of the same,
    positive length. *)
Definition wf_table (tb : list (list Qc)) : Prop :=
  0 < nrows tb ∧ 0 < ncols tb ∧ Forall (λ r, length r = ncols tb) tb.

(** [table[r, c]] for indices within the shape. *)
Definition cell (tb : list (list Qc)) (r c : nat) : Qc :=
  default 0%Qc (tb !! r ≫= λ row, row !! c).

(** [table[:, c]] for [c] within the shape. *)
Definition column (tb : list (list Qc)) (c : nat) : list Qc :=
  (λ row, default 0%Qc (row !! c)) <$> tb.

(** [table[:, -1]]. *)
Definition rhs_column (tb : list (list Qc)) : list Qc :=
  (λ row, default 0%Qc (last row)) <$> tb.

(** [cost_factors]: [table[0, :-1]]. *)
Definition cost_factors (t : Tableaux) : list Qc :=
  let row := default [] (table t !! 0) in take (length row - 1) row.

(** [cost]: [table[0, -1]]. *)
Definition cost (t : Tableaux) : Qc :=
  default 0%Qc (last (default [] (table t !! 0))).

(** [is_optimal]: all factors in the cost row are >= 0. *)
Definition is_optimal (t : Tableaux) : bool :=
  forallb (λ f, bool_decide (0 ≤ f)%Qc) (cost_factors t).

(** [v if v != 0 else float('inf')]. *)
Definition without_zero (v : Qc) : float :=
  if decide (v ≠ 0%Qc) then Fin v else PInf.

(** [choose_entering_variable].  When every factor is 0 the minimum is the
    Python float inf, the comparison of the list with it is the plain
    [False], and indexing the empty result of [np.where] fails. *)
Definition choose_entering_variable (t : Tableaux) : result nat :=
  let factors_without_zeros := without_zero <$> cost_factors t in
  m ← from_option ValueError (py_min factors_without_zeros);
  match m with
  | Fin _ => from_option IndexError (index_of m factors_without_zeros)
  | _ => Err IndexError
  end.

(** [is_unbounded]: all factors in the column are <= 0. *)
Definition is_unbounded (t : Tableaux) (col : nat) : bool :=
  forallb (λ f, bool_decide (f ≤ 0)%Qc) (column (table t) col).

(** [a if a >= 0 else float('inf')]. *)
Definition nonneg_or_inf (a : float) : float :=
  if float_ge0 a then a else PInf.

(** The list [result] of [choose_leaving_variable]. *)
Definition leaving_ratios (t : Tableaux) (col : nat) : list float :=
  let offset := 1 in
  let a := drop offset (rhs_column (table t)) in
  let b := drop offset (column (table t) col) in
  nonneg_or_inf <$> zip_with np_div a b.

(** [choose_leaving_variable]: [self.table[:, col]] raises IndexError for a
    column outside the table; [min] of an empty list raises ValueError. *)
Definition choose_leaving_variable (t : Tableaux) (col : nat) : result nat :=
  if decide (col < ncols (table t)) then
    let result := leaving_ratios t col in
    m ← from_option ValueError (py_min result);
    i ← from_option ValueError (index_of m result);
    Ok (i + 1)
  else Err IndexError.

(** The cell that [pivot] writes at row [r], column [c]. *)
Definition pivot_cell (old_table : list (list Qc)) (row col r c : nat) : Qc :=
  if decide (c = col) then (if decide (r = row) then 1 else 0)%Qc
  else if decide (r = row) then (cell old_table row c / cell old_table row col)%Qc
  else
    let t_prim := (cell old_table row c / cell old_table row col)%Qc in
    (cell old_table r c + (- cell old_table r col) * t_prim)%Qc.

(** [pivot]: the pivot row is divided by the pivot element, the pivot column
    is overwritten by the unit vector, and the other cells are computed from
    [old_table]. *)
Definition pivot (t : Tableaux) (row col : nat) : result Tableaux :=
  let old_table := table t in
  if decide (row < nrows old_table ∧ col < ncols old_table) then
    if decide (cell old_table row col = 0%Qc) then Err NonFinite
    else Ok (mkTableaux (t_model t)
               (imap (λ r old_row, imap (λ c _, pivot_cell old_table row col r c) old_row)
                     old_table))
  else Err IndexError.

(** [column.min()], [column.max()] of numpy; [None] on an empty vector. *)
Definition Qc_min (a b : Qc) : Qc := if decide (a ≤ b)%Qc then a else b.
Definition Qc_max (a b : Qc) : Qc := if decide (a ≤ b)%Qc then b else a.
Definition np_min (l : list Qc) : option Qc :=
  match l with [] => None | x :: l' => Some (fold_left Qc_min l' x) end.
Definition np_max (l : list Qc) : option Qc :=
  match l with [] => None | x :: l' => Some (fold_left Qc_max l' x) end.

(** [np.where(column == 1.0)[0]] and the scan of [find_variable_value]. *)
Fixpoint where_one (column : list Qc) : list nat :=
  match column with
  | [] => []
  | v :: column' =>
      (if decide (v = 1%Qc) then [0] else []) ++ (S <$> where_one column')
  end.

(** [column.min() == 0.0 and column.max() == 1.0 and column.sum() == 1.0].
    The sum of numpy is rounded; it is exact on a column of whole
    numbers. *)
Definition belongs_to_basis (column : list Qc) : bool :=
  bool_decide (np_min column = Some 0%Qc) &&
  bool_decide (np_max column = Some 1%Qc) &&
  bool_decide (Qc_sum column = 1%Qc).

(** [extract_basis]: [basis[row - 1] = c] is Python's item assignment, with
    [row - 1 = -1] when the 1 is in the cost row. *)
Definition extract_basis (t : Tableaux) : result (list Z) :=
  let rows_n := nrows (table t) in
  let cols_n := ncols (table t) in
  foldl (λ (acc : result (list Z)) c,
           basis ← acc;
           let column := column (table t) c in
           if belongs_to_basis column then
             row ← from_option IndexError (where_one column !! 0);
             py_setitem basis (Z.of_nat row - 1) (Z.of_nat c)
           else Ok basis)
        (Ok (replicate (rows_n - 1) (-1)%Z))
        (seq 0 (cols_n - 1)).

(** [find_variable_value]: the right-hand side of the first row that holds
    a 1 in the column; Python's [None] when there is none. *)
Definition find_variable_value (column rhs : list Qc) : option Qc :=
  where_one column !! 0 ≫= λ i, rhs !! i.

(** [extract_solution] (lab03: the list of values).  A column of the basis
    holds a 1 ([find_variable_value_basis] below), so no [None] is
    appended. *)
Definition extract_solution (t : Tableaux) : result (list Qc) :=
  variables_in_basis ← extract_basis t;
  let var_count := ncols (table t) - 1 in
  Ok ((λ col,
         if bool_decide (Z.of_nat col ∈ variables_in_basis) then
           default 0%Qc (find_variable_value (column (table t) col) (rhs_column (table t)))
         else 0%Qc) <$> seq 0 var_count).

(** ** The store and the solver monad

    [heap] holds the [Model] objects; [self] holds the fields of the solver
    object.  A computation returns a value or raises, and leaves a state
    in both cases. *)

Record state (F : Type) : Type := mkState {
  heap : list Model;
  self : F
}.
Arguments mkState {F} heap self.
Arguments heap {F} s.
Arguments self {F} s.

Definition M (F A : Type) : Type := state F → result A * state F.

Global Instance M_ret {F} : MRet (M F) := λ A a s, (Ok a, s).
Global Instance M_bind {F} : MBind (M F) := λ A B f m s,
  match m s with
  | (Ok a, s') => f a s'
  | (Err e, s') => (Err e, s')
  end.

Definition raise {F A} (e : error) : M F A := λ s, (Err e, s).
Definition lift {F A} (r : result A) : M F A := λ s, (r, s).

(** Reading and writing the object at a reference.  A reference outside the
    store does not exist in Python; the model stops with [IndexError]. *)
Definition get_model {F} (l : loc) : M F Model := λ s,
  (from_option IndexError (heap s !! l), s).
Definition set_model {F} (l : loc) (m : Model) : M F unit := λ s,
  (Ok (), mkState (<[l := m]> (heap s)) (self s)).
Definition get_self {F} : M F F := λ s, (Ok (self s), s).
Definition set_self {F} (f : F) : M F unit := λ s, (Ok (), mkState (heap s) f).

(** [copy.deepcopy] of a model: a new object with the same contents. *)
Definition deepcopy {F} (l : loc) : M F loc := λ s,
  match heap s !! l with
  | Some m => (Ok (length (heap s)), mkState (heap s ++ [m]) (self s))
  | None => (Err IndexError, s)
  end.

(** A Python dict in insertion order; [d[k] = v]. *)
Fixpoint dict_set {K V} `{EqDecision K} (k : K) (v : V) (d : list (K * V)) : list (K * V) :=
  match d with
  | [] => [(k, v)]
  | (k', v') :: d' => if decide (k' = k) then (k, v) :: d' else (k', v') :: dict_set k v d'
  end.

(** [constraint.expression = e] and friends, for the constraint at position
    [i] of the model. *)
Definition set_constraint (i : nat) (c : Constraint) (m : Model) : Model :=
  mkModel (variables m) (<[i := c]> (constraints m)) (objective m).
Definition set_objective (o : Objective) (m : Model) : Model :=
  mkModel (variables m) (constraints m) o.
Definition set_expression (e : Expression) (c : Constraint) : Constraint :=
  mkConstraint e (c_type c) (bound c).
Definition set_type (ty : ConstraintType) (c : Constraint) : Constraint :=
  mkConstraint (c_expression c) ty (bound c).

(** The table that [_basic_initial_tableaux] (lab04, lines 38-41) and the
    constructor of [Tableaux] (lab03, lines 86-92) build from a model. *)
Definition initial_table (m : Model) : list (list Qc) :=
  let cost_row := factors (expr_scale (-1)%Qc (o_expression (objective m))) m ++ [0%Qc] in
  cost_row :: ((λ c, factors (c_expression c) m ++ [bound c]) <$> constraints m).

(** [_optimize] (lab04, lines 43-51), the loop of lab03's [solve] (lines
    218-223): one unit of fuel per test of the loop condition. *)
Fixpoint _optimize (fuel : nat) (tableaux : Tableaux) : result Tableaux :=
  match fuel with
  | 0 => Err OutOfFuel
  | S fuel' =>
      if is_optimal tableaux then Ok tableaux
      else
        pivot_col ← choose_entering_variable tableaux;
        if is_unbounded tableaux pivot_col then Err Unbounded
        else
          pivot_row ← choose_leaving_variable tableaux pivot_col;
          tableaux' ← pivot tableaux pivot_row pivot_col;
          _optimize fuel' tableaux'
  end.

(** ** The two-phase solver (lab04 solver.py) *)

Module Lab04.

(** The fields that [solve] sets on the solver object: dicts from the
    created variable to the position of its constraint. *)
Record Solver : Type := mkSolver {
  slack_variables : list (Var * nat);
  surplus_variables : list (Var * nat);
  artificial_variables : list (Var * nat)
}.

Definition St : Type := state Solver.

(** Modelled from the spec: lab04's module [tableaux] is missing; the class
    of lab03 stands for it, and [extract_solution] wraps the list of values
    in a [Solution] of the tableaux's model, which is what
    [_translate_to_original_model] reads with [solution.value]. *)
Definition extract_solution (t : Tableaux) : result Solution :=
  mkSolution (t_model t) <$> extract_solution t.

(** [_basic_initial_tableaux] (lines 38-41). *)
Definition _basic_initial_tableaux (model : loc) : M Solver Tableaux :=
  m ← get_model model;
  mret (mkTableaux model (initial_table m)).

(** [_change_objective_to_max] (lines 90-92). *)
Definition _change_objective_to_max (model : loc) : M Solver unit :=
  m ← get_model model;
  if decide (o_type (objective m) = MIN)
  then set_model model (set_objective (objective_invert (objective m)) m)
  else mret ().

(** [_change_constraints_bounds_to_nonnegative] (lines 94-97). *)
Definition _change_constraints_bounds_to_nonnegative (model : loc) : M Solver unit :=
  m ← get_model model;
  set_model model
    (mkModel (variables m)
       ((λ constraint, if decide (bound constraint < 0)%Qc
                       then constraint_invert constraint else constraint)
          <$> constraints m)
       (objective m)).

(** One round of the loops of [_add_slack_variables], [_add_surplus_variables]
    and [_add_artificial_variables]: when the constraint at position [i]
    is selected, a variable is created and [combine] gives the new
    expression. *)
Definition add_variable_round (select : ConstraintType → bool) (prefix : string)
    (combine : Expression → Var → Expression)
    (acc : Model * list (Var * nat)) (i : nat) : Model * list (Var * nat) :=
  let '(m, vars) := acc in
  match constraints m !! i with
  | Some constraint =>
      if select (c_type constraint) then
        let '(v, m) := create_variable (fstring prefix i) m in
        (set_constraint i (set_expression (combine (c_expression constraint) v) constraint) m,
         dict_set v i vars)
      else (m, vars)
  | None => (m, vars)
  end.

(** The loop [for i, constraint in enumerate(model.constraints)] on the
    contents of the model. *)
Definition add_variable_rounds (select : ConstraintType → bool) (prefix : string)
    (combine : Expression → Var → Expression) (m : Model)
    : Model * list (Var * nat) :=
  foldl (add_variable_round select prefix combine) (m, [])
        (seq 0 (length (constraints m))).

Definition add_variables (select : ConstraintType → bool) (prefix : string)
    (combine : Expression → Var → Expression) (model : loc)
    : M Solver (list (Var * nat)) :=
  m ← get_model model;
  let '(m', vars) := add_variable_rounds select prefix combine m in
  _ ← set_model model m';
  mret vars.

(** [_add_slack_variables] (lines 99-106). *)
Definition _add_slack_variables : loc → M Solver (list (Var * nat)) :=
  add_variables (λ ty, bool_decide (ty = LE)) "s"
                (λ e slack_var, expr_add e (expr_of_var slack_var)).

(** [_add_surplus_variables] (lines 108-116). *)
Definition _add_surplus_variables : loc → M Solver (list (Var * nat)) :=
  add_variables (λ ty, bool_decide (ty = GE)) "s"
                (λ e v, expr_sub e (expr_of_var v)).

(** [_add_artificial_variables] (lines 119-127). *)
Definition _add_artificial_variables : loc → M Solver (list (Var * nat)) :=
  add_variables (λ ty, bool_decide (ty = GE) || bool_decide (ty = EQ)) "R"
                (λ e v, expr_add e (expr_of_var v)).

(** [_normalize_model] (lines 72-83). *)
Definition _normalize_model (original_model : loc) : M Solver loc :=
  model ← deepcopy original_model;
  _ ← _change_objective_to_max model;
  _ ← _change_constraints_bounds_to_nonnegative model;
  slack ← _add_slack_variables model;
  f ← get_self;
  _ ← set_self (mkSolver slack (surplus_variables f) (artificial_variables f));
  surplus ← _add_surplus_variables model;
  f ← get_self;
  _ ← set_self (mkSolver (slack_variables f) surplus (artificial_variables f));
  mret model.

(** [_create_presolve_model] (lines 85-88). *)
Definition _create_presolve_model (normalized_model : loc) : M Solver loc :=
  presolve_model ← deepcopy normalized_model;
  artificial ← _add_artificial_variables presolve_model;
  f ← get_self;
  _ ← set_self (mkSolver (slack_variables f) (surplus_variables f) artificial);
  mret presolve_model.

(** [_prepare_first_phase_objective] (lines 143-151). *)
Definition _prepare_first_phase_objective (model : loc) : M Solver loc :=
  model ← deepcopy model;
  m ← get_model model;
  f ← get_self;
  let new_objective :=
    mkObjective ((λ atom, mkAtom (var atom) 0%Qc) <$> o_expression (objective m))
                (o_type (objective m)) in
  let new_objective :=
    foldl (λ o variable,
             mkObjective (expr_sub (o_expression o) (expr_of_var variable)) (o_type o))
          new_objective (fst <$> artificial_variables f) in
  _ ← set_model model (set_objective new_objective m);
  mret model.

(** [_fix_missing_basis] (lines 182-191).  [cost_row] is a view of row 0:
    the loop updates the table's cost row; the rows below are read only. *)
Definition _fix_missing_basis (tableaux : Tableaux) (basis : list Z) : result Tableaux :=
  let tb := table tableaux in
  let initial_cost_row := default [] (tb !! 0) in
  cost_row ←
    foldl (λ (acc : result (list Qc)) col_ind,
             cost_row ← acc;
             k ← from_option IndexError (py_index (ncols tb) col_ind);
             let column := drop 1 (column tb k) in
             i ← from_option IndexError (where_one column !! 0);
             let basis_row_ind := i + 1 in
             basis_row ← from_option IndexError (tb !! basis_row_ind);
             x ← py_getitem initial_cost_row col_ind;
             Ok (zip_with (λ a b, a - b * x)%Qc cost_row basis_row))
          (Ok initial_cost_row) basis;
  Ok (mkTableaux (t_model tableaux) (<[0 := cost_row]> tb)).

(** [_presolve_initial_tableaux] (lines 130-140). *)
Definition _presolve_initial_tableaux (model : loc) : M Solver Tableaux :=
  model ← _prepare_first_phase_objective model;
  tableaux ← _basic_initial_tableaux model;
  f ← get_self;
  let basis := (λ v, Z.of_nat (index v)) <$> (fst <$> artificial_variables f) in
  lift (_fix_missing_basis tableaux basis).

(** [_artifical_variables_are_positive] (lines 154-158). *)
Definition _artifical_variables_are_positive (tableaux : Tableaux) : M Solver bool :=
  solution ← lift (extract_basis tableaux);
  f ← get_self;
  let artificial := (λ v, Z.of_nat (index v)) <$> (fst <$> artificial_variables f) in
  mret (negb (bool_decide (filter (λ i, i ∈ artificial) solution = []))).

(** [np.delete(table, idxs, 1)]. *)
Definition np_delete_columns (tb : list (list Qc)) (idxs : list nat) : result (list (list Qc)) :=
  if decide (Forall (λ i, i < ncols tb) idxs) then
    Ok ((λ row, snd <$> filter (λ p, fst p ∉ idxs) (imap (λ c x, (c, x)) row)) <$> tb)
  else Err IndexError.

(** [_remove_artificial_variables] (lines 161-167). *)
Definition _remove_artificial_variables (tableaux : Tableaux) : M Solver Tableaux :=
  f ← get_self;
  tb ← lift (np_delete_columns (table tableaux) (index <$> (fst <$> artificial_variables f)));
  mret (mkTableaux (t_model tableaux) tb).

(** [_restore_original_cost_row] (lines 169-174): the assignment to row 0
    needs a row of the length of the table's rows (numpy's ValueError
    otherwise). *)
Definition _restore_original_cost_row (tableaux : Tableaux) (original_model : loc)
    : M Solver Tableaux :=
  basic_tableaux ← _basic_initial_tableaux original_model;
  let cost_row := default [] (table basic_tableaux !! 0) in
  if decide (length cost_row = ncols (table tableaux)) then
    mret (mkTableaux (t_model tableaux) (<[0 := cost_row]> (table tableaux)))
  else raise ValueError.

(** [_fix_cost_row_to_the_basis] (lines 176-180). *)
Definition _fix_cost_row_to_the_basis (tableaux : Tableaux) (basis : list Z) : result Tableaux :=
  _fix_missing_basis tableaux basis.

(** [_presolve] (lines 53-70). *)
Definition _presolve (fuel : nat) (model : loc) : M Solver Tableaux :=
  presolve_model ← _create_presolve_model model;
  tableaux ← _presolve_initial_tableaux presolve_model;
  tableaux ← lift (_optimize fuel tableaux);
  positive ← _artifical_variables_are_positive tableaux;
  if positive : bool then raise Infeasible
  else
    basis ← lift (extract_basis tableaux);
    tableaux ← _remove_artificial_variables tableaux;
    tableaux ← _restore_original_cost_row tableaux model;
    lift (_fix_cost_row_to_the_basis tableaux basis).

(** [_translate_to_original_model] (lines 193-195). *)
Definition _translate_to_original_model (solution : Solution) (model : loc)
    : M Solver Solution :=
  m ← get_model model;
  assignment ← lift (mapM (M := result) (value solution) (variables m));
  mret (mkSolution model assignment).

(** [solve] (lines 27-36). *)
Definition solve (fuel : nat) (model : loc) : M Solver Solution :=
  normal_model ← _normalize_model model;
  f ← get_self;
  nm ← get_model normal_model;
  tableaux ← (if decide (length (slack_variables f) < length (constraints nm))
              then _presolve fuel normal_model
              else _basic_initial_tableaux normal_model);
  tableaux ← lift (_optimize fuel tableaux);
  solution ← lift (extract_solution tableaux);
  _translate_to_original_model solution model.

End Lab04.

(** ** The one-phase solver (lab03 solver.py, lines 205-244) *)

Module Lab03.

(** The field that [_normalize_model] sets on the solver object: a dict
    from the index of a slack variable to the position of its constraint. *)
Record Solver : Type := mkSolver {
  slack_variables : list (nat * nat)
}.

Definition St : Type := state Solver.

Section WithEnumValue.

(** [c.ConstraintType.LE.value]: the enumeration (expressions/constraint.py)
    is missing, its value is a parameter. *)
Variable LE_value : Qc.

(** One round of the loop of [_normalize_model] (lines 236-243). *)
Definition normalize_round (acc : Model * list (nat * nat)) (i : nat)
    : Model * list (nat * nat) :=
  let '(m, slack) := acc in
  match constraints m !! i with
  | Some constraint =>
      if decide (c_type constraint ≠ EQ) then
        let '(slack_var, m) := create_variable (fstring "s" i) m in
        let slack := dict_set (index slack_var) i slack in
        let constraint :=
          if decide (bound constraint < 0)%Qc then constraint_invert constraint
          else constraint in
        let e := expr_add (c_expression constraint)
                   (expr_scale (-1)%Qc (expr_scale LE_value (expr_of_var slack_var))) in
        (set_constraint i (set_type EQ (set_expression e constraint)) m, slack)
      else (m, slack)
  | None => (m, slack)
  end.

(** [_normalize_model] (lines 227-244): works on the object it is given. *)
Definition _normalize_model (model : loc) : M Solver loc :=
  m ← get_model model;
  let m := if decide (o_type (objective m) = MIN)
           then set_objective (objective_invert (objective m)) m else m in
  let '(m, slack) :=
    foldl normalize_round (m, []) (seq 0 (length (constraints m))) in
  _ ← set_self (mkSolver slack);
  _ ← set_model model m;
  mret model.

(** The constructor of [Tableaux] (lines 86-92). *)
Definition new_Tableaux (model : loc) : M Solver Tableaux :=
  m ← get_model model;
  mret (mkTableaux model (initial_table m)).

(** [solve] (lines 215-225). *)
Definition solve (fuel : nat) (model : loc) : M Solver Solution :=
  copy ← deepcopy model;
  normal_model ← _normalize_model copy;
  tableaux ← new_Tableaux normal_model;
  tableaux ← lift (_optimize fuel tableaux);
  assignment ← lift (extract_solution tableaux);
  mret (mkSolution normal_model assignment).

End WithEnumValue.

End Lab03.

(** [Solution.objective_value] (lab03, lines 39-40):
    [self.model.objective.evaluate(self.assignment)], read in the store the
    solution's model lives in.
    Modelled from the spec: [Objective.evaluate] is missing; the value is
    "recomputed by evaluating the original objective expression against
    the assignment". *)
Definition objective_value (h : list Model) (s : Solution) : result Qc :=
  m ← from_option IndexError (h !! s_model s);
  evaluate (o_expression (objective m)) (assignment s).

(** ** The vocabulary of the statements *)

(** [x <= y] for values that are not nan. *)
Definition float_le (x y : float) : Prop := float_ltb y x = false.

(** [kept n h0 s]: the first [n] objects of the store of [s] are [h0]. *)
Definition kept {F} (n : nat) (h0 : list Model) (s : state F) : Prop :=
  n ≤ length (heap s) ∧ take n (heap s) = h0.

(** [keeps n h0 c Q]: run in a store whose first [n] objects are [h0], the
    computation [c] leaves them as they are, whether it returns or raises,
    and what it returns satisfies [Q]. *)
Definition keeps {F} (n : nat) (h0 : list Model) {A} (c : M F A) (Q : A → Prop) : Prop :=
  ∀ s, kept n h0 s → kept n h0 (c s).2 ∧ ∀ a, (c s).1 = Ok a → Q a.

(** The tableaux at the test of the loop condition after [k] rounds of
    [_optimize] that pivoted; [None] when the loop stops or raises before. *)
Fixpoint after_rounds (k : nat) (t : Tableaux) : option Tableaux :=
  match k with
  | 0 => Some t
  | S k' =>
      if is_optimal t then None
      else match choose_entering_variable t with
           | Ok pivot_col =>
               if is_unbounded t pivot_col then None
               else match choose_leaving_variable t pivot_col with
                    | Ok pivot_row =>
                        match pivot t pivot_row pivot_col with
                        | Ok t' => after_rounds k' t'
                        | Err _ => None
                        end
                    | Err _ => None
                    end
           | Err _ => None
           end
  end.

(** Within [fuel] tests of the loop condition, the loop reaches a tableaux
    that is not optimal and whose entering column [col] has no positive
    entry, the cost row included. *)
Definition chooses_unbounded_column (fuel : nat) (t : Tableaux) : Prop :=
  ∃ k t' col,
    k < fuel ∧ after_rounds k t = Some t' ∧
    is_optimal t' = false ∧
    choose_entering_variable t' = Ok col ∧
    is_unbounded t' col = true ∧
    ∀ r, r < nrows (table t') → (cell (table t') r col ≤ 0)%Qc.

(** [quiet c]: the computation [c] does not raise [Unbounded]. *)
Definition quiet_result {A} (r : result A) : Prop := r ≠ Err Unbounded.
Definition quiet {F A} (c : M F A) : Prop := ∀ s, quiet_result (c s).1.

(** The tableaux that [_presolve] passes to [_optimize] (Phase I). *)
Definition phase_I_tableaux (normal_model : loc) : M Lab04.Solver Tableaux :=
  presolve_model ← Lab04._create_presolve_model normal_model;
  Lab04._presolve_initial_tableaux presolve_model.

(** The test of [solve] (line 29) in the state [s]. *)
Definition needs_presolve (normal_model : loc) (s : Lab04.St) : Prop :=
  ∃ nm, heap s !! normal_model = Some nm ∧
        length (Lab04.slack_variables (self s)) < length (constraints nm).

(** The tableaux that [solve] passes to [_optimize] (Phase II). *)
Definition phase_II_tableaux (fuel : nat) (normal_model : loc) : M Lab04.Solver Tableaux :=
  f ← get_self;
  nm ← get_model normal_model;
  if decide (length (Lab04.slack_variables f) < length (constraints nm))
  then Lab04._presolve fuel normal_model
  else Lab04._basic_initial_tableaux normal_model.

(** What [solve] does with the tableaux of Phase II (lines 34-36). *)
Definition finish (fuel : nat) (model : loc) (tableaux : Tableaux) : M Lab04.Solver Solution :=
  tableaux ← lift (_optimize fuel tableaux);
  solution ← lift (Lab04.extract_solution tableaux);
  Lab04._translate_to_original_model solution model.

(** The part of [_presolve] after the Phase I loop (lines 62-70). *)
Definition leave_phase_I (model : loc) (tableaux : Tableaux) : M Lab04.Solver Tableaux :=
  positive ← Lab04._artifical_variables_are_positive tableaux;
  if positive : bool then raise Infeasible
  else
    basis ← lift (extract_basis tableaux);
    tableaux ← Lab04._remove_artificial_variables tableaux;
    tableaux ← Lab04._restore_original_cost_row tableaux model;
    lift (Lab04._fix_cost_row_to_the_basis tableaux basis).

(** [table[r, -1]]: the right-hand side of row [r]. *)
Definition rhs (tb : list (list Qc)) (r : nat) : Qc := cell tb r (ncols tb - 1).

(** The right-hand sides of the constraint rows are not negative. *)
Definition feasible (tb : list (list Qc)) : Prop :=
  ∀ r, 1 ≤ r < nrows tb → (0 ≤ rhs tb r)%Qc.

(** Column [k] is the unit vector of the constraint row [r]: 1 in row [r],
    0 in the other constraint rows (the cost row is left open). *)
Definition unit_column (tb : list (list Qc)) (k r : nat) : Prop :=
  1 ≤ r < nrows tb ∧
  ∀ r', 1 ≤ r' < nrows tb → cell tb r' k = if decide (r' = r) then 1%Qc else 0%Qc.

(** What [_normalize_model] (lab04) makes of the contents [m] of the model:
    the normalized contents and the two dicts. *)
Definition normalized (m : Model) : Model * list (Var * nat) * list (Var * nat) :=
  let m1 := if decide (o_type (objective m) = MIN)
            then set_objective (objective_invert (objective m)) m else m in
  let m2 := mkModel (variables m1)
              ((λ constraint, if decide (bound constraint < 0)%Qc
                              then constraint_invert constraint else constraint)
                 <$> constraints m1)
              (objective m1) in
  let '(m3, slack) :=
    Lab04.add_variable_rounds (λ ty, bool_decide (ty = LE)) "s"
      (λ e slack_var, expr_add e (expr_of_var slack_var)) m2 in
  let '(m4, surplus) :=
    Lab04.add_variable_rounds (λ ty, bool_decide (ty = GE)) "s"
      (λ e v, expr_sub e (expr_of_var v)) m3 in
  (m4, slack, surplus).

(** The absolute value. *)
Definition Qc_abs (x : Qc) : Qc := if decide (0 ≤ x)%Qc then x else (- x)%Qc.

(** The type of a constraint after [invert()]. *)
Definition flip_type (ty : ConstraintType) : ConstraintType :=
  match ty with LE => GE | GE => LE | EQ => EQ end.

(** How a constraint [c] of the caller and the constraint [c'] at its place
    after the normalization of lab03 are related. *)
Definition lab03_normalized_constraint (c c' : Constraint) : Prop :=
  c_type c' = EQ ∧
  (c_type c = EQ → c' = c) ∧
  (c_type c ≠ EQ → bound c' = Qc_abs (bound c)).

(** One round of the loop of [_fix_missing_basis] (lab04, lines 185-189) on
    the cost row [acc]; [tb] is the table and [initial_cost_row] the copy of
    its cost row taken before the loop. *)
Definition fix_missing_basis_round (tb : list (list Qc)) (initial_cost_row : list Qc)
    (acc : result (list Qc)) (col_ind : Z) : result (list Qc) :=
  cost_row ← acc;
  k ← from_option IndexError (py_index (ncols tb) col_ind);
  let column := drop 1 (column tb k) in
  i ← from_option IndexError (where_one column !! 0);
  let basis_row_ind := i + 1 in
  basis_row ← from_option IndexError (tb !! basis_row_ind);
  x ← py_getitem initial_cost_row col_ind;
  Ok (zip_with (λ a b, a - b * x)%Qc cost_row basis_row).

(** The column that an entry of [basis] addresses holds a 1 below the cost
    row. *)
Definition addresses_one (tb : list (list Qc)) (col_ind : Z) : Prop :=
  ∃ k, py_index (ncols tb) col_ind = Some k ∧ 1%Qc ∈ drop 1 (column tb k).

(** ** The reward shift of the mixed solver (lab08 mixed.py, lines 32-41)

    [reward_matrix] is the numpy array of the game, a list of rows.  The
    loop variable of line 39 is called [col], but iterating a 2-d array
    yields its rows.  [min] and [max] of an empty sequence raise
    ValueError. *)

Module Minimax.

Definition shift_game_rewards (reward_matrix : list (list Qc))
    : result (list (list Qc) * Qc) :=
  opponents_costs ←
    mapM (M := result) (λ col, from_option ValueError (np_min col)) reward_matrix;
  m ← from_option ValueError (np_max opponents_costs);
  let shift := if decide (0 < m)%Qc then 0%Qc else Qc_abs m in
  Ok ((λ row : list Qc, (λ x, x + shift)%Qc <$> row) <$> reward_matrix, shift).

End Minimax.

(** ** The normalized assignment problem (lab10 model.py, lines 27-144)

    [costs] is a numpy array of 64-bit integers ([from_file] creates it
    with [np.zeros(..., int)]), a list of rows of one length.  A
    subtraction of two of its cells wraps around.  The padding of line 132
    or 135 ([np.append] with an array of [np.zeros]) turns the array into
    an array of floats: a cell becomes the nearest float, and a
    subtraction is rounded.  [Z] stands for the cells of both arrays, the
    floats of the second one being whole numbers. *)

Module Assignment.

Record AssignmentProblem : Type := mkAssignmentProblem {
  name : string;
  costs : list (list Z);
  objective_is_min : bool
}.

Record NormalizedAssignmentProblem : Type := mkNormalizedAssignmentProblem {
  n_costs : list (list Z);
  original_problem : AssignmentProblem
}.

(** [n_tasks] and [n_workers] (lines 64-68): [costs.shape[1]] and
    [costs.shape[0]]. *)
Definition n_tasks (p : AssignmentProblem) : nat := length (default [] (costs p !! 0)).
Definition n_workers (p : AssignmentProblem) : nat := length (costs p).

(** [size] (lines 113-114). *)
Definition size (n : NormalizedAssignmentProblem) : nat := length (n_costs n).

(** [np.max] of a 2-d array; ValueError on an array without cells. *)
Definition np_max_array (a : list (list Z)) : option Z :=
  match concat a with [] => None | x :: l => Some (foldl Z.max x l) end.

(** The value of a 64-bit integer operation: two's complement. *)
Definition wrap64 (z : Z) : Z := ((z + 2 ^ 63) mod 2 ^ 64 - 2 ^ 63)%Z.

(** The float nearest to a whole number: 53 significant bits, a tie goes
    to the even neighbour. *)
Definition np_float64 (z : Z) : Z :=
  let a := Z.abs z in
  let e := (Z.log2 a - 52)%Z in
  if decide (e ≤ 0)%Z then z
  else
    let q := (a / 2 ^ e)%Z in
    let r := (a mod 2 ^ e)%Z in
    let half := (2 ^ (e - 1))%Z in
    let q' := if decide (r < half)%Z then q
              else if decide (half < r)%Z then (q + 1)%Z
              else if Z.even q then q else (q + 1)%Z in
    (Z.sgn z * (q' * 2 ^ e))%Z.

(** [from_problem] (lines 116-144).  [costs[0]] raises IndexError on an
    array without rows.  [max_value] is a 64-bit integer; in line 142 it is
    subtracted from a cell of the integer array when the problem is square,
    and from a cell of the array of floats when it has been padded. *)
Definition from_problem (problem : AssignmentProblem) : result NormalizedAssignmentProblem :=
  let costs0 := costs problem in
  let ilosc_wierszy := length costs0 in
  row0 ← from_option IndexError (costs0 !! 0);
  let ilosc_kolumn := length row0 in
  max_value ← from_option ValueError (np_max_array costs0);
  let costs1 :=
    if decide (ilosc_kolumn < ilosc_wierszy) then
      (λ row : list Z,
         (np_float64 <$> row) ++ replicate (ilosc_wierszy - ilosc_kolumn) 0%Z)
        <$> costs0
    else if decide (ilosc_wierszy < ilosc_kolumn) then
      ((λ row : list Z, np_float64 <$> row) <$> costs0)
        ++ replicate (ilosc_kolumn - ilosc_wierszy) (replicate ilosc_kolumn 0%Z)
    else costs0 in
  let subtract (x : Z) : Z :=
    if decide (ilosc_wierszy = ilosc_kolumn) then wrap64 (max_value - x)
    else np_float64 (np_float64 max_value - x) in
  let costs2 :=
    if objective_is_min problem then costs1
    else (λ row : list Z, subtract <$> row) <$> costs1 in
  Ok (mkNormalizedAssignmentProblem costs2 problem).

End Assignment.

(** [a[i, j]] for indices within the shape. *)
Definition zcell (a : list (list Z)) (i j : nat) : Z :=
  default 0%Z (a !! i ≫= λ row, row !! j).

(** ** Comparison matrices (lab12_13 ahp.py)

    A comparison matrix is a numpy array of floats, a list of rows.  numpy
    does not raise on a division by 0: the cell becomes inf or nan, which
    the model reports as [NonFinite]. *)

Module Ahp.

(** [comparison_matrix[row, 1 + row:] = values] (line 45): numpy takes a
    sequence of the length of the slice, repeats a sequence of length 1,
    and raises ValueError on any other length. *)
Definition assign_slice (n : nat) (values : list Qc) : result (list Qc) :=
  if decide (length values = n) then Ok values
  else match values with
       | [v] => Ok (replicate n v)
       | _ => Err ValueError
       end.

(** [fill_comparison_matrix_from_upper_triangular] (lines 27-50).  The
    first loop writes the part above the diagonal of [np.eye(size)]; the
    second loop reads that part only. *)
Definition fill_comparison_matrix_from_upper_triangular
    (upper_triangular : list (list Qc)) : result (list (list Qc)) :=
  let size := length upper_triangular + 1 in
  upper ← mapM (M := result)
             (λ p : nat * list Qc, assign_slice (size - 1 - p.1) p.2)
             (imap pair upper_triangular);
  let comparison_matrix :=
    imap (λ row values, replicate row 0%Qc ++ [1%Qc] ++ values) upper
    ++ [replicate (size - 1) 0%Qc ++ [1%Qc]] in
  mapM (M := result)
    (λ row,
       mapM (M := result)
         (λ col,
            if decide (col < row) then
              let x := cell comparison_matrix col row in
              if decide (x = 0%Qc) then Err NonFinite else Ok (1 / x)%Qc
            else Ok (cell comparison_matrix row col))
         (seq 0 size))
    (seq 0 size).

(** [sum(w)] of Python: from 0, left to right. *)
Definition py_sum (w : list Qc) : Qc := foldl Qcplus 0%Qc w.

(** [normalize_vector] (lines 81-82) on a numpy array: every entry is
    divided by the sum, so an array without entries is returned as it
    is. *)
Definition normalize_vector (w : list Qc) : result (list Qc) :=
  let s := py_sum w in
  mapM (M := result)
    (λ x, if decide (s = 0%Qc) then Err NonFinite else Ok (x / s)%Qc) w.

(** [c[i, j]] of a numpy array, for indices that are not negative. *)
Definition getitem2 (c : list (list Qc)) (i j : nat) : result Qc :=
  from_option IndexError (c !! i ≫= λ row, row !! j).

(** The triples [i < j < k] of the loops of [koczkodaj_index], in the
    order of the loops. *)
Definition triples (n : nat) : list (nat * nat * nat) :=
  i ← seq 0 n;
  j ← seq (i + 1) (n - (i + 1));
  k ← seq (j + 1) (n - (j + 1));
  [(i, j, k)].

(** The value appended to [localValue] (lines 113-114). *)
Definition local_koczkodaj (c : list (list Qc)) (t : nat * nat * nat) : result Qc :=
  let '(i, j, k) := t in
  cij ← getitem2 c i j;
  cik ← getitem2 c i k;
  ckj ← getitem2 c k j;
  if decide ((cik * ckj)%Qc = 0%Qc ∨ cij = 0%Qc) then Err NonFinite
  else Ok (Qc_min (Qc_abs (1 - cij / (cik * ckj)))
                  (Qc_abs (1 - (cik * ckj) / cij)))%Qc.

(** [koczkodaj_index] (lines 105-115); [max] of an empty list raises
    ValueError. *)
Definition koczkodaj_index (c : list (list Qc)) : result Qc :=
  localValue ← mapM (M := result) (local_koczkodaj c) (triples (length c));
  from_option ValueError (np_max localValue).

End Ahp.

(** Every constraint row has a basic column: a variable column that is the
    unit vector of the row and holds 0 in the cost row. *)
Definition has_basis (tb : list (list Qc)) : Prop :=
  ∀ r, 1 ≤ r < nrows tb →
    ∃ k, k < ncols tb - 1 ∧ unit_column tb k r ∧ cell tb 0 k = 0%Qc.

(** No variable column consists of a 1 in the cost row and 0 in every
    constraint row. *)
Definition no_cost_only_column (tb : list (list Qc)) : Prop :=
  ∀ c, c < ncols tb - 1 →
    (∀ r, 1 ≤ r < nrows tb → cell tb r c = 0%Qc) → cell tb 0 c ≠ 1%Qc.

(** The form in which the simplex loop keeps a tableaux. *)
Definition canonical (tb : list (list Qc)) : Prop :=
  wf_table tb ∧ feasible tb ∧ has_basis tb ∧ no_cost_only_column tb.

(** The coefficient of the variable of index [x] in an expression: the
    entry of [factors] at a variable of that index. *)
Definition coef (e : Expression) (x : nat) : Qc :=
  Qc_sum (factor <$> filter (λ a, index (var a) = x) e).

(** The variables of a model carry their positions as indices, as
    [create_variable] assigns them. *)
Definition indexed (vars : list Var) : Prop :=
  ∀ i v, vars !! i = Some v → index v = i.

(** A model whose constraints mention variables of the model only. *)
Definition wf_model (m : Model) : Prop :=
  indexed (variables m) ∧
  Forall (λ c, Forall (λ a, index (var a) < length (variables m)) (c_expression c))
         (constraints m).

(** What a loop of [add_variable_round] makes of the model [m0]: the
    variables of the dict [vars] are appended, and the constraint of each
    entry gets the atom of its variable with the factor [f]. *)
Definition extension (select : ConstraintType → bool) (f : Qc)
    (t : nat) (m0 m : Model) (vars : list (Var * nat)) : Prop :=
  variables m = variables m0 ++ vars.*1 ∧
  objective m = objective m0 ∧
  length (constraints m) = length (constraints m0) ∧
  NoDup vars.*2 ∧
  (∀ k v j, vars !! k = Some (v, j) →
     index v = length (variables m0) + k ∧ j < t ∧
     ∃ c, constraints m0 !! j = Some c ∧ select (c_type c) = true) ∧
  (∀ j c, constraints m0 !! j = Some c →
     ∃ c', constraints m !! j = Some c' ∧
           c_type c' = c_type c ∧ bound c' = bound c ∧
           (t ≤ j ∨ select (c_type c) = false → c_expression c' = c_expression c) ∧
           (j < t → select (c_type c) = true →
            ∃ k v, vars !! k = Some (v, j) ∧
                   c_expression c' = c_expression c ++ [mkAtom v f])).

(** Column [k] of the tableaux of [m] belongs to the constraint [j] alone,
    with the coefficient 1. *)
Definition own_column (m : Model) (j k : nat) : Prop :=
  k < length (variables m) ∧
  ∀ j' c, constraints m !! j' = Some c →
    coef (c_expression c) k = if decide (j' = j) then 1%Qc else 0%Qc.

(** The form of a model after [_normalize_model]: no negative bound, and a
    slack column for every [<=] constraint. *)
Definition normal_form (m : Model) : Prop :=
  wf_model m ∧
  Forall (λ c, 0 ≤ bound c)%Qc (constraints m) ∧
  ∀ j c, constraints m !! j = Some c → c_type c = LE → ∃ k, own_column m j k.

(** The objective of Phase I that [_prepare_first_phase_objective] builds
    from the objective [o] and the dict of the artificial variables. *)
Definition first_phase_objective (o : Objective) (artificial : list (Var * nat))
    : Objective :=
  foldl (λ o variable,
           mkObjective (expr_sub (o_expression o) (expr_of_var variable)) (o_type o))
        (mkObjective ((λ atom, mkAtom (var atom) 0%Qc) <$> o_expression o) (o_type o))
        artificial.*1.

(** The value of row [r] of a tableaux at the values [a] of the variable
    columns: the sum of [table[r, c] * a[c]]. *)
Definition row_value (tb : list (list Qc)) (a : list Qc) (r : nat) : Qc :=
  Qc_sum (imap (λ c x, cell tb r c * x)%Qc a).

(** Every cell is a whole number.  The sum of a column that [extract_basis]
    compares with 1.0 is then exact in the floats of numpy as well. *)
Definition integer_cells (tb : list (list Qc)) : Prop :=
  Forall (Forall (λ x : Qc, Qden x = 1%positive)) tb.

(** ** Concrete models and tableaux *)

Definition num (z : Z) : Qc := Q2Qc (inject_Z z).
Definition frac (a : Z) (b : positive) : Qc := Q2Qc (a # b).

Definition x1 : Var := mkVariable 0 "x1".
Definition x2 : Var := mkVariable 1 "x2".

(** A store that holds the caller's model only, and a solver object whose
    fields are not set yet. *)
Definition fresh04 (m : Model) : Lab04.St := mkState [m] (Lab04.mkSolver [] [] []).
Definition fresh03 (m : Model) : Lab03.St := mkState [m] (Lab03.mkSolver []).

(** integer_01_solvable.py, lines 8-14:
    maximize 5 x1 + 8 x2 subject to x1 + x2 <= 6, 5 x1 + 9 x2 <= 45. *)
Definition model_integer_01 : Model :=
  mkModel [x1; x2]
    [mkConstraint [mkAtom x1 (num 1); mkAtom x2 (num 1)] LE (num 6);
     mkConstraint [mkAtom x1 (num 5); mkAtom x2 (num 9)] LE (num 45)]
    (mkObjective [mkAtom x1 (num 5); mkAtom x2 (num 8)] MAX).

(** minimize -x2 subject to x1 + x2 = 2. *)
Definition model_minimize : Model :=
  mkModel [x1; x2]
    [mkConstraint [mkAtom x1 (num 1); mkAtom x2 (num 1)] EQ (num 2)]
    (mkObjective [mkAtom x2 (num (-1))] MIN).

(** maximize x1 + x2 subject to x1 + x2 = 2, 2 x1 + 2 x2 = 4: feasible, the
    second constraint repeats the first. *)
Definition model_redundant : Model :=
  mkModel [x1; x2]
    [mkConstraint [mkAtom x1 (num 1); mkAtom x2 (num 1)] EQ (num 2);
     mkConstraint [mkAtom x1 (num 2); mkAtom x2 (num 2)] EQ (num 4)]
    (mkObjective [mkAtom x1 (num 1); mkAtom x2 (num 1)] MAX).

(** maximize x1 - x2 subject to x1 <= 4: the optimum is x1 = 4, x2 = 0. *)
Definition model_free_column : Model :=
  mkModel [x1; x2]
    [mkConstraint [mkAtom x1 (num 1)] LE (num 4)]
    (mkObjective [mkAtom x1 (num 1); mkAtom x2 (num (-1))] MAX).

(** maximize x1, with no constraint. *)
Definition model_unbounded : Model :=
  mkModel [x1] [] (mkObjective [mkAtom x1 (num 1)] MAX).

(** maximize x1 subject to -x1 <= 0 and x1 <= 5: feasible and bounded, the
    optimum is x1 = 5. *)
Definition model_cycle : Model :=
  mkModel [x1]
    [mkConstraint [mkAtom x1 (num (-1))] LE (num 0);
     mkConstraint [mkAtom x1 (num 1)] LE (num 5)]
    (mkObjective [mkAtom x1 (num 1)] MAX).

(** A tableaux with one variable and two constraint rows: the first has a
    negative entry and the right-hand side 0, the second a positive entry. *)
Definition tableaux_degenerate : Tableaux :=
  mkTableaux 0 [[num (-1); num 0];
                [num (-1); num 0];
                [num 1; num 5]].

(** A table of Phase I before its cost row is fixed, for x1 + x2 = 2 and
    2 x1 + 2 x2 = 4: the columns are x1, x2, the artificial variables R0
    and R1, and the right-hand side. *)
Definition tableaux_artificial : Tableaux :=
  mkTableaux 0 [[num 0; num 0; num 1; num 1; num 0];
                [num 1; num 1; num 1; num 0; num 2];
                [num 2; num 2; num 0; num 1; num 4]].

(** Equalities between computed rationals. *)
Ltac Qc_eq :=
  lazymatch goal with
  | |- @eq Qc _ _ => apply Qc_is_canon; reflexivity
  | |- _ => first [reflexivity | f_equal; Qc_eq]
  end.
Ltac Qc_compute := vm_compute; Qc_eq.

(** * Verification *)

(** ** Order facts on the values compared by [min] *)

Lemma float_le_refl x : float_le x x.
Proof.
  unfold float_le. destruct x; simpl; try done.
  apply bool_decide_eq_false. apply Qcle_not_lt, Qcle_refl.
Qed.

Lemma float_le_trans x y z :
  y ≠ NaN → float_le x y → float_le y z → float_le x z.
Proof.
  unfold float_le. intros Hy.
  destruct x, y, z; simpl; try done;
    rewrite ?bool_decide_eq_false; intros H1 H2; try done.
  apply Qcle_not_lt. apply Qcle_trans with q0; by apply Qcnot_lt_le.
Qed.

Lemma float_le_total x y : float_ltb x y = true → float_le x y.
Proof.
  unfold float_le. destruct x, y; simpl; try done.
  rewrite bool_decide_eq_true, bool_decide_eq_false.
  intros H. by apply Qcle_not_lt, Qclt_le_weak.
Qed.

Lemma float_eqb_eq x y : float_eqb x y = true ↔ x = y ∧ x ≠ NaN.
Proof.
  destruct x, y; simpl; rewrite ?bool_decide_eq_true;
    split; try done; try (by intros [? ?]).
  - by intros ->.
  - by intros [[= ->] _].
Qed.

Lemma float_ltb_irrefl x : float_ltb x x = false.
Proof. apply float_le_refl. Qed.

Lemma min_step_le_l best y : float_le (min_step best y) best.
Proof.
  unfold min_step. destruct (float_ltb y best) eqn:E.
  - by apply float_le_total.
  - apply float_le_refl.
Qed.

Lemma min_step_le_r best y : float_le (min_step best y) y.
Proof.
  unfold min_step. destruct (float_ltb y best) eqn:E.
  - apply float_le_refl.
  - exact E.
Qed.

Lemma min_step_cases best y : min_step best y = best ∨ min_step best y = y.
Proof. unfold min_step. destruct (float_ltb y best); auto. Qed.

Lemma foldl_min_step l best :
  Forall (λ x, x ≠ NaN) (best :: l) →
  let m := foldl min_step best l in
  m ∈ best :: l ∧ ∀ y, y ∈ best :: l → float_le m y.
Proof.
  revert best. induction l as [|y l IH]; intros best Hn; simpl.
  - split; [left|]. intros y ->%list_elem_of_singleton. apply float_le_refl.
  - inversion Hn as [|?? Hb Hl]; subst. inversion Hl as [|?? Hy Hl']; subst.
    assert (Hm : min_step best y ≠ NaN)
      by (destruct (min_step_cases best y) as [-> | ->]; done).
    destruct (IH (min_step best y)) as [Hin Hle]; [by constructor|].
    split.
    + apply elem_of_cons in Hin as [Hin|Hin]; [|by do 2 right].
      rewrite Hin. destruct (min_step_cases best y) as [-> | ->];
        [left | right; left].
    + intros z Hz.
      assert (Hmin : float_le (foldl min_step (min_step best y) l) (min_step best y))
        by (apply Hle; left).
      apply elem_of_cons in Hz as [->|Hz].
      { eapply float_le_trans; [exact Hm|exact Hmin|apply min_step_le_l]. }
      apply elem_of_cons in Hz as [->|Hz].
      { eapply float_le_trans; [exact Hm|exact Hmin|apply min_step_le_r]. }
      apply Hle. by right.
Qed.

(** [min(l)] is an item of [l] that no item is strictly below. *)
Lemma py_min_spec l m :
  Forall (λ x, x ≠ NaN) l → py_min l = Some m →
  m ∈ l ∧ ∀ y, y ∈ l → float_le m y.
Proof.
  destruct l as [|x l]; [done|]. intros Hn [= <-]. by apply foldl_min_step.
Qed.

Lemma py_min_is_Some l : l ≠ [] → is_Some (py_min l).
Proof. destruct l; [done|]. by eexists. Qed.

(** [index_of x l] is the first position of [x]. *)
Lemma index_of_spec x l i :
  x ≠ NaN → index_of x l = Some i →
  l !! i = Some x ∧ ∀ k y, k < i → l !! k = Some y → y ≠ x.
Proof.
  intros Hx. revert i. induction l as [|y l IH]; intros i; simpl; [done|].
  destruct (float_eqb y x) eqn:E.
  - intros [= <-]. apply float_eqb_eq in E as [-> _]. split; [done|]. lia.
  - destruct (index_of x l) as [j|]; [|done]. intros [= <-].
    destruct (IH j eq_refl) as [Hj Hfirst]. split; [done|].
    intros [|k] z Hk; simpl.
    + intros [= <-] ->.
      assert (float_eqb x x = true) by (by apply float_eqb_eq). congruence.
    + intros Hz. eapply Hfirst; [|done]. lia.
Qed.

Lemma index_of_is_Some x l : x ∈ l → x ≠ NaN → is_Some (index_of x l).
Proof.
  intros Hin Hx. induction l as [|y l IH]; simpl; [by apply elem_of_nil in Hin|].
  destruct (float_eqb y x) eqn:E; [by eexists|].
  apply elem_of_cons in Hin as [->|Hin].
  - assert (float_eqb y y = true) by (by apply float_eqb_eq). congruence.
  - destruct (IH Hin) as [j ->]. by eexists.
Qed.

(** ** The entering variable *)

Lemma without_zero_not_nan v : without_zero v ≠ NaN.
Proof. unfold without_zero. by destruct (decide (v ≠ 0%Qc)). Qed.

Lemma without_zero_Fin v c : without_zero v = Fin c → v = c ∧ c ≠ 0%Qc.
Proof.
  unfold without_zero. destruct (decide (v ≠ 0%Qc)); [|done].
  by intros [= <-].
Qed.

Lemma Forall_without_zero l : Forall (λ x, x ≠ NaN) (without_zero <$> l).
Proof. apply Forall_fmap, Forall_forall. intros v _. apply without_zero_not_nan. Qed.

Lemma not_optimal_negative t :
  is_optimal t = false → ∃ f, f ∈ cost_factors t ∧ (f < 0)%Qc.
Proof.
  unfold is_optimal. intros H.
  induction (cost_factors t) as [|f l IH]; simpl in H; [done|].
  apply andb_false_iff in H as [H|H].
  - exists f. split; [left|].
    apply bool_decide_eq_false in H. by apply Qcnot_le_lt.
  - destruct (IH H) as (g & Hg & Hneg). exists g. split; [by right|done].
Qed.

(** C5.  On a tableaux that is not optimal, [choose_entering_variable]
    returns the column [j] whose cost-row factor [cj] is the most negative:
    [cj] is negative, no factor is below it, a factor 0 takes part in the
    comparison as +infinity, and no column before [j] holds the same
    factor (first occurrence). *)
Theorem choose_entering_variable_most_negative (t : Tableaux) :
  is_optimal t = false →
  ∃ j cj,
    choose_entering_variable t = Ok j ∧
    cost_factors t !! j = Some cj ∧
    (cj < 0)%Qc ∧
    (∀ k ck, cost_factors t !! k = Some ck →
       float_le (Fin cj) (if decide (ck = 0%Qc) then PInf else Fin ck) ∧ (cj ≤ ck)%Qc) ∧
    (∀ k ck, k < j → cost_factors t !! k = Some ck → ck ≠ cj).
Proof.
  intros Hopt. destruct (not_optimal_negative t Hopt) as (f & Hf & Hneg).
  unfold choose_entering_variable.
  set (fwz := without_zero <$> cost_factors t).
  assert (Hnan : Forall (λ x, x ≠ NaN) fwz) by apply Forall_without_zero.
  assert (Hfin : Fin f ∈ fwz).
  { apply list_elem_of_fmap. exists f. split; [|done].
    unfold without_zero. destruct (decide (f ≠ 0%Qc)) as [|Hz]; [done|].
    exfalso. apply Hz. intros ->. by apply Qclt_not_eq in Hneg. }
  destruct (py_min_is_Some fwz) as [m Hm].
  { intros E. rewrite E in Hfin. by apply elem_of_nil in Hfin. }
  rewrite Hm. simpl.
  destruct (py_min_spec fwz m Hnan Hm) as [Hin Hle].
  assert (Hmf := Hle _ Hfin).
  destruct m as [c| | |]; try done;
    try (apply list_elem_of_fmap in Hin as (v & Hv & _);
         unfold without_zero in Hv; by destruct (decide (v ≠ 0%Qc))).
  destruct (index_of_is_Some (Fin c) fwz Hin) as [j Hj]; [done|].
  rewrite Hj. simpl.
  destruct (index_of_spec (Fin c) fwz j) as [Hlook Hfirst]; [done..|].
  unfold fwz in Hlook. rewrite list_lookup_fmap in Hlook.
  destruct (cost_factors t !! j) as [cj|] eqn:Ecj; [|done].
  simpl in Hlook. injection Hlook as Hlook.
  apply without_zero_Fin in Hlook as [-> Hc0].
  assert (Hcneg : (c < 0)%Qc).
  { unfold float_le in Hmf. simpl in Hmf. apply bool_decide_eq_false in Hmf.
    apply Qcnot_lt_le in Hmf. by eapply Qcle_lt_trans. }
  exists j, c. repeat split; try done.
  - assert (Hk : without_zero ck ∈ fwz).
    { apply list_elem_of_fmap. exists ck. split; [done|].
      by eapply list_elem_of_lookup_2. }
    apply Hle in Hk. unfold without_zero in Hk.
    destruct (decide (ck = 0%Qc)), (decide (ck ≠ 0%Qc)); done.
  - destruct (decide (ck = 0%Qc)) as [->|Hne]; [by apply Qclt_le_weak|].
    assert (Hk : without_zero ck ∈ fwz).
    { apply list_elem_of_fmap. exists ck. split; [done|].
      by eapply list_elem_of_lookup_2. }
    apply Hle in Hk. unfold without_zero in Hk.
    destruct (decide (ck ≠ 0%Qc)); [|done].
    unfold float_le in Hk. simpl in Hk. apply bool_decide_eq_false in Hk.
    by apply Qcnot_lt_le.
  - intros k ck Hk Hck ->.
    eapply (Hfirst k (without_zero c)); [done| |].
    + unfold fwz. by rewrite list_lookup_fmap, Hck.
    + unfold without_zero. by destruct (decide (c ≠ 0%Qc)).
Qed.

Lemma wf_table_row tb r row :
  wf_table tb → tb !! r = Some row → length row = ncols tb.
Proof.
  intros (_ & _ & Hall) Hr. rewrite Forall_forall in Hall.
  apply Hall. by eapply list_elem_of_lookup_2.
Qed.

Lemma leaving_ratios_length t col :
  length (leaving_ratios t col) = nrows (table t) - 1.
Proof.
  unfold leaving_ratios, rhs_column, column, nrows.
  rewrite length_fmap, length_zip_with, !length_drop, !length_fmap. lia.
Qed.

(** ** The pivot *)

Lemma pivot_Ok t row col :
  row < nrows (table t) → col < ncols (table t) →
  cell (table t) row col ≠ 0%Qc →
  pivot t row col =
    Ok (mkTableaux (t_model t)
          (imap (λ r old_row,
                   imap (λ c _, pivot_cell (table t) row col r c) old_row)
                (table t))).
Proof.
  intros Hr Hc Hp. unfold pivot.
  rewrite decide_True by done. by rewrite decide_False.
Qed.

Lemma pivot_table_cell tb row col r c :
  wf_table tb → r < nrows tb → c < ncols tb →
  cell (imap (λ r old_row, imap (λ c _, pivot_cell tb row col r c) old_row) tb) r c
  = pivot_cell tb row col r c.
Proof.
  intros Hwf Hr Hc. unfold cell.
  destruct (lookup_lt_is_Some_2 tb r Hr) as [old_row Hrow].
  rewrite list_lookup_imap, Hrow. simpl.
  assert (Hlen := wf_table_row _ _ _ Hwf Hrow).
  destruct (lookup_lt_is_Some_2 old_row c) as [x Hx]; [lia|].
  by rewrite list_lookup_imap, Hx.
Qed.

Lemma pivot_table_shape tb row col :
  wf_table tb →
  let tb' := imap (λ r old_row, imap (λ c _, pivot_cell tb row col r c) old_row) tb in
  nrows tb' = nrows tb ∧ ncols tb' = ncols tb ∧ wf_table tb'.
Proof.
  intros Hwf tb'.
  assert (Hn : nrows tb' = nrows tb) by (unfold nrows, tb'; by rewrite length_imap).
  assert (Hc : ncols tb' = ncols tb).
  { unfold ncols, tb'. rewrite list_lookup_imap.
    destruct (tb !! 0); simpl; [by rewrite length_imap|done]. }
  repeat split; try done.
  - rewrite Hn. apply Hwf.
  - rewrite Hc. apply Hwf.
  - apply Forall_lookup. intros r x Hx. rewrite Hc.
    unfold tb' in Hx. rewrite list_lookup_imap in Hx.
    destruct (tb !! r) as [old_row|] eqn:E; [|done].
    simpl in Hx. injection Hx as <-. rewrite length_imap.
    by eapply wf_table_row.
Qed.

(** C4.  [pivot(row, col)] on a pivot element that is not 0 leaves the
    shape of the table, puts 1 at [row, col] and 0 in the rest of the
    column, divides the pivot row by the pivot element, and sets every other
    cell to [old[r,c] − old[r,col] * (old[row,c] / old[row,col])], all read
    from the table as it was before the call. *)
Theorem pivot_gauss_jordan (t : Tableaux) (row col : nat) :
  wf_table (table t) →
  row < nrows (table t) → col < ncols (table t) →
  cell (table t) row col ≠ 0%Qc →
  ∃ t',
    pivot t row col = Ok t' ∧
    t_model t' = t_model t ∧
    wf_table (table t') ∧
    nrows (table t') = nrows (table t) ∧
    ncols (table t') = ncols (table t) ∧
    cell (table t') row col = 1%Qc ∧
    (∀ r, r < nrows (table t) → r ≠ row → cell (table t') r col = 0%Qc) ∧
    (∀ c, c < ncols (table t) → c ≠ col →
       cell (table t') row c = (cell (table t) row c / cell (table t) row col)%Qc) ∧
    (∀ r c, r < nrows (table t) → c < ncols (table t) → r ≠ row → c ≠ col →
       cell (table t') r c =
       (cell (table t) r c
        - cell (table t) r col * (cell (table t) row c / cell (table t) row col))%Qc).
Proof.
  intros Hwf Hr Hc Hp. eexists. split; [by apply pivot_Ok|]. simpl.
  destruct (pivot_table_shape (table t) row col Hwf) as (Hn & Hm & Hwf').
  repeat split; try done; try apply Hwf'.
  - rewrite pivot_table_cell by done. unfold pivot_cell.
    by rewrite !decide_True.
  - intros r Hr' Hne. rewrite pivot_table_cell by done. unfold pivot_cell.
    rewrite decide_True by done. by rewrite decide_False.
  - intros c Hc' Hne. rewrite pivot_table_cell by done. unfold pivot_cell.
    rewrite decide_False by done. by rewrite decide_True.
  - intros r c Hr' Hc' Hner Hnec. rewrite pivot_table_cell by done.
    unfold pivot_cell. rewrite !decide_False by done. simpl. ring.
Qed.

(** ** The store: what a computation leaves untouched *)

Section Frame.
Context {F : Type} (n : nat) (h0 : list Model).
Local Abbreviation kept := (kept (F := F) n h0).
Local Abbreviation keeps := (keeps (F := F) n h0).

Lemma keeps_weaken {A} (c : M F A) (Q R : A → Prop) :
  keeps c Q → (∀ a, Q a → R a) → keeps c R.
Proof. intros Hc HQR s Hs. destruct (Hc s Hs). split; eauto. Qed.

Lemma keeps_ret {A} (a : A) (Q : A → Prop) : Q a → keeps (mret a) Q.
Proof. intros HQ s Hs. split; [done|]. by intros ? [= <-]. Qed.

Lemma keeps_raise {A} (e : error) (Q : A → Prop) : keeps (raise e) Q.
Proof. intros s Hs. by split. Qed.

Lemma keeps_lift {A} (r : result A) : keeps (lift r) (λ a, r = Ok a).
Proof. intros s Hs. by split. Qed.

Lemma keeps_bind {A B} (c : M F A) (f : A → M F B) (Q : A → Prop) (R : B → Prop) :
  keeps c Q → (∀ a, Q a → keeps (f a) R) → keeps (c ≫= f) R.
Proof.
  intros Hc Hf s Hs. unfold mbind, M_bind.
  destruct (Hc s Hs) as [Hk HQ]. destruct (c s) as [[a|e] s1]; simpl in *.
  - by apply Hf; [apply HQ|].
  - by split.
Qed.

Lemma keeps_get_model (l : loc) :
  keeps (get_model l) (λ m, l < n → h0 !! l = Some m).
Proof.
  intros s [Hlen Htake]. split; [done|].
  intros m Hm Hl. unfold get_model in Hm. simpl in Hm.
  rewrite <- Htake, lookup_take_lt by done.
  destruct (heap s !! l); by simplify_eq/=.
Qed.

Lemma keeps_set_model (l : loc) (m : Model) :
  n ≤ l → keeps (set_model l m) (λ _, True).
Proof.
  intros Hl s [Hlen Htake]. split; [|done]. unfold kept, set_model. simpl.
  split.
  - by rewrite length_insert.
  - by rewrite take_insert_ge.
Qed.

Lemma keeps_get_self : keeps get_self (λ _ : F, True).
Proof. intros s Hs. by split. Qed.

Lemma keeps_set_self (f : F) : keeps (set_self f) (λ _, True).
Proof. intros s Hs. by split. Qed.

Lemma keeps_deepcopy (l : loc) : keeps (deepcopy l) (λ l', n ≤ l').
Proof.
  intros s [Hlen Htake]. unfold deepcopy.
  destruct (heap s !! l) as [m|]; simpl.
  - split; [split; simpl|].
    + rewrite length_app. lia.
    + by rewrite take_app_le.
    + by intros ? [= <-].
  - by split.
Qed.

Lemma keeps_if {A} (b : bool) (c1 c2 : M F A) (Q : A → Prop) :
  keeps c1 Q → keeps c2 Q → keeps (if b then c1 else c2) Q.
Proof. by destruct b. Qed.
End Frame.

(** A computation that leaves every prefix of the store untouched leaves
    the store it starts from as a prefix of the one it ends with. *)
Lemma keeps_prefix {F A} (c : M F A) (s : state F) :
  keeps (length (heap s)) (heap s) c (λ _, True) →
  heap s `prefix_of` heap (c s).2.
Proof.
  intros Hc. destruct (Hc s) as [[Hlen Htake] _].
  { split; [done|]. by rewrite take_ge. }
  exists (drop (length (heap s)) (heap (c s).2)).
  by rewrite <- Htake at 1; rewrite take_drop.
Qed.

Lemma mapM_result_length {A B} (f : A → result B) (l : list A) (k : list B) :
  mapM f l = Ok k → length k = length l.
Proof.
  revert k. induction l as [|x l IH]; intros k Hk; simpl in Hk.
  - by injection Hk as <-.
  - destruct (f x) as [y|]; [|done]. simpl in Hk.
    destruct (mapM f l) as [k'|]; [|done]. simpl in Hk.
    injection Hk as <-. simpl. f_equal. by apply IH.
Qed.

(** ** The two-phase solver writes to its copies only *)

Create HintDb keeps discriminated.

Global Hint Resolve keeps_ret keeps_raise keeps_get_self keeps_set_self
  keeps_deepcopy keeps_get_model keeps_set_model keeps_lift : keeps.

(** One statement of a monadic body: the first computation is handled by the
    hints, the rest is left as the goal. *)
Ltac keeps_step :=
  lazymatch goal with
  | |- keeps _ _ (mbind _ _) _ =>
      eapply keeps_bind; [solve [eauto with keeps] | intros ? ?]
  | |- keeps _ _ (mret _) _ => apply keeps_ret
  | |- keeps _ _ (raise _) _ => apply keeps_raise
  | |- keeps _ _ (if ?b then _ else _) _ => destruct b
  | |- keeps _ _ (let '(_, _) := ?p in _) _ => destruct p
  end.

Section Lab04Frame.
Context (n : nat) (h0 : list Model).
Local Abbreviation keeps := (keeps (F := Lab04.Solver) n h0).

Lemma keeps_basic_initial_tableaux model :
  keeps (Lab04._basic_initial_tableaux model) (λ _, True).
Proof. unfold Lab04._basic_initial_tableaux. by repeat keeps_step. Qed.

Lemma keeps_change_objective_to_max model :
  n ≤ model → keeps (Lab04._change_objective_to_max model) (λ _, True).
Proof.
  intros Hm. unfold Lab04._change_objective_to_max.
  repeat keeps_step; [by apply keeps_set_model | done].
Qed.

Lemma keeps_change_constraints_bounds_to_nonnegative model :
  n ≤ model →
  keeps (Lab04._change_constraints_bounds_to_nonnegative model) (λ _, True).
Proof.
  intros Hm. unfold Lab04._change_constraints_bounds_to_nonnegative.
  keeps_step. by apply keeps_set_model.
Qed.

Lemma keeps_add_variables select prefix combine model :
  n ≤ model →
  keeps (Lab04.add_variables select prefix combine model) (λ _, True).
Proof.
  intros Hm. unfold Lab04.add_variables. by repeat keeps_step.
Qed.
Hint Resolve keeps_basic_initial_tableaux keeps_change_objective_to_max
  keeps_change_constraints_bounds_to_nonnegative keeps_add_variables : keeps.

Lemma keeps_normalize_model original_model :
  keeps (Lab04._normalize_model original_model) (λ model, n ≤ model).
Proof.
  unfold Lab04._normalize_model, Lab04._add_slack_variables,
    Lab04._add_surplus_variables.
  by repeat keeps_step.
Qed.

Lemma keeps_create_presolve_model normalized_model :
  keeps (Lab04._create_presolve_model normalized_model) (λ model, n ≤ model).
Proof.
  unfold Lab04._create_presolve_model, Lab04._add_artificial_variables.
  by repeat keeps_step.
Qed.

Lemma keeps_prepare_first_phase_objective model :
  keeps (Lab04._prepare_first_phase_objective model) (λ model, n ≤ model).
Proof.
  unfold Lab04._prepare_first_phase_objective. by repeat keeps_step.
Qed.
Hint Resolve keeps_normalize_model keeps_create_presolve_model
  keeps_prepare_first_phase_objective : keeps.

Lemma keeps_presolve_initial_tableaux model :
  keeps (Lab04._presolve_initial_tableaux model) (λ _, True).
Proof.
  unfold Lab04._presolve_initial_tableaux.
  repeat keeps_step. eapply keeps_weaken; [apply keeps_lift|done].
Qed.

Lemma keeps_artifical_variables_are_positive tableaux :
  keeps (Lab04._artifical_variables_are_positive tableaux) (λ _, True).
Proof.
  unfold Lab04._artifical_variables_are_positive. by repeat keeps_step.
Qed.

Lemma keeps_remove_artificial_variables tableaux :
  keeps (Lab04._remove_artificial_variables tableaux) (λ _, True).
Proof.
  unfold Lab04._remove_artificial_variables. by repeat keeps_step.
Qed.

Lemma keeps_restore_original_cost_row tableaux original_model :
  keeps (Lab04._restore_original_cost_row tableaux original_model) (λ _, True).
Proof.
  unfold Lab04._restore_original_cost_row.
  keeps_step. case_decide; by keeps_step.
Qed.
Hint Resolve keeps_presolve_initial_tableaux
  keeps_artifical_variables_are_positive keeps_remove_artificial_variables
  keeps_restore_original_cost_row : keeps.

Lemma keeps_presolve fuel model :
  n ≤ model → keeps (Lab04._presolve fuel model) (λ _, True).
Proof.
  intros Hm. unfold Lab04._presolve.
  repeat keeps_step. eapply keeps_weaken; [apply keeps_lift|done].
Qed.
Hint Resolve keeps_presolve : keeps.

(** What [_translate_to_original_model] returns for a model among the
    first [n] objects. *)
Lemma keeps_translate_to_original_model solution model :
  keeps (Lab04._translate_to_original_model solution model)
    (λ sol, s_model sol = model ∧
            ∀ m, h0 !! model = Some m → model < n →
                 length (assignment sol) = length (variables m)).
Proof.
  unfold Lab04._translate_to_original_model.
  eapply keeps_bind; [apply keeps_get_model|]. intros m' Hm'.
  eapply keeps_bind; [apply keeps_lift|]. intros asg Ha. simpl in Ha.
  apply keeps_ret. split; [done|]. simpl.
  intros m Hm Hlt. specialize (Hm' Hlt). simplify_eq.
  eapply mapM_result_length, Ha.
Qed.

Lemma keeps_solve fuel model :
  keeps (Lab04.solve fuel model)
    (λ sol, s_model sol = model ∧
            ∀ m, h0 !! model = Some m → model < n →
                 length (assignment sol) = length (variables m)).
Proof.
  unfold Lab04.solve.
  keeps_step. keeps_step. keeps_step.
  eapply keeps_bind with (Q := λ _, True).
  { case_decide; eauto with keeps. }
  intros tableaux _. keeps_step. keeps_step.
  apply keeps_translate_to_original_model.
Qed.
End Lab04Frame.

(** ** The one-phase solver writes to its copy only *)

Section Lab03Frame.
Context (LE_value : Qc) (n : nat) (h0 : list Model).
Local Abbreviation keeps := (keeps (F := Lab03.Solver) n h0).

Lemma keeps03_normalize_model model :
  n ≤ model → keeps (Lab03._normalize_model LE_value model) (λ l', n ≤ l').
Proof.
  intros Hm. unfold Lab03._normalize_model. by repeat keeps_step.
Qed.

Lemma keeps03_new_Tableaux model :
  keeps (Lab03.new_Tableaux model) (λ _, True).
Proof. unfold Lab03.new_Tableaux. by repeat keeps_step. Qed.

Lemma keeps03_solve fuel model :
  keeps (Lab03.solve LE_value fuel model) (λ _, True).
Proof.
  unfold Lab03.solve.
  keeps_step. eapply keeps_bind; [by apply keeps03_normalize_model|].
  intros normal_model Hn.
  eapply keeps_bind; [apply keeps03_new_Tableaux|]. intros tableaux _.
  by repeat keeps_step.
Qed.
End Lab03Frame.

(** C10.  [solve] never mutates the caller's model, in the two-phase solver
    and in the one-phase solver: every object that the store holds before
    the call, the caller's model among them, is the same after the call,
    whether [solve] returns or raises; the normalization works on a deep
    copy. *)
Theorem solve_keeps_the_model (fuel : nat) (model : loc) (m : Model) :
  (∀ s : Lab04.St,
     heap s `prefix_of` heap (Lab04.solve fuel model s).2 ∧
     (heap s !! model = Some m → heap (Lab04.solve fuel model s).2 !! model = Some m)) ∧
  (∀ (LE_value : Qc) (s : Lab03.St),
     heap s `prefix_of` heap (Lab03.solve LE_value fuel model s).2 ∧
     (heap s !! model = Some m →
      heap (Lab03.solve LE_value fuel model s).2 !! model = Some m)).
Proof.
  split.
  - intros s.
    assert (Hp : heap s `prefix_of` heap (Lab04.solve fuel model s).2).
    { apply keeps_prefix. eapply keeps_weaken; [apply keeps_solve|done]. }
    split; [done|]. intros Hm. by eapply prefix_lookup_Some.
  - intros LE_value s.
    assert (Hp : heap s `prefix_of` heap (Lab03.solve LE_value fuel model s).2).
    { apply keeps_prefix. apply keeps03_solve. }
    split; [done|]. intros Hm. by eapply prefix_lookup_Some.
Qed.

Lemma solve_keeps_the_model_witness :
  heap (fresh04 model_integer_01) !! 0 = Some model_integer_01 ∧
  heap (Lab04.solve 10 0 (fresh04 model_integer_01)).2 !! 0 = Some model_integer_01 ∧
  heap (fresh03 model_integer_01) !! 0 = Some model_integer_01 ∧
  heap (Lab03.solve (num (-1)) 10 0 (fresh03 model_integer_01)).2 !! 0
    = Some model_integer_01.
Proof.
  destruct (solve_keeps_the_model 10 0 model_integer_01) as [H4 H3].
  split; [reflexivity|]. split; [apply H4; reflexivity|].
  split; [reflexivity|]. apply H3. reflexivity.
Defined.

(** C3 (as amended).  When the two-phase [solve] returns, the solution is
    bound to the caller's model, which is unchanged; its assignment has one
    value per variable of that model, and [objective_value] evaluates the
    caller's objective expression on the assignment. *)
Theorem solve_solution_of_the_original_model
    (fuel : nat) (model : loc) (s : Lab04.St) (m : Model) (sol : Solution) :
  heap s !! model = Some m →
  (Lab04.solve fuel model s).1 = Ok sol →
  s_model sol = model ∧
  heap (Lab04.solve fuel model s).2 !! model = Some m ∧
  length (assignment sol) = length (variables m) ∧
  objective_value (heap (Lab04.solve fuel model s).2) sol
    = evaluate (o_expression (objective m)) (assignment sol).
Proof.
  intros Hm Hsol.
  destruct (keeps_solve (length (heap s)) (heap s) fuel model s) as [Hk HQ].
  { split; [done|]. by rewrite take_ge. }
  destruct (HQ sol Hsol) as [Hmodel Hlen].
  assert (Hkeep : heap (Lab04.solve fuel model s).2 !! model = Some m).
  { destruct Hk as [Hle Htake]. apply lookup_lt_Some in Hm as Hlt.
    by rewrite <- (lookup_take_lt _ (length (heap s))), Htake. }
  repeat split; try done.
  - apply Hlen; [done|]. by eapply lookup_lt_Some.
  - unfold objective_value. by rewrite Hmodel, Hkeep.
Qed.

(** ** The loop of [_optimize] *)

Lemma is_unbounded_spec t col :
  is_unbounded t col = true ↔
  ∀ r, r < nrows (table t) → (cell (table t) r col ≤ 0)%Qc.
Proof.
  unfold is_unbounded, column, cell, nrows.
  rewrite <- Is_true_true, forallb_True, Forall_fmap, Forall_lookup. split.
  - intros H r Hr. destruct (lookup_lt_is_Some_2 _ _ Hr) as [row Hrow].
    rewrite Hrow. simpl. specialize (H r row Hrow). simpl in H.
    by apply bool_decide_unpack in H.
  - intros H r row Hrow. simpl. apply bool_decide_pack.
    specialize (H r (lookup_lt_Some _ _ _ Hrow)). by rewrite Hrow in H.
Qed.

Lemma optimize_unbounded_iff fuel t :
  _optimize fuel t = Err Unbounded ↔ chooses_unbounded_column fuel t.
Proof.
  revert t. induction fuel as [|fuel IH]; intros t; simpl.
  - split; [done|]. intros (k & ? & ? & Hk & _). lia.
  - destruct (is_optimal t) eqn:Hopt.
    { split; [done|]. intros (k & t' & col & Hk & Hafter & Hno & _).
      destruct k; simpl in Hafter; [|by rewrite Hopt in Hafter].
      injection Hafter as <-. congruence. }
    destruct (choose_entering_variable t) as [pivot_col|e] eqn:Hcol; simpl.
    2:{ split.
        - intros [= ->]. unfold choose_entering_variable in Hcol.
          destruct (py_min _); simpl in Hcol; [|done].
          destruct f; try done. by destruct (index_of _ _).
        - intros (k & t' & col & Hk & Hafter & Hno & Hc & _).
          destruct k; simpl in Hafter.
          + injection Hafter as <-. congruence.
          + by rewrite Hopt, Hcol in Hafter. }
    destruct (is_unbounded t pivot_col) eqn:Hunb.
    { split; [intros _|done]. exists 0, t, pivot_col.
      repeat split; try done; [lia|]. by apply is_unbounded_spec. }
    destruct (choose_leaving_variable t pivot_col) as [pivot_row|e] eqn:Hrow; simpl.
    2:{ split.
        - intros [= ->]. unfold choose_leaving_variable in Hrow.
          case_decide; [|done].
          destruct (py_min _); simpl in Hrow; [|done].
          by destruct (index_of _ _).
        - intros (k & t' & col & Hk & Hafter & Hno & Hc & Hu & _).
          destruct k; simpl in Hafter.
          + injection Hafter as <-. congruence.
          + by rewrite Hopt, Hcol, Hunb, Hrow in Hafter. }
    destruct (pivot t pivot_row pivot_col) as [t1|e] eqn:Hpiv; simpl.
    2:{ split.
        - intros [= ->]. unfold pivot in Hpiv. by repeat case_decide.
        - intros (k & t' & col & Hk & Hafter & Hno & Hc & Hu & _).
          destruct k; simpl in Hafter.
          + injection Hafter as <-. congruence.
          + by rewrite Hopt, Hcol, Hunb, Hrow, Hpiv in Hafter. }
    rewrite IH. split.
    + intros (k & t' & col & Hk & Hafter & Hrest).
      exists (S k), t', col. split; [lia|]. split; [|done].
      simpl. by rewrite Hopt, Hcol, Hunb, Hrow, Hpiv.
    + intros (k & t' & col & Hk & Hafter & Hno & Hc & Hu & Hall).
      destruct k; simpl in Hafter.
      * injection Hafter as <-. congruence.
      * rewrite Hopt, Hcol, Hunb, Hrow, Hpiv in Hafter.
        exists k, t', col. split; [lia|]. done.
Qed.

(** ** Where [Unbounded] can come from *)

Lemma bind_run_Ok {F A B} (c : M F A) (f : A → M F B) s a s' :
  c s = (Ok a, s') → (c ≫= f) s = f a s'.
Proof. intros H. unfold mbind, M_bind. by rewrite H. Qed.

Lemma bind_run_Err {F A B} (c : M F A) (f : A → M F B) s e s' :
  c s = (Err e, s') → (c ≫= f) s = (Err e, s').
Proof. intros H. unfold mbind, M_bind. by rewrite H. Qed.

Lemma bind_unbounded {F A B} (c : M F A) (f : A → M F B) s :
  quiet c →
  ((c ≫= f) s).1 = Err Unbounded →
  ∃ a s', c s = (Ok a, s') ∧ (f a s').1 = Err Unbounded.
Proof.
  intros Hq. specialize (Hq s). unfold mbind, M_bind.
  destruct (c s) as [[a|e] s'] eqn:E; simpl in *.
  - intros H. by exists a, s'.
  - intros [= ->]. by destruct Hq.
Qed.

Lemma quiet_result_bind {A B} (r : result A) (f : A → result B) :
  quiet_result r → (∀ a, quiet_result (f a)) → quiet_result (r ≫= f).
Proof.
  intros Hr Hf. unfold mbind, result_bind. destruct r; [apply Hf|].
  unfold quiet_result in *. congruence.
Qed.

Lemma quiet_from_option {A} (e : error) (o : option A) :
  e ≠ Unbounded → quiet_result (from_option e o).
Proof. intros He. destruct o; simpl; unfold quiet_result; congruence. Qed.

Lemma quiet_Ok {A} (a : A) : quiet_result (Ok a).
Proof. done. Qed.

Lemma quiet_foldl {A B} (step : A → B → result A) (init : result A) (l : list B) :
  quiet_result init → (∀ a b, quiet_result (step a b)) →
  quiet_result (foldl (λ acc b, a ← acc; step a b) init l).
Proof.
  intros Hi Hs. revert init Hi. induction l as [|b l IH]; intros init Hi; simpl.
  - done.
  - apply IH. by apply quiet_result_bind.
Qed.

Section Quiet.
Context {F : Type}.

Lemma quiet_ret {A} (a : A) : quiet (F := F) (mret a).
Proof. by intros s. Qed.

Lemma quiet_raise {A} (e : error) : e ≠ Unbounded → quiet (F := F) (A := A) (raise e).
Proof. intros He s. unfold quiet_result. simpl. congruence. Qed.

Lemma quiet_lift {A} (r : result A) : quiet_result r → quiet (F := F) (lift r).
Proof. by intros Hr s. Qed.

Lemma quiet_bind {A B} (c : M F A) (f : A → M F B) :
  quiet c → (∀ a, quiet (f a)) → quiet (c ≫= f).
Proof.
  intros Hc Hf s. unfold mbind, M_bind. specialize (Hc s).
  destruct (c s) as [[a|e] s']; simpl in *; [apply Hf|].
  unfold quiet_result in *. congruence.
Qed.

Lemma quiet_get_model (l : loc) : quiet (F := F) (get_model l).
Proof. intros s. unfold get_model. simpl. by apply quiet_from_option. Qed.

Lemma quiet_set_model (l : loc) (m : Model) : quiet (F := F) (set_model l m).
Proof. by intros s. Qed.

Lemma quiet_get_self : quiet (F := F) get_self.
Proof. by intros s. Qed.

Lemma quiet_set_self (f : F) : quiet (set_self f).
Proof. by intros s. Qed.

Lemma quiet_deepcopy (l : loc) : quiet (F := F) (deepcopy l).
Proof. intros s. unfold deepcopy. by destruct (heap s !! l). Qed.
End Quiet.

Create HintDb quiet discriminated.
Global Hint Resolve quiet_ret quiet_lift quiet_get_model quiet_set_model
  quiet_get_self quiet_set_self quiet_deepcopy quiet_Ok : quiet.

Ltac quiet_step :=
  lazymatch goal with
  | |- quiet (mbind _ _) => apply quiet_bind; [solve [eauto with quiet] | intros ?]
  | |- quiet (mret _) => apply quiet_ret
  | |- quiet (raise _) => by apply quiet_raise
  | |- quiet (if ?b then _ else _) => destruct b
  | |- quiet (let '(_, _) := ?p in _) => destruct p
  | |- quiet_result (mbind _ _) => apply quiet_result_bind; [|intros ?]
  | |- quiet_result (from_option _ _) => by apply quiet_from_option
  | |- quiet_result (Ok _) => done
  | |- quiet_result (if ?b then _ else _) => destruct b
  | |- quiet_result (match ?o with Some _ => _ | None => _ end) => destruct o
  end.

Lemma quiet_extract_basis t : quiet_result (extract_basis t).
Proof.
  unfold extract_basis. apply quiet_foldl; [done|]. intros basis c.
  repeat quiet_step. unfold py_setitem. repeat quiet_step. done.
Qed.

Lemma quiet_result_fmap {A B} (f : A → B) (r : result A) :
  quiet_result r → quiet_result (f <$> r).
Proof.
  unfold fmap, result_fmap, quiet_result. destruct r; [done|congruence].
Qed.

Lemma quiet_extract_solution_list t : quiet_result (extract_solution t).
Proof.
  unfold extract_solution.
  apply quiet_result_bind; [apply quiet_extract_basis|done].
Qed.

Lemma quiet_extract_solution t : quiet_result (Lab04.extract_solution t).
Proof. apply quiet_result_fmap, quiet_extract_solution_list. Qed.

Lemma quiet_fix_missing_basis t basis :
  quiet_result (Lab04._fix_missing_basis t basis).
Proof.
  unfold Lab04._fix_missing_basis. apply quiet_result_bind; [|done].
  apply quiet_foldl; [done|]. intros cost_row col_ind.
  repeat quiet_step. unfold py_getitem. repeat quiet_step. done.
Qed.

Lemma quiet_mapM {A B} (f : A → result B) (l : list A) :
  (∀ a, quiet_result (f a)) → quiet_result (mapM f l).
Proof.
  intros Hf. induction l as [|a l IH]; simpl; [done|].
  apply quiet_result_bind; [apply Hf|]. intros b.
  apply quiet_result_bind; [apply IH|]. done.
Qed.

Global Hint Resolve quiet_extract_basis quiet_extract_solution
  quiet_fix_missing_basis : quiet.

(** ** The two phases of [Lab04.solve] *)

Lemma quiet_basic_initial_tableaux model : quiet (Lab04._basic_initial_tableaux model).
Proof. unfold Lab04._basic_initial_tableaux. repeat quiet_step. Qed.

Lemma quiet_change_objective_to_max model : quiet (Lab04._change_objective_to_max model).
Proof.
  unfold Lab04._change_objective_to_max. repeat quiet_step; eauto with quiet.
Qed.

Lemma quiet_change_constraints_bounds_to_nonnegative model :
  quiet (Lab04._change_constraints_bounds_to_nonnegative model).
Proof.
  unfold Lab04._change_constraints_bounds_to_nonnegative.
  repeat quiet_step; eauto with quiet.
Qed.

Lemma quiet_add_variables select prefix combine model :
  quiet (Lab04.add_variables select prefix combine model).
Proof. unfold Lab04.add_variables. repeat quiet_step. Qed.

Global Hint Resolve quiet_basic_initial_tableaux quiet_change_objective_to_max
  quiet_change_constraints_bounds_to_nonnegative quiet_add_variables : quiet.

Lemma quiet_normalize_model model : quiet (Lab04._normalize_model model).
Proof.
  unfold Lab04._normalize_model, Lab04._add_slack_variables,
    Lab04._add_surplus_variables.
  repeat quiet_step.
Qed.

Lemma quiet_create_presolve_model model : quiet (Lab04._create_presolve_model model).
Proof.
  unfold Lab04._create_presolve_model, Lab04._add_artificial_variables.
  repeat quiet_step.
Qed.

Lemma quiet_prepare_first_phase_objective model :
  quiet (Lab04._prepare_first_phase_objective model).
Proof. unfold Lab04._prepare_first_phase_objective. repeat quiet_step. Qed.

Global Hint Resolve quiet_normalize_model quiet_create_presolve_model
  quiet_prepare_first_phase_objective : quiet.

Lemma quiet_presolve_initial_tableaux model :
  quiet (Lab04._presolve_initial_tableaux model).
Proof.
  unfold Lab04._presolve_initial_tableaux. repeat quiet_step.
  apply quiet_lift, quiet_fix_missing_basis.
Qed.

Lemma quiet_artifical_variables_are_positive t :
  quiet (Lab04._artifical_variables_are_positive t).
Proof. unfold Lab04._artifical_variables_are_positive. repeat quiet_step. Qed.

Lemma quiet_remove_artificial_variables t :
  quiet (Lab04._remove_artificial_variables t).
Proof.
  unfold Lab04._remove_artificial_variables. quiet_step.
  apply quiet_bind; [|intros ?; apply quiet_ret].
  apply quiet_lift. unfold Lab04.np_delete_columns. by case_decide.
Qed.

Lemma quiet_restore_original_cost_row t model :
  quiet (Lab04._restore_original_cost_row t model).
Proof.
  unfold Lab04._restore_original_cost_row. quiet_step.
  case_decide; quiet_step.
Qed.

Lemma quiet_translate_to_original_model solution model :
  quiet (Lab04._translate_to_original_model solution model).
Proof.
  unfold Lab04._translate_to_original_model. quiet_step.
  apply quiet_bind; [|intros ?; apply quiet_ret].
  apply quiet_lift, quiet_mapM. intros v. unfold value.
  by apply quiet_from_option.
Qed.

Global Hint Resolve quiet_presolve_initial_tableaux
  quiet_artifical_variables_are_positive quiet_remove_artificial_variables
  quiet_restore_original_cost_row quiet_translate_to_original_model : quiet.

Lemma quiet_leave_phase_I model t : quiet (leave_phase_I model t).
Proof.
  unfold leave_phase_I. repeat quiet_step.
  apply quiet_lift, quiet_fix_missing_basis.
Qed.

Lemma presolve_phases fuel model s :
  Lab04._presolve fuel model s =
  (tableaux ← phase_I_tableaux model;
   tableaux ← lift (_optimize fuel tableaux);
   leave_phase_I model tableaux) s.
Proof.
  unfold Lab04._presolve, phase_I_tableaux, mbind, M_bind.
  destruct (Lab04._create_presolve_model model s) as [[pm|e] s1]; [|done].
  by destruct (Lab04._presolve_initial_tableaux pm s1) as [[t|e] s2].
Qed.

Lemma solve_phases fuel model s :
  Lab04.solve fuel model s =
  (normal_model ← Lab04._normalize_model model;
   tableaux ← phase_II_tableaux fuel normal_model;
   finish fuel model tableaux) s.
Proof.
  unfold Lab04.solve, phase_II_tableaux, finish, mbind, M_bind.
  destruct (Lab04._normalize_model model s) as [[normal|e] s1]; [|done].
  simpl. by destruct (heap s1 !! normal).
Qed.

Lemma quiet_phase_I_tableaux model : quiet (phase_I_tableaux model).
Proof. unfold phase_I_tableaux. repeat quiet_step. eauto with quiet. Qed.

Lemma lift_bind_unbounded {A B} (r : result A) (f : A → M Lab04.Solver B) s :
  (∀ a, quiet (f a)) →
  ((lift r ≫= f) s).1 = Err Unbounded → r = Err Unbounded.
Proof.
  intros Hf. unfold mbind, M_bind, lift. destruct r as [a|e]; simpl.
  - intros H. by destruct (Hf a s).
  - by intros [= ->].
Qed.

Lemma quiet_after_optimize model t :
  quiet (solution ← lift (Lab04.extract_solution t);
         Lab04._translate_to_original_model solution model).
Proof. repeat quiet_step. eauto with quiet. Qed.

Lemma phase_II_tableaux_run fuel normal_model s nm :
  heap s !! normal_model = Some nm →
  phase_II_tableaux fuel normal_model s =
  if decide (length (Lab04.slack_variables (self s)) < length (constraints nm))
  then Lab04._presolve fuel normal_model s
  else Lab04._basic_initial_tableaux normal_model s.
Proof.
  intros Hnm. unfold phase_II_tableaux, mbind, M_bind, get_self, get_model.
  rewrite Hnm. simpl. by case_decide.
Qed.

Lemma presolve_unbounded fuel model s :
  (Lab04._presolve fuel model s).1 = Err Unbounded ↔
  ∃ t s2, phase_I_tableaux model s = (Ok t, s2) ∧ _optimize fuel t = Err Unbounded.
Proof.
  rewrite presolve_phases. split.
  - intros H.
    apply bind_unbounded in H as (t & s2 & Ht & H); [|apply quiet_phase_I_tableaux].
    exists t, s2. split; [done|].
    eapply lift_bind_unbounded; [|exact H]. intros a. apply quiet_leave_phase_I.
  - intros (t & s2 & Ht & Hopt).
    rewrite (bind_run_Ok _ _ _ _ _ Ht).
    unfold mbind, M_bind, lift. by rewrite Hopt.
Qed.


(** ** Running [_normalize_model] *)

Lemma deepcopy_run {F} (l : loc) (s : state F) (m : Model) :
  heap s !! l = Some m →
  deepcopy l s = (Ok (length (heap s)), mkState (heap s ++ [m]) (self s)).
Proof. intros H. unfold deepcopy. by rewrite H. Qed.

Lemma get_model_last {F} (h : list Model) (m : Model) (f : F) :
  get_model (length h) (mkState (h ++ [m]) f) = (Ok m, mkState (h ++ [m]) f).
Proof. unfold get_model. simpl. by rewrite list_lookup_middle. Qed.

Lemma set_model_last {F} (h : list Model) (m m' : Model) (f : F) :
  set_model (length h) m' (mkState (h ++ [m]) f) = (Ok (), mkState (h ++ [m']) f).
Proof.
  unfold set_model. simpl. f_equal. f_equal.
  rewrite insert_app_r_alt by done. by rewrite Nat.sub_diag.
Qed.

(** The rounds of [add_variable_round] keep the types of the constraints
    and add one entry per selected constraint. *)
Lemma add_variable_round_fold select prefix combine rest :
  ∀ done m vars,
    c_type <$> constraints m = done ++ rest →
    Forall (λ p, index p.1 < length (variables m)) vars →
    ∃ m' vars',
      foldl (Lab04.add_variable_round select prefix combine) (m, vars)
            (seq (length done) (length rest)) = (m', vars') ∧
      c_type <$> constraints m' = done ++ rest ∧
      Forall (λ p, index p.1 < length (variables m')) vars' ∧
      length vars' = length vars + length (filter (λ ty, select ty = true) rest).
Proof.
  induction rest as [|ty rest IH]; intros done_ m vars Hty Hvars; simpl.
  - exists m, vars. repeat split; try done; lia.
  - assert (Hc : ∃ c, constraints m !! length done_ = Some c ∧ c_type c = ty).
    { assert (H : (c_type <$> constraints m) !! length done_ = Some ty)
        by (rewrite Hty; apply list_lookup_middle; done).
      rewrite list_lookup_fmap in H.
      destruct (constraints m !! length done_) as [c|]; [|done].
      exists c. split; [done|]. by injection H. }
    destruct Hc as (c & Hc & Hcty). rewrite Hc, Hcty.
    rewrite filter_cons.
    destruct (select ty) eqn:Hsel.
    + set (v := mkVariable (length (variables m)) (fstring prefix (length done_))).
      set (m1 := set_constraint (length done_)
                   (set_expression (combine (c_expression c) v) c)
                   (mkModel (variables m ++ [v]) (constraints m) (objective m))).
      destruct (IH (done_ ++ [ty]) m1 (dict_set v (length done_) vars))
        as (m' & vars' & Hfold & Hty' & Hvars' & Hlen).
      * unfold m1. simpl. rewrite list_fmap_insert. simpl. rewrite Hcty.
        rewrite list_insert_id; [by rewrite <- app_assoc|].
        rewrite Hty. by apply list_lookup_middle.
      * unfold m1. simpl. rewrite length_app. simpl.
        clear -Hvars. induction vars as [|[k x] vars IHv]; simpl.
        { constructor; [simpl; lia|constructor]. }
        inversion Hvars as [|?? Hk Hrest]; subst. simpl in Hk.
        case_decide.
        -- constructor; [simpl; lia|].
           eapply Forall_impl; [exact Hrest|]. intros; simpl in *; lia.
        -- constructor; [simpl; lia|]. by apply IHv.
      * rewrite length_app in Hfold. simpl in Hfold.
        replace (length done_ + 1) with (S (length done_)) in Hfold by lia.
        exists m', vars'. split; [exact Hfold|].
        split; [by rewrite <- app_assoc in Hty'|]. split; [done|].
        rewrite Hlen. rewrite decide_True by done. simpl.
        assert (Hfresh : length (dict_set v (length done_) vars) = S (length vars)).
        { clear -Hvars. unfold v.
          induction vars as [|[k x] vars IHv]; simpl; [done|].
          inversion Hvars as [|?? Hk Hrest]; subst. simpl in Hk.
          rewrite decide_False.
          - simpl. f_equal. by apply IHv.
          - intros ->. simpl in Hk. lia. }
        lia.
    + destruct (IH (done_ ++ [ty]) m vars) as (m' & vars' & Hfold & Hty' & Hvars' & Hlen).
      * by rewrite <- app_assoc.
      * done.
      * rewrite length_app in Hfold. simpl in Hfold.
        replace (length done_ + 1) with (S (length done_)) in Hfold by lia.
        exists m', vars'. split; [exact Hfold|].
        split; [by rewrite <- app_assoc in Hty'|]. split; [done|].
        rewrite Hlen. by rewrite decide_False.
Qed.

Lemma add_variable_rounds_spec select prefix combine m :
  ∃ m' vars,
    Lab04.add_variable_rounds select prefix combine m = (m', vars) ∧
    c_type <$> constraints m' = c_type <$> constraints m ∧
    length vars = length (filter (λ ty, select ty = true) (c_type <$> constraints m)).
Proof.
  destruct (add_variable_round_fold select prefix combine
              (c_type <$> constraints m) [] m [])
    as (m' & vars & Hfold & Hty & _ & Hlen); [done|constructor|].
  exists m', vars. unfold Lab04.add_variable_rounds.
  simpl in Hfold. rewrite length_fmap in Hfold. by repeat split.
Qed.

Lemma add_variables_run select prefix combine (h : list Model) (m : Model) f :
  ∃ m' vars,
    Lab04.add_variables select prefix combine (length h) (mkState (h ++ [m]) f)
      = (Ok vars, mkState (h ++ [m']) f) ∧
    c_type <$> constraints m' = c_type <$> constraints m ∧
    length vars = length (filter (λ ty, select ty = true) (c_type <$> constraints m)).
Proof.
  destruct (add_variable_rounds_spec select prefix combine m)
    as (m' & vars & Hrounds & Hty & Hlen).
  exists m', vars. split; [|done].
  unfold Lab04.add_variables, mbind, M_bind.
  rewrite get_model_last, Hrounds, set_model_last. done.
Qed.

Lemma normalize_model_run model (s : Lab04.St) (m : Model) :
  heap s !! model = Some m →
  ∃ nm slack surplus,
    Lab04._normalize_model model s =
      (Ok (length (heap s)),
       mkState (heap s ++ [nm])
               (Lab04.mkSolver slack surplus (Lab04.artificial_variables (self s)))) ∧
    length slack = length (filter (λ ty, ty = LE) (c_type <$> constraints nm)).
Proof.
  intros Hm. unfold Lab04._normalize_model.
  rewrite (bind_run_Ok _ _ _ _ _ (deepcopy_run model s m Hm)).
  set (h := heap s).
  assert (H1 : ∃ m1, Lab04._change_objective_to_max (length h) (mkState (h ++ [m]) (self s))
                     = (Ok (), mkState (h ++ [m1]) (self s))).
  { unfold Lab04._change_objective_to_max, mbind, M_bind.
    rewrite get_model_last. case_decide.
    - rewrite set_model_last. by eexists.
    - by exists m. }
  destruct H1 as [m1 H1]. rewrite (bind_run_Ok _ _ _ _ _ H1).
  assert (H2 : ∃ m2, Lab04._change_constraints_bounds_to_nonnegative (length h)
                       (mkState (h ++ [m1]) (self s))
                     = (Ok (), mkState (h ++ [m2]) (self s))).
  { unfold Lab04._change_constraints_bounds_to_nonnegative, mbind, M_bind.
    rewrite get_model_last, set_model_last. by eexists. }
  destruct H2 as [m2 H2]. rewrite (bind_run_Ok _ _ _ _ _ H2).
  unfold Lab04._add_slack_variables, Lab04._add_surplus_variables.
  destruct (add_variables_run (λ ty, bool_decide (ty = LE)) "s"
              (λ e slack_var, expr_add e (expr_of_var slack_var)) h m2 (self s))
    as (m3 & slack & H3 & Hty3 & Hlen3).
  rewrite (bind_run_Ok _ _ _ _ _ H3).
  unfold mbind at 1, M_bind at 1, get_self at 1.
  unfold mbind at 1, M_bind at 1, set_self at 1. simpl.
  destruct (add_variables_run (λ ty, bool_decide (ty = GE)) "s"
              (λ e v, expr_sub e (expr_of_var v)) h m3
              (Lab04.mkSolver slack (Lab04.surplus_variables (self s))
                 (Lab04.artificial_variables (self s))))
    as (m4 & surplus & H4 & Hty4 & Hlen4).
  rewrite (bind_run_Ok _ _ _ _ _ H4).
  exists m4, slack, surplus. split; [done|].
  rewrite Hlen3, Hty4, Hty3. f_equal. apply list_filter_iff.
  intros ty. by rewrite bool_decide_eq_true.
Qed.

Lemma filter_length_lt {A} (P : A → Prop) `{∀ x, Decision (P x)} (l : list A) :
  length (filter P l) < length l ↔ Exists (λ x, ¬ P x) l.
Proof.
  induction l as [|x l IH]; simpl.
  - split; [lia|]. by intros ?%Exists_nil.
  - rewrite filter_cons, Exists_cons. pose proof (length_filter P l).
    destruct (decide (P x)); simpl.
    + rewrite <- IH. split; [intros ?; right; lia|]. intros [?|?]; [done|lia].
    + split; [by left|]. lia.
Qed.


(** ** Fuel: a loop that stopped is not changed by more fuel *)

Lemma optimize_fuel_mono fuel t r k :
  _optimize fuel t = r → r ≠ Err OutOfFuel → _optimize (fuel + k) t = r.
Proof.
  revert t. induction fuel as [|fuel IH]; intros t; simpl.
  - by intros <- ?.
  - destruct (is_optimal t); [done|].
    destruct (choose_entering_variable t) as [col|]; [|done]. simpl.
    destruct (is_unbounded t col); [done|].
    destruct (choose_leaving_variable t col) as [row|]; [|done]. simpl.
    destruct (pivot t row col) as [t'|]; [|done]. simpl. apply IH.
Qed.

(** ** The models of the scenarios, run *)

(** C5, at the tableaux of integer_01: the column of x2 (cost -8) enters. *)
Lemma choose_entering_variable_most_negative_witness :
  is_optimal (mkTableaux 0 (initial_table model_integer_01)) = false ∧
  ∃ j cj,
    choose_entering_variable (mkTableaux 0 (initial_table model_integer_01)) = Ok j ∧
    cost_factors (mkTableaux 0 (initial_table model_integer_01)) !! j = Some cj ∧
    (cj < 0)%Qc ∧
    (∀ k ck, cost_factors (mkTableaux 0 (initial_table model_integer_01)) !! k = Some ck →
       float_le (Fin cj) (if decide (ck = 0%Qc) then PInf else Fin ck) ∧ (cj ≤ ck)%Qc) ∧
    (∀ k ck, k < j →
       cost_factors (mkTableaux 0 (initial_table model_integer_01)) !! k = Some ck →
       ck ≠ cj).
Proof.
  split; [reflexivity|].
  apply (choose_entering_variable_most_negative
           (mkTableaux 0 (initial_table model_integer_01))).
  reflexivity.
Defined.

(** As many rounds of the loop as [after_rounds] counts are rounds of
    [_optimize]. *)
Lemma optimize_after_rounds k fuel t t' :
  after_rounds k t = Some t' → _optimize (k + fuel) t = _optimize fuel t'.
Proof.
  revert t. induction k as [|k IH]; intros t; simpl; [by intros [= <-]|].
  destruct (is_optimal t); [done|].
  destruct (choose_entering_variable t) as [pivot_col|]; [|done]. simpl.
  destruct (is_unbounded t pivot_col); [done|].
  destruct (choose_leaving_variable t pivot_col) as [pivot_row|]; [|done]. simpl.
  destruct (pivot t pivot_row pivot_col) as [t1|]; [|done]. simpl.
  apply IH.
Qed.

(** C2.  [choose_leaving_variable] tests the sign of the ratio, not of the
    entry in the column, so a row with a negative entry and the right-hand
    side 0 is chosen (0 / -1 passes [a >= 0]).  On maximize x1 subject to
    -x1 <= 0 and x1 <= 5 the first tableaux has the entries -1 and 1 in the
    entering column, with the ratios 0 and 5; row 1, with the entry -1, is
    returned where the claim admits row 2 only.  The loop pivots on -1
    twice, is back at the first tableaux, and so never ends: [solve] runs
    out of fuel whatever the fuel, on a model whose optimum is x1 = 5. *)
Theorem choose_leaving_variable_negative_pivot_cycles :
  let t0 := mkTableaux 1 (initial_table (normalized model_cycle).1.1) in
  is_optimal t0 = false ∧
  choose_entering_variable t0 = Ok 0 ∧
  (cell (table t0) 1 0 < 0)%Qc ∧ rhs (table t0) 1 = 0%Qc ∧
  (0 < cell (table t0) 2 0)%Qc ∧ (0 ≤ rhs (table t0) 2)%Qc ∧
  choose_leaving_variable t0 0 = Ok 1 ∧
  after_rounds 2 t0 = Some t0 ∧
  Forall (λ c, ∃ v, evaluate (c_expression c) [num 5] = Ok v ∧ (v ≤ bound c)%Qc)
         (constraints model_cycle) ∧
  ∀ fuel, (Lab04.solve fuel 0 (fresh04 model_cycle)).1 = Err OutOfFuel.
Proof.
  intros t0.
  assert (Hcycle : after_rounds 2 t0 = Some t0) by Qc_compute.
  split_and!; try reflexivity; try (vm_compute; discriminate); try exact Hcycle.
  { repeat constructor; eexists; (split; [reflexivity|vm_compute; discriminate]). }
  assert (Hloop : ∀ fuel, _optimize fuel t0 = Err OutOfFuel).
  { intros fuel. induction (lt_wf fuel) as [fuel _ IH].
    destruct fuel as [|[|fuel]]; [reflexivity|reflexivity|].
    change (S (S fuel)) with (2 + fuel).
    rewrite (optimize_after_rounds 2 fuel t0 t0 Hcycle). apply IH. lia. }
  intros fuel.
  rewrite solve_phases. unfold mbind at 1, M_bind at 1.
  destruct (Lab04._normalize_model 0 (fresh04 model_cycle))
    as [[normal|e] s1] eqn:En; [|by vm_compute in En].
  assert (Et : ∃ s2, phase_II_tableaux fuel normal s1 = (Ok t0, s2)).
  { vm_compute in En. injection En as <- <-.
    erewrite phase_II_tableaux_run by reflexivity.
    rewrite decide_False by (vm_compute; lia).
    eexists. reflexivity. }
  destruct Et as [s2 Et].
  unfold mbind at 1, M_bind at 1. rewrite Et.
  unfold finish, mbind at 1, M_bind at 1, lift. by rewrite Hloop.
Qed.

(** C4, at the first pivot of integer_01: row 2, column 1, pivot element 9. *)
Lemma pivot_gauss_jordan_witness :
  let t := mkTableaux 0 (initial_table model_integer_01) in
  wf_table (table t) ∧ 2 < nrows (table t) ∧ 1 < ncols (table t) ∧
  cell (table t) 2 1 ≠ 0%Qc ∧
  ∃ t',
    pivot t 2 1 = Ok t' ∧
    t_model t' = t_model t ∧
    wf_table (table t') ∧
    nrows (table t') = nrows (table t) ∧
    ncols (table t') = ncols (table t) ∧
    cell (table t') 2 1 = 1%Qc ∧
    (∀ r, r < nrows (table t) → r ≠ 2 → cell (table t') r 1 = 0%Qc) ∧
    (∀ c, c < ncols (table t) → c ≠ 1 →
       cell (table t') 2 c = (cell (table t) 2 c / cell (table t) 2 1)%Qc) ∧
    (∀ r c, r < nrows (table t) → c < ncols (table t) → r ≠ 2 → c ≠ 1 →
       cell (table t') r c =
       (cell (table t) r c
        - cell (table t) r 1 * (cell (table t) 2 c / cell (table t) 2 1))%Qc).
Proof.
  intros t.
  assert (Hwf : wf_table (table t)).
  { split; [vm_compute; lia|]. split; [vm_compute; lia|].
    vm_compute. repeat constructor. }
  assert (Hp : cell (table t) 2 1 ≠ 0%Qc) by (vm_compute; discriminate).
  split; [exact Hwf|]. split; [vm_compute; lia|]. split; [vm_compute; lia|].
  split; [exact Hp|].
  apply (pivot_gauss_jordan t 2 1 Hwf); [vm_compute; lia|vm_compute; lia|exact Hp].
Defined.

(** C3, as stated, fails on the one-phase solver: for [model_minimize] the
    solution is bound to the normalized copy (object 1, not the caller's
    object 0), and [objective_value] is 2, the value of the inverted
    objective, while the caller's objective evaluates to -2. *)
Lemma lab03_solution_of_normalized_model :
  let r := Lab03.solve (num (-1)) 10 0 (fresh03 model_minimize) in
  ∃ sol,
    r.1 = Ok sol ∧
    s_model sol = 1 ∧
    assignment sol = [num 0; num 2] ∧
    objective_value (heap r.2) sol = Ok (num 2) ∧
    evaluate (o_expression (objective model_minimize)) (assignment sol) = Ok (num (-2)).
Proof.
  eexists. split; [vm_compute; reflexivity|].
  split; [reflexivity|]. split; [Qc_compute|]. split; Qc_compute.
Qed.

Lemma solve_solution_of_the_original_model_witness :
  ∃ sol,
    heap (fresh04 model_integer_01) !! 0 = Some model_integer_01 ∧
    (Lab04.solve 10 0 (fresh04 model_integer_01)).1 = Ok sol ∧
    s_model sol = 0 ∧
    heap (Lab04.solve 10 0 (fresh04 model_integer_01)).2 !! 0 = Some model_integer_01 ∧
    length (assignment sol) = length (variables model_integer_01) ∧
    objective_value (heap (Lab04.solve 10 0 (fresh04 model_integer_01)).2) sol
      = evaluate (o_expression (objective model_integer_01)) (assignment sol).
Proof.
  eexists. split; [reflexivity|]. split; [vm_compute; reflexivity|].
  apply (solve_solution_of_the_original_model 10 0 (fresh04 model_integer_01)
           model_integer_01); [reflexivity|vm_compute; reflexivity].
Defined.

(** C9, as stated, fails: the assignment that [solve] returns for
    integer_01 is not [0, 5]. *)
Lemma integer_01_not_0_5 :
  ¬ ∃ sol,
      (Lab04.solve 10 0 (fresh04 model_integer_01)).1 = Ok sol ∧
      assignment sol = [num 0; num 5].
Proof.
  intros (sol & Hsol & Ha).
  vm_compute in Hsol. injection Hsol as <-.
  apply (f_equal (fmap this)) in Ha. vm_compute in Ha. discriminate.
Qed.

(** C9 (as amended).  For maximize 5 x1 + 8 x2 subject to x1 + x2 <= 6 and
    5 x1 + 9 x2 <= 45, the two-phase [solve] skips Phase I (no artificial
    variable is created), stops within 3 tests of the loop condition, and
    returns the assignment [9/4, 15/4] with the objective value 165/4;
    [0, 5] with the value 40 is the basic solution after the first
    pivot. *)
Theorem integer_01_relaxation :
  let r := Lab04.solve 3 0 (fresh04 model_integer_01) in
  ∃ sol,
    r.1 = Ok sol ∧
    s_model sol = 0 ∧
    assignment sol = [frac 9 4; frac 15 4] ∧
    objective_value (heap r.2) sol = Ok (frac 165 4) ∧
    Lab04.artificial_variables (self r.2) = [] ∧
    (∀ k, Lab04.solve (3 + k) 0 (fresh04 model_integer_01) = r) ∧
    ∃ t s1 t1,
      (normal_model ← Lab04._normalize_model 0;
       phase_II_tableaux 3 normal_model) (fresh04 model_integer_01) = (Ok t, s1) ∧
      after_rounds 1 t = Some t1 ∧
      extract_solution t1 = Ok [num 0; num 5; num 1; num 0] ∧
      cost t1 = num 40.
Proof.
  eexists. split; [vm_compute; reflexivity|].
  split; [reflexivity|]. split; [Qc_compute|]. split; [Qc_compute|].
  split; [reflexivity|]. split.
  - intros k. rewrite !solve_phases.
    unfold mbind, M_bind.
    destruct (Lab04._normalize_model 0 (fresh04 model_integer_01))
      as [[normal|e] s1] eqn:En; [|done].
    assert (E2 : phase_II_tableaux (3 + k) normal s1 = phase_II_tableaux 3 normal s1).
    { vm_compute in En. injection En as <- <-.
      erewrite !phase_II_tableaux_run by reflexivity.
      by rewrite !decide_False by (vm_compute; lia). }
    rewrite E2. destruct (phase_II_tableaux 3 normal s1) as [[t|e] s2] eqn:Et; [|done].
    unfold finish, mbind, M_bind, lift.
    assert (Eo : _optimize (3 + k) t = _optimize 3 t).
    { apply optimize_fuel_mono; [done|].
      vm_compute in En. injection En as <- <-.
      vm_compute in Et. injection Et as <- <-. vm_compute. discriminate. }
    by rewrite Eo.
  - eexists _, _, _. split; [vm_compute; reflexivity|].
    split; [vm_compute; reflexivity|]. split; Qc_compute.
Qed.

(** C1: the code at the failing input.  [model_redundant] is feasible
    (x1 = 0, x2 = 2 meets both constraints).  Phase I ends with the
    artificial variable R1 (index 3) in the extracted basis at the value 0,
    no artificial variable is positive in the solution, and [solve] raises
    [Infeasible]. *)
Theorem infeasible_on_zero_artificial :
  (Lab04.solve 10 0 (fresh04 model_redundant)).1 = Err Infeasible ∧
  Forall (λ c, evaluate (c_expression c) [num 0; num 2] = Ok (bound c))
         (constraints model_redundant) ∧
  ∃ t s1 t',
    (normal_model ← Lab04._normalize_model 0;
     phase_I_tableaux normal_model) (fresh04 model_redundant) = (Ok t, s1) ∧
    index <$> (fst <$> Lab04.artificial_variables (self s1)) = [2; 3] ∧
    _optimize 10 t = Ok t' ∧
    extract_basis t' = Ok [1; 3]%Z ∧
    extract_solution t' = Ok [num 0; num 2; num 0; num 0].
Proof.
  split; [vm_compute; reflexivity|]. split.
  - repeat constructor; Qc_compute.
  - eexists _, _, _. split; [vm_compute; reflexivity|].
    split; [reflexivity|]. split; [vm_compute; reflexivity|].
    split; [vm_compute; reflexivity|]. Qc_compute.
Qed.

(** C7: the code at the failing input.  For [model_free_column] the loop
    stops after one pivot.  At that tableaux [extract_basis] returns column
    1 (x2) for the only constraint row, but the 1 of column 1 is in the cost
    row and its entry in the constraint row is 0; column 0 (x1), the unit
    vector of the constraint row, is not returned.  [solve] then returns
    x1 = 0, x2 = 4, where the optimum is x1 = 4, x2 = 0. *)
Theorem extract_basis_cost_row_column :
  ∃ t s1 t',
    (normal_model ← Lab04._normalize_model 0;
     phase_II_tableaux 10 normal_model) (fresh04 model_free_column) = (Ok t, s1) ∧
    after_rounds 1 t = Some t' ∧
    _optimize 10 t = Ok t' ∧
    extract_basis t' = Ok [1]%Z ∧
    column (table t') 1 = [num 1; num 0] ∧
    column (table t') 0 = [num 0; num 1] ∧
    ∃ sol,
      (Lab04.solve 10 0 (fresh04 model_free_column)).1 = Ok sol ∧
      assignment sol = [num 0; num 4].
Proof.
  eexists _, _, _. split; [vm_compute; reflexivity|].
  split; [vm_compute; reflexivity|]. split; [vm_compute; reflexivity|].
  split; [vm_compute; reflexivity|]. split; [Qc_compute|]. split; [Qc_compute|].
  eexists. split; [vm_compute; reflexivity|]. Qc_compute.
Qed.


(** ** [extract_basis] returns, and what it returns *)

Lemma where_one_lookup column i :
  i ∈ where_one column ↔ column !! i = Some 1%Qc.
Proof.
  revert i. induction column as [|v column IH]; intros i; simpl.
  - split; [by intros ?%elem_of_nil|done].
  - rewrite elem_of_app, list_elem_of_fmap. split.
    + intros [Hi|(j & -> & Hj)].
      * case_decide; [|by apply elem_of_nil in Hi].
        apply list_elem_of_singleton in Hi as ->. simpl. by f_equal.
      * simpl. by apply IH.
    + destruct i as [|i]; simpl.
      * intros [= ->]. left. rewrite decide_True by done. by left.
      * intros Hi. right. exists i. split; [done|]. by apply IH.
Qed.

Lemma where_one_head column i :
  where_one column !! 0 = Some i → column !! i = Some 1%Qc.
Proof. intros H. apply where_one_lookup. by eapply list_elem_of_lookup_2. Qed.

Lemma fold_left_Qc_max_elem l x : fold_left Qc_max l x ∈ x :: l.
Proof.
  revert x. induction l as [|y l IH]; intros x; simpl; [by left|].
  specialize (IH (Qc_max x y)). apply elem_of_cons in IH as [->|IH].
  - unfold Qc_max. case_decide; [right; left|left].
  - by do 2 right.
Qed.

Lemma belongs_to_basis_one column :
  belongs_to_basis column = true →
  2 ≤ length column ∧ ∃ row, where_one column !! 0 = Some row ∧ row < length column.
Proof.
  unfold belongs_to_basis. rewrite !andb_true_iff, !bool_decide_eq_true.
  intros [[Hmin Hmax] _]. split.
  - destruct column as [|x [|y column]]; simpl in *; [done| |lia].
    injection Hmin as ->. by injection Hmax.
  - assert (Hin : 1%Qc ∈ column).
    { destruct column as [|x column]; [done|]. simpl in Hmax.
      injection Hmax as <-. apply fold_left_Qc_max_elem. }
    apply list_elem_of_lookup in Hin as [i Hi].
    apply where_one_lookup in Hi.
    destruct (where_one column) as [|row rest] eqn:E; [by apply elem_of_nil in Hi|].
    exists row. split; [done|].
    assert (Hrow : column !! row = Some 1%Qc)
      by (apply where_one_lookup; rewrite E; left).
    by eapply lookup_lt_Some.
Qed.

(** [extract_basis] never raises; the list has one entry per constraint
    row, and an entry is -1 or a column that passes [belongs_to_basis]. *)
Lemma extract_basis_spec t :
  ∃ basis,
    extract_basis t = Ok basis ∧
    length basis = nrows (table t) - 1 ∧
    ∀ c, c ∈ basis →
      c = (-1)%Z ∨
      ∃ k, c = Z.of_nat k ∧ k < ncols (table t) - 1 ∧
           belongs_to_basis (column (table t) k) = true.
Proof.
  unfold extract_basis.
  set (step := λ (acc : result (list Z)) (c : nat), _).
  assert (H : ∀ cols init,
    length init = nrows (table t) - 1 →
    (∀ c, c ∈ init → c = (-1)%Z ∨
       ∃ k, c = Z.of_nat k ∧ k < ncols (table t) - 1 ∧
            belongs_to_basis (column (table t) k) = true) →
    Forall (λ k, k < ncols (table t) - 1) cols →
    ∃ basis, foldl step (Ok init) cols = Ok basis ∧
      length basis = nrows (table t) - 1 ∧
      ∀ c, c ∈ basis → c = (-1)%Z ∨
        ∃ k, c = Z.of_nat k ∧ k < ncols (table t) - 1 ∧
             belongs_to_basis (column (table t) k) = true).
  { induction cols as [|c cols IH]; intros init Hlen Hinit Hcols.
    - by exists init.
    - inversion Hcols as [|?? Hc Hcols']; subst.
      assert (Hstep : ∃ init',
        step (Ok init) c = Ok init' ∧
        length init' = nrows (table t) - 1 ∧
        ∀ x, x ∈ init' → x = (-1)%Z ∨
          ∃ k, x = Z.of_nat k ∧ k < ncols (table t) - 1 ∧
               belongs_to_basis (column (table t) k) = true).
      { unfold step. simpl.
        destruct (belongs_to_basis (column (table t) c)) eqn:Hb; [|by exists init].
        destruct (belongs_to_basis_one _ Hb) as (H2 & row & Hrow & Hlt).
        rewrite Hrow. simpl.
        assert (Hn : length (column (table t) c) = nrows (table t))
          by (unfold column, nrows; by rewrite length_fmap).
        unfold py_setitem, py_index. rewrite Hlen.
        assert (Hnew : ∀ k, ∀ x, x ∈ <[k := Z.of_nat c]> init →
                  x = (-1)%Z ∨ ∃ k', x = Z.of_nat k' ∧ k' < ncols (table t) - 1 ∧
                    belongs_to_basis (column (table t) k') = true).
        { intros k x Hx. apply list_elem_of_lookup in Hx as [j Hj].
          destruct (decide (j = k)) as [->|Hne].
          - destruct (decide (k < length init)) as [Hk|Hk].
            + rewrite list_lookup_insert_eq in Hj by done. injection Hj as <-.
              right. by exists c.
            + rewrite list_insert_ge in Hj by lia.
              apply Hinit. by eapply list_elem_of_lookup_2.
          - rewrite list_lookup_insert_ne in Hj by done.
            apply Hinit. by eapply list_elem_of_lookup_2. }
        destruct (decide (0 ≤ Z.of_nat row - 1 < Z.of_nat (nrows (table t) - 1))%Z).
        + eexists. split; [done|]. split; [by rewrite length_insert|apply Hnew].
        + rewrite decide_True by lia.
          eexists. split; [done|]. split; [by rewrite length_insert|apply Hnew]. }
      destruct Hstep as (init' & Hstep & Hlen' & Hinit').
      change (foldl step (Ok init) (c :: cols))
        with (foldl step (step (Ok init) c) cols).
      rewrite Hstep. by apply IH. }
  apply H.
  - by rewrite length_replicate.
  - intros c Hc. left. by apply elem_of_replicate in Hc as [-> _].
  - apply Forall_forall. intros k Hk. apply elem_of_seq in Hk. lia.
Qed.

(** A column of the extracted basis holds a 1: [find_variable_value] finds
    its value. *)
Lemma find_variable_value_basis t basis k :
  extract_basis t = Ok basis → Z.of_nat k ∈ basis →
  is_Some (find_variable_value (column (table t) k) (rhs_column (table t))).
Proof.
  intros Hb Hk. destruct (extract_basis_spec t) as (basis' & Hb' & _ & Hall).
  rewrite Hb in Hb'. injection Hb' as <-.
  destruct (Hall _ Hk) as [?|(k' & Hk' & _ & Hbel)]; [lia|].
  apply Nat2Z.inj in Hk' as <-.
  destruct (belongs_to_basis_one _ Hbel) as (_ & row & Hrow & Hlt).
  unfold find_variable_value. rewrite Hrow. simpl.
  apply lookup_lt_is_Some. unfold rhs_column, column in *.
  by rewrite length_fmap in *.
Qed.


(** * More of the code

    ** [extract_basis] and [extract_solution] (lab03, lines 140-168) *)


Lemma rhs_column_lookup tb r :
  wf_table tb → r < nrows tb → rhs_column tb !! r = Some (rhs tb r).
Proof.
  intros Hwf Hr. unfold rhs_column, rhs, cell.
  destruct (lookup_lt_is_Some_2 tb r Hr) as [row Hrow].
  rewrite list_lookup_fmap, Hrow. simpl.
  rewrite last_lookup, (wf_table_row _ _ _ Hwf Hrow).
  by replace (pred (ncols tb)) with (ncols tb - 1) by lia.
Qed.

Lemma column_lookup tb c r :
  r < nrows tb → column tb c !! r = Some (cell tb r c).
Proof.
  intros Hr. unfold column, cell.
  destruct (lookup_lt_is_Some_2 tb r Hr) as [row Hrow].
  by rewrite list_lookup_fmap, Hrow.
Qed.

Lemma where_one_first column i :
  where_one column !! 0 = Some i →
  column !! i = Some 1%Qc ∧ ∀ j, j < i → column !! j ≠ Some 1%Qc.
Proof.
  revert i. induction column as [|v column IH]; intros i; simpl; [done|].
  case_decide as Hv; simpl.
  - intros [= <-]. split; [by rewrite Hv|]. lia.
  - rewrite list_lookup_fmap.
    destruct (where_one column !! 0) as [k|] eqn:E; [|done].
    intros [= <-]. destruct (IH k eq_refl) as [Hk Hfirst]. split; [done|].
    intros [|j] Hj; simpl; [congruence|]. apply Hfirst. lia.
Qed.



(** ** [pivot] and the columns of the basis (lab03, lines 127-138) *)

Lemma pivot_inv t row col t' :
  pivot t row col = Ok t' →
  row < nrows (table t) ∧ col < ncols (table t) ∧
  cell (table t) row col ≠ 0%Qc ∧
  t' = mkTableaux (t_model t)
         (imap (λ r old_row,
                  imap (λ c _, pivot_cell (table t) row col r c) old_row)
               (table t)).
Proof.
  unfold pivot. case_decide as Hin; [|done]. case_decide as Hp; [done|].
  intros [= <-]. by destruct Hin.
Qed.

Lemma pivot_cell_zero_in_row tb row col r c :
  c ≠ col → cell tb row c = 0%Qc → pivot_cell tb row col r c = cell tb r c.
Proof.
  intros Hc Hz. unfold pivot_cell. rewrite decide_False by done.
  rewrite Hz. case_decide as Hr.
  - subst r. rewrite Hz. unfold Qcdiv. ring.
  - simpl. unfold Qcdiv. ring.
Qed.

(** X3.  [pivot(row, col)] on a constraint row makes the column [col] the
    unit vector of that row, and leaves as it is every other column whose
    entry in the pivot row is 0: a column that was the unit vector of another
    constraint row still is, with the same entry in the cost row. *)
Theorem pivot_keeps_unit_columns (t t' : Tableaux) (row col : nat) :
  wf_table (table t) → 1 ≤ row →
  pivot t row col = Ok t' →
  unit_column (table t') col row ∧
  (∀ c, c < ncols (table t) → c ≠ col → cell (table t) row c = 0%Qc →
        column (table t') c = column (table t) c) ∧
  (∀ c r, c < ncols (table t) → c ≠ col → r ≠ row →
          unit_column (table t) c r →
          unit_column (table t') c r ∧ cell (table t') 0 c = cell (table t) 0 c).
Proof.
  intros Hwf Hrow Hpiv.
  destruct (pivot_inv _ _ _ _ Hpiv) as (Hr & Hc & Hp & ->). simpl.
  destruct (pivot_table_shape (table t) row col Hwf) as (Hn & Hm & Hwf').
  assert (Hcol : ∀ c, c < ncols (table t) → c ≠ col → cell (table t) row c = 0%Qc →
            ∀ r, r < nrows (table t) →
              cell (imap (λ r old_row,
                            imap (λ c _, pivot_cell (table t) row col r c) old_row)
                         (table t)) r c = cell (table t) r c).
  { intros c Hc' Hne Hz r Hr'. rewrite pivot_table_cell by done.
    by apply pivot_cell_zero_in_row. }
  split; [|split].
  - split; [rewrite Hn; lia|]. intros r' Hr'. rewrite Hn in Hr'.
    rewrite pivot_table_cell by (done || lia). unfold pivot_cell.
    rewrite decide_True by done. done.
  - intros c Hc' Hne Hz. apply list_eq. intros r.
    destruct (decide (r < nrows (table t))) as [Hr'|Hr'].
    + rewrite !column_lookup by (done || lia). f_equal. by apply Hcol.
    + rewrite !lookup_ge_None_2; [done|..];
        unfold column; rewrite length_fmap; fold (nrows (table t)) in *;
        unfold nrows in *; try rewrite length_imap; lia.
  - intros c r Hc' Hne Hrne [Hr' Hunit].
    assert (Hz : cell (table t) row c = 0%Qc).
    { rewrite Hunit by lia. by rewrite decide_False. }
    split; [split|].
    + rewrite Hn. lia.
    + intros r' Hr''. rewrite Hn in Hr''. rewrite Hcol by (done || lia).
      by apply Hunit.
    + apply Hcol; try done. destruct Hwf. lia.
Qed.

Lemma pivot_keeps_unit_columns_witness :
  let t := mkTableaux 0 (initial_table model_integer_01) in
  ∃ t',
    wf_table (table t) ∧ 1 ≤ 2 ∧ pivot t 2 1 = Ok t' ∧
    unit_column (table t') 1 2 ∧
    (∀ c, c < ncols (table t) → c ≠ 1 → cell (table t) 2 c = 0%Qc →
          column (table t') c = column (table t) c) ∧
    (∀ c r, c < ncols (table t) → c ≠ 1 → r ≠ 2 →
            unit_column (table t) c r →
            unit_column (table t') c r ∧ cell (table t') 0 c = cell (table t) 0 c).
Proof.
  intros t.
  assert (Hwf : wf_table (table t)).
  { split; [vm_compute; lia|]. split; [vm_compute; lia|].
    vm_compute. repeat constructor. }
  eexists. split; [exact Hwf|]. split; [lia|].
  assert (Hp : pivot t 2 1 = Ok ?[t']) by (vm_compute; reflexivity).
  split; [exact Hp|].
  exact (pivot_keeps_unit_columns t _ 2 1 Hwf (le_S _ _ (le_n 1)) Hp).
Defined.

(** ** Quotients of rationals *)

Lemma Qc_div_mult (x a : Qc) : a ≠ 0%Qc → (x / a * a = x)%Qc.
Proof. intros Ha. field. exact Ha. Qed.

Lemma Qc_div_nonneg (x a : Qc) : (0 ≤ x → 0 < a → 0 ≤ x / a)%Qc.
Proof.
  intros Hx Ha. apply Qcmult_lt_0_le_reg_r with a; [done|].
  rewrite Qcmult_0_l, Qc_div_mult; [done|].
  intros ->. by apply Qclt_not_eq in Ha.
Qed.

Lemma Qc_sub_nonneg (x y : Qc) : (y ≤ x → 0 ≤ x + - y)%Qc.
Proof. intros H. by apply (proj1 (Qcle_minus_iff y x)). Qed.

(** ** When the two choices raise (lab03, lines 104-125) *)

Lemma py_min_all_PInf l :
  l ≠ [] → Forall (λ x, x = PInf) l → py_min l = Some PInf.
Proof.
  destruct l as [|x l]; [done|]. intros _ Hall. simpl. f_equal.
  inversion Hall as [|?? -> Hl]; subst. clear Hall.
  induction l as [|y l IH]; simpl; [done|].
  inversion Hl as [|?? -> Hl']; subst. simpl. by apply IH.
Qed.

(** X6.  [choose_entering_variable] does not test the sign of the factors.
    With no variable column it raises ValueError; when every cost factor is
    0 it raises IndexError; otherwise it returns the first column that holds
    the smallest factor that is not 0, also when that factor is positive. *)
Theorem choose_entering_variable_cases (t : Tableaux) :
  (cost_factors t = [] → choose_entering_variable t = Err ValueError) ∧
  (cost_factors t ≠ [] → Forall (λ f, f = 0%Qc) (cost_factors t) →
   choose_entering_variable t = Err IndexError) ∧
  (Exists (λ f, f ≠ 0%Qc) (cost_factors t) →
   ∃ j cj,
     choose_entering_variable t = Ok j ∧
     cost_factors t !! j = Some cj ∧ cj ≠ 0%Qc ∧
     (∀ k ck, cost_factors t !! k = Some ck → ck ≠ 0%Qc → (cj ≤ ck)%Qc) ∧
     (∀ k ck, k < j → cost_factors t !! k = Some ck → ck ≠ cj)).
Proof.
  unfold choose_entering_variable.
  set (fwz := without_zero <$> cost_factors t).
  split; [|split].
  - intros E. unfold fwz. by rewrite E.
  - intros Hne Hall.
    rewrite (py_min_all_PInf fwz); [done| |].
    + unfold fwz. by destruct (cost_factors t).
    + apply Forall_fmap. eapply Forall_impl; [exact Hall|].
      intros f Hf. simpl. unfold without_zero.
      by destruct (decide (f ≠ 0%Qc)).
  - intros Hex. apply Exists_exists in Hex as (f & Hf & Hf0).
    assert (Hnan : Forall (λ x, x ≠ NaN) fwz) by apply Forall_without_zero.
    assert (Hfin : Fin f ∈ fwz).
    { apply list_elem_of_fmap. exists f. split; [|done].
      unfold without_zero. by rewrite decide_True. }
    destruct (py_min_is_Some fwz) as [m Hm].
    { intros E. rewrite E in Hfin. by apply elem_of_nil in Hfin. }
    rewrite Hm. simpl.
    destruct (py_min_spec fwz m Hnan Hm) as [Hin Hle].
    assert (Hmf := Hle _ Hfin).
    destruct m as [c| | |]; try done;
      try (apply list_elem_of_fmap in Hin as (v & Hv & _);
           unfold without_zero in Hv; by destruct (decide (v ≠ 0%Qc))).
    destruct (index_of_is_Some (Fin c) fwz Hin) as [j Hj]; [done|].
    rewrite Hj. simpl.
    destruct (index_of_spec (Fin c) fwz j) as [Hlook Hfirst]; [done..|].
    unfold fwz in Hlook. rewrite list_lookup_fmap in Hlook.
    destruct (cost_factors t !! j) as [cj|] eqn:Ecj; [|done].
    simpl in Hlook. injection Hlook as Hlook.
    apply without_zero_Fin in Hlook as [-> Hc0].
    exists j, c. split_and!; try done.
    + intros k ck Hk Hck0.
      assert (Hkin : without_zero ck ∈ fwz).
      { apply list_elem_of_fmap. exists ck. split; [done|].
        by eapply list_elem_of_lookup_2. }
      apply Hle in Hkin. unfold without_zero in Hkin.
      rewrite decide_True in Hkin by done.
      unfold float_le in Hkin. simpl in Hkin.
      apply bool_decide_eq_false in Hkin. by apply Qcnot_lt_le.
    + intros k ck Hk Hck ->.
      eapply (Hfirst k (without_zero c)); [done| |].
      * unfold fwz. by rewrite list_lookup_fmap, Hck.
      * unfold without_zero. by rewrite decide_True.
Qed.

Lemma choose_entering_variable_cases_witness :
  let t := mkTableaux 0 [[num 3; num 0; num 2; num 7]] in
  Exists (λ f, f ≠ 0%Qc) (cost_factors t) ∧
  is_optimal t = true ∧
  ∃ j cj,
    choose_entering_variable t = Ok j ∧
    cost_factors t !! j = Some cj ∧ cj ≠ 0%Qc ∧
    (∀ k ck, cost_factors t !! k = Some ck → ck ≠ 0%Qc → (cj ≤ ck)%Qc) ∧
    (∀ k ck, k < j → cost_factors t !! k = Some ck → ck ≠ cj).
Proof.
  intros t.
  assert (Hex : Exists (λ f, f ≠ 0%Qc) (cost_factors t)).
  { apply Exists_cons_hd. vm_compute. discriminate. }
  split; [exact Hex|]. split; [reflexivity|].
  exact (proj2 (proj2 (choose_entering_variable_cases t)) Hex).
Defined.

Lemma nonneg_or_inf_not_nan x : nonneg_or_inf x ≠ NaN.
Proof. unfold nonneg_or_inf. by destruct x; simpl; try case_bool_decide. Qed.

(** X7.  [choose_leaving_variable] raises IndexError for a column outside
    the tableaux.  For a column of the tableaux it raises ValueError exactly
    when the tableaux has no constraint row; otherwise it returns a
    constraint row, also when no row qualifies: when every ratio counts as
    +infinity it returns row 1. *)
Theorem choose_leaving_variable_cases (t : Tableaux) (col : nat) :
  (ncols (table t) ≤ col → choose_leaving_variable t col = Err IndexError) ∧
  (col < ncols (table t) → nrows (table t) ≤ 1 →
   choose_leaving_variable t col = Err ValueError) ∧
  (col < ncols (table t) → 1 < nrows (table t) →
   ∃ row, choose_leaving_variable t col = Ok row ∧ 1 ≤ row < nrows (table t)) ∧
  (col < ncols (table t) → 1 < nrows (table t) →
   Forall (λ x, x = PInf) (leaving_ratios t col) →
   choose_leaving_variable t col = Ok 1).
Proof.
  unfold choose_leaving_variable.
  split; [intros Hcol; rewrite decide_False; [done|lia]|].
  pose proof (leaving_ratios_length t col) as Hlen.
  set (result := leaving_ratios t col) in *.
  assert (Hnan : Forall (λ x, x ≠ NaN) result).
  { unfold result, leaving_ratios. apply Forall_fmap, Forall_forall.
    intros x _. apply nonneg_or_inf_not_nan. }
  split; [|split].
  - intros Hcol Hn. rewrite decide_True by done.
    destruct result; [done|]. simpl in Hlen. lia.
  - intros Hcol Hn. rewrite decide_True by done.
    destruct (py_min_is_Some result) as [m Hm].
    { intros E. rewrite E in Hlen. simpl in Hlen. lia. }
    rewrite Hm. simpl.
    destruct (py_min_spec result m Hnan Hm) as [Hin _].
    assert (Hmn : m ≠ NaN) by (rewrite Forall_forall in Hnan; by apply Hnan).
    destruct (index_of_is_Some m result Hin Hmn) as [i Hi].
    rewrite Hi. simpl. exists (i + 1). split; [done|].
    destruct (index_of_spec m result i Hmn Hi) as [Hmi _].
    apply lookup_lt_Some in Hmi. lia.
  - intros Hcol Hn Hall. rewrite decide_True by done. clearbody result.
    rewrite (py_min_all_PInf result); [|intros ->; simpl in Hlen; lia|done].
    simpl. destruct result as [|x result']; [simpl in Hlen; lia|].
    inversion Hall as [|?? -> _]; subst. done.
Qed.

Lemma choose_leaving_variable_cases_witness :
  let t0 := mkTableaux 0 [[num (-1); num 0]] in
  let t1 := mkTableaux 0 [[num (-1); num 0]; [num (-1); num 5]] in
  (ncols (table tableaux_degenerate) ≤ 7 ∧
   choose_leaving_variable tableaux_degenerate 7 = Err IndexError) ∧
  (0 < ncols (table t0) ∧ nrows (table t0) ≤ 1 ∧
   choose_leaving_variable t0 0 = Err ValueError) ∧
  (0 < ncols (table tableaux_degenerate) ∧
   1 < nrows (table tableaux_degenerate) ∧
   ∃ row, choose_leaving_variable tableaux_degenerate 0 = Ok row ∧
          1 ≤ row < nrows (table tableaux_degenerate)) ∧
  (0 < ncols (table t1) ∧ 1 < nrows (table t1) ∧
   Forall (λ x, x = PInf) (leaving_ratios t1 0) ∧
   choose_leaving_variable t1 0 = Ok 1).
Proof.
  intros t0 t1.
  assert (H7 : ncols (table tableaux_degenerate) ≤ 7) by (vm_compute; lia).
  assert (Hc0 : 0 < ncols (table t0)) by (vm_compute; lia).
  assert (Hr0 : nrows (table t0) ≤ 1) by (vm_compute; lia).
  assert (Hcd : 0 < ncols (table tableaux_degenerate)) by (vm_compute; lia).
  assert (Hrd : 1 < nrows (table tableaux_degenerate)) by (vm_compute; lia).
  assert (Hc1 : 0 < ncols (table t1)) by (vm_compute; lia).
  assert (Hr1 : 1 < nrows (table t1)) by (vm_compute; lia).
  assert (Hinf : Forall (λ x, x = PInf) (leaving_ratios t1 0))
    by (vm_compute; repeat constructor).
  split; [|split; [|split]].
  - split; [exact H7|].
    exact (proj1 (choose_leaving_variable_cases tableaux_degenerate 7) H7).
  - split; [exact Hc0|]. split; [exact Hr0|].
    exact (proj1 (proj2 (choose_leaving_variable_cases t0 0)) Hc0 Hr0).
  - split; [exact Hcd|]. split; [exact Hrd|].
    exact (proj1 (proj2 (proj2 (choose_leaving_variable_cases tableaux_degenerate 0)))
             Hcd Hrd).
  - split; [exact Hc1|]. split; [exact Hr1|]. split; [exact Hinf|].
    exact (proj2 (proj2 (proj2 (choose_leaving_variable_cases t1 0))) Hc1 Hr1 Hinf).
Defined.

(** ** What the normalization of lab04 produces (lines 72-116) *)

Lemma add_variables_run_eq select prefix combine (h : list Model) (m : Model) f :
  Lab04.add_variables select prefix combine (length h) (mkState (h ++ [m]) f)
  = (Ok (Lab04.add_variable_rounds select prefix combine m).2,
     mkState (h ++ [(Lab04.add_variable_rounds select prefix combine m).1]) f).
Proof.
  unfold Lab04.add_variables, mbind, M_bind.
  rewrite get_model_last.
  destruct (Lab04.add_variable_rounds select prefix combine m) as [m' vars].
  by rewrite set_model_last.
Qed.

Lemma normalize_model_normalized model (s : Lab04.St) (m : Model) :
  heap s !! model = Some m →
  Lab04._normalize_model model s =
    (Ok (length (heap s)),
     mkState (heap s ++ [(normalized m).1.1])
             (Lab04.mkSolver (normalized m).1.2 (normalized m).2
                (Lab04.artificial_variables (self s)))).
Proof.
  intros Hm. unfold Lab04._normalize_model, normalized.
  rewrite (bind_run_Ok _ _ _ _ _ (deepcopy_run model s m Hm)).
  set (h := heap s).
  set (m1 := if decide (o_type (objective m) = MIN)
             then set_objective (objective_invert (objective m)) m else m).
  assert (H1 : Lab04._change_objective_to_max (length h) (mkState (h ++ [m]) (self s))
               = (Ok (), mkState (h ++ [m1]) (self s))).
  { unfold Lab04._change_objective_to_max, mbind, M_bind, m1.
    rewrite get_model_last. case_decide; [by rewrite set_model_last|done]. }
  rewrite (bind_run_Ok _ _ _ _ _ H1).
  set (m2 := mkModel (variables m1) _ (objective m1)).
  assert (H2 : Lab04._change_constraints_bounds_to_nonnegative (length h)
                 (mkState (h ++ [m1]) (self s))
               = (Ok (), mkState (h ++ [m2]) (self s))).
  { unfold Lab04._change_constraints_bounds_to_nonnegative, mbind, M_bind.
    by rewrite get_model_last, set_model_last. }
  rewrite (bind_run_Ok _ _ _ _ _ H2).
  unfold Lab04._add_slack_variables, Lab04._add_surplus_variables.
  rewrite (bind_run_Ok _ _ _ _ _ (add_variables_run_eq _ _ _ h m2 (self s))).
  unfold mbind at 1, M_bind at 1, get_self at 1.
  unfold mbind at 1, M_bind at 1, set_self at 1. simpl.
  destruct (Lab04.add_variable_rounds _ "s" _ m2) as [m3 slack]. simpl.
  rewrite (bind_run_Ok _ _ _ _ _ (add_variables_run_eq _ _ _ h m3 _)).
  by destruct (Lab04.add_variable_rounds _ "s" _ m3) as [m4 surplus].
Qed.

(** The rounds of [add_variable_round] leave the bounds, the types and the
    objective as they are, and append one variable per entry of the dict. *)
Lemma add_variable_round_keeps select prefix combine idxs :
  ∀ m vars m' vars',
    foldl (Lab04.add_variable_round select prefix combine) (m, vars) idxs = (m', vars') →
    Forall (λ p, index p.1 < length (variables m)) vars →
    bound <$> constraints m' = bound <$> constraints m ∧
    c_type <$> constraints m' = c_type <$> constraints m ∧
    objective m' = objective m ∧
    variables m `prefix_of` variables m' ∧
    Forall (λ p, index p.1 < length (variables m')) vars' ∧
    length (variables m') + length vars = length (variables m) + length vars'.
Proof.
  induction idxs as [|i idxs IH]; intros m vars m' vars'; simpl.
  - intros [= <- <-] Hvars. by split_and!.
  - destruct (constraints m !! i) as [c|] eqn:Hc; [|apply IH].
    destruct (select (c_type c)); [|apply IH].
    intros Hfold Hvars.
    set (v := mkVariable (length (variables m)) (fstring prefix i)) in *.
    apply IH in Hfold as (Hb & Hty & Hobj & Hpre & Hvars' & Hlen).
    + simpl in *. rewrite !list_fmap_insert in *. simpl in *.
      rewrite list_insert_id in Hb by (by rewrite list_lookup_fmap, Hc).
      rewrite list_insert_id in Hty by (by rewrite list_lookup_fmap, Hc).
      split_and!; try done.
      * etrans; [|exact Hpre]. by apply prefix_app_r.
      * rewrite length_app in Hlen. simpl in Hlen.
        assert (Hfresh : length (dict_set v i vars) = S (length vars)).
        { clear -Hvars. unfold v.
          induction vars as [|[k x] vars IHv]; simpl; [done|].
          inversion Hvars as [|?? Hk Hrest]; subst. simpl in Hk.
          rewrite decide_False.
          - simpl. f_equal. by apply IHv.
          - intros ->. simpl in Hk. lia. }
        lia.
    + simpl. rewrite length_app. simpl.
      clear -Hvars. induction vars as [|[k x] vars IHv]; simpl.
      { constructor; [simpl; lia|constructor]. }
      inversion Hvars as [|?? Hk Hrest]; subst. simpl in Hk.
      case_decide.
      * constructor; [simpl; lia|].
        eapply Forall_impl; [exact Hrest|]. intros; simpl in *; lia.
      * constructor; [simpl; lia|]. by apply IHv.
Qed.

Lemma Qc_abs_nonneg x : (0 ≤ Qc_abs x)%Qc.
Proof.
  unfold Qc_abs. case_decide as H; [done|].
  apply Qcnot_le_lt in H. rewrite <- (Qcopp_involutive 0).
  apply Qcopp_le_compat. replace (- 0)%Qc with 0%Qc by ring.
  by apply Qclt_le_weak.
Qed.

Lemma bound_after_flip c :
  bound (if decide (bound c < 0)%Qc then constraint_invert c else c)
  = Qc_abs (bound c).
Proof.
  unfold Qc_abs. destruct (decide (bound c < 0)%Qc) as [H|H]; simpl.
  - rewrite decide_False; [done|]. by apply Qclt_not_le.
  - rewrite decide_True; [done|]. by apply Qcnot_lt_le.
Qed.

Lemma filter_fmap_length {A B} (f : A → B) (P : B → Prop)
    `{∀ y, Decision (P y)} (l : list A) :
  length (filter P (f <$> l)) = length (filter (λ x, P (f x)) l).
Proof.
  induction l as [|x l IH]; [done|].
  rewrite fmap_cons, !filter_cons.
  destruct (decide (P (f x))); simpl; by rewrite IH.
Qed.

(** The contents of the normalized model and of the two dicts. *)
Lemma normalized_spec (m nm : Model) (slack surplus : list (Var * nat)) :
  normalized m = (nm, slack, surplus) →
  o_type (objective nm) = MAX ∧
  o_expression (objective nm)
    = (if decide (o_type (objective m) = MIN)
       then expr_neg (o_expression (objective m))
       else o_expression (objective m)) ∧
  bound <$> constraints nm = (λ c, Qc_abs (bound c)) <$> constraints m ∧
  c_type <$> constraints nm
    = (λ c, if decide (bound c < 0)%Qc then flip_type (c_type c) else c_type c)
        <$> constraints m ∧
  Forall (λ c, 0 ≤ bound c)%Qc (constraints nm) ∧
  variables m `prefix_of` variables nm ∧
  length (variables nm) = length (variables m) + length slack + length surplus ∧
  length slack = length (filter (λ c, c_type c = LE) (constraints nm)) ∧
  length surplus = length (filter (λ c, c_type c = GE) (constraints nm)).
Proof.
  unfold normalized.
  set (m1 := if decide (o_type (objective m) = MIN)
             then set_objective (objective_invert (objective m)) m else m).
  set (m2 := mkModel (variables m1) _ (objective m1)).
  destruct (add_variable_rounds_spec (λ ty, bool_decide (ty = LE)) "s"
              (λ e slack_var, expr_add e (expr_of_var slack_var)) m2)
    as (m3 & slack3 & E3 & _ & Hlen3).
  rewrite E3.
  destruct (add_variable_rounds_spec (λ ty, bool_decide (ty = GE)) "s"
              (λ e v, expr_sub e (expr_of_var v)) m3)
    as (m4 & surplus4 & E4 & _ & Hlen4).
  rewrite E4. intros [= <- <- <-].
  unfold Lab04.add_variable_rounds in E3, E4.
  apply add_variable_round_keeps in E3 as (Hb3 & Hty3 & Hobj3 & Hpre3 & _ & Hn3);
    [|constructor].
  apply add_variable_round_keeps in E4 as (Hb4 & Hty4 & Hobj4 & Hpre4 & _ & Hn4);
    [|constructor].
  simpl in Hn3, Hn4.
  assert (Hvars1 : variables m1 = variables m) by (unfold m1; by case_decide).
  assert (Hcons1 : constraints m1 = constraints m) by (unfold m1; by case_decide).
  assert (Hb : bound <$> constraints m4 = (λ c, Qc_abs (bound c)) <$> constraints m).
  { rewrite Hb4, Hb3. unfold m2. simpl. rewrite Hcons1, <- list_fmap_compose.
    apply list_fmap_ext. intros i c _. simpl. apply bound_after_flip. }
  split_and!.
  - rewrite Hobj4, Hobj3. unfold m2, m1. simpl.
    case_decide as Ho; simpl; [by rewrite Ho|]. by destruct (o_type (objective m)).
  - rewrite Hobj4, Hobj3. unfold m2, m1. simpl. by case_decide.
  - exact Hb.
  - rewrite Hty4, Hty3. unfold m2. simpl. rewrite Hcons1, <- list_fmap_compose.
    apply list_fmap_ext. intros i c _. simpl.
    by case_decide.
  - apply Forall_forall. intros c Hc.
    assert (Hin : bound c ∈ bound <$> constraints m4)
      by (apply list_elem_of_fmap; eauto).
    rewrite Hb in Hin. apply list_elem_of_fmap in Hin as (c0 & -> & _).
    apply Qc_abs_nonneg.
  - etrans; [|exact Hpre4]. etrans; [|exact Hpre3]. unfold m2. simpl.
    by rewrite Hvars1.
  - unfold m2 in Hn3. simpl in Hn3. rewrite Hvars1 in Hn3. lia.
  - rewrite Hlen3, <- Hty3, <- Hty4.
    rewrite (filter_fmap_length c_type (λ ty, bool_decide (ty = LE) = true)).
    f_equal. apply list_filter_iff. intros c. by rewrite bool_decide_eq_true.
  - rewrite Hlen4, <- Hty4.
    rewrite (filter_fmap_length c_type (λ ty, bool_decide (ty = GE) = true)).
    f_equal. apply list_filter_iff. intros c. by rewrite bool_decide_eq_true.
Qed.

(** X8.  [_normalize_model] (lab04) returns a new object and sets the two
    dicts.  In the normalized model the objective is a maximization (the
    expression negated when the caller minimizes); the constraints are the
    caller's, in order, each with the absolute value of its bound and its
    relation flipped when the bound was negative, so no bound is negative;
    the caller's variables come first, followed by one slack variable per <=
    constraint and one surplus variable per >= constraint. *)
Theorem normalize_model_result (model : loc) (s : Lab04.St) (m : Model) :
  heap s !! model = Some m →
  ∃ normal_model s1 nm,
    Lab04._normalize_model model s = (Ok normal_model, s1) ∧
    normal_model = length (heap s) ∧
    heap s1 !! normal_model = Some nm ∧
    o_type (objective nm) = MAX ∧
    o_expression (objective nm)
      = (if decide (o_type (objective m) = MIN)
         then expr_neg (o_expression (objective m))
         else o_expression (objective m)) ∧
    bound <$> constraints nm = (λ c, Qc_abs (bound c)) <$> constraints m ∧
    c_type <$> constraints nm
      = (λ c, if decide (bound c < 0)%Qc then flip_type (c_type c) else c_type c)
          <$> constraints m ∧
    Forall (λ c, 0 ≤ bound c)%Qc (constraints nm) ∧
    variables m `prefix_of` variables nm ∧
    length (variables nm)
      = length (variables m)
        + length (Lab04.slack_variables (self s1))
        + length (Lab04.surplus_variables (self s1)) ∧
    length (Lab04.slack_variables (self s1))
      = length (filter (λ c, c_type c = LE) (constraints nm)) ∧
    length (Lab04.surplus_variables (self s1))
      = length (filter (λ c, c_type c = GE) (constraints nm)).
Proof.
  intros Hm. destruct (normalized m) as [[nm slack] surplus] eqn:E.
  pose proof (normalize_model_normalized model s m Hm) as Hrun.
  rewrite E in Hrun. simpl in Hrun.
  eexists _, _, _. split; [exact Hrun|]. split; [done|]. simpl.
  split; [by apply list_lookup_middle|].
  exact (normalized_spec m nm slack surplus E).
Qed.

Lemma normalize_model_result_witness :
  heap (fresh04 model_redundant) !! 0 = Some model_redundant ∧
  ∃ normal_model s1 nm,
    Lab04._normalize_model 0 (fresh04 model_redundant) = (Ok normal_model, s1) ∧
    normal_model = length (heap (fresh04 model_redundant)) ∧
    heap s1 !! normal_model = Some nm ∧
    o_type (objective nm) = MAX ∧
    o_expression (objective nm)
      = (if decide (o_type (objective model_redundant) = MIN)
         then expr_neg (o_expression (objective model_redundant))
         else o_expression (objective model_redundant)) ∧
    bound <$> constraints nm
      = (λ c, Qc_abs (bound c)) <$> constraints model_redundant ∧
    c_type <$> constraints nm
      = (λ c, if decide (bound c < 0)%Qc then flip_type (c_type c) else c_type c)
          <$> constraints model_redundant ∧
    Forall (λ c, 0 ≤ bound c)%Qc (constraints nm) ∧
    variables model_redundant `prefix_of` variables nm ∧
    length (variables nm)
      = length (variables model_redundant)
        + length (Lab04.slack_variables (self s1))
        + length (Lab04.surplus_variables (self s1)) ∧
    length (Lab04.slack_variables (self s1))
      = length (filter (λ c, c_type c = LE) (constraints nm)) ∧
    length (Lab04.surplus_variables (self s1))
      = length (filter (λ c, c_type c = GE) (constraints nm)).
Proof.
  split; [reflexivity|].
  exact (normalize_model_result 0 (fresh04 model_redundant) model_redundant eq_refl).
Defined.

(** ** What the normalization of lab03 produces (lines 227-244) *)

Lemma normalize_round_fold LE_value rest :
  ∀ done_ m slack,
    constraints m = done_ ++ rest →
    Forall (λ p, p.1 < length (variables m)) slack →
    ∃ m' slack' rest',
      foldl (Lab03.normalize_round LE_value) (m, slack)
            (seq (length done_) (length rest)) = (m', slack') ∧
      constraints m' = done_ ++ rest' ∧
      Forall2 lab03_normalized_constraint rest rest' ∧
      objective m' = objective m ∧
      variables m `prefix_of` variables m' ∧
      length slack' = length slack + length (filter (λ c, c_type c ≠ EQ) rest) ∧
      length (variables m') + length slack = length (variables m) + length slack'.
Proof.
  induction rest as [|c rest IH]; intros done_ m slack Hcons Hslack; simpl.
  - exists m, slack, []. split_and!; first [done | constructor | lia].
  - assert (Hc : constraints m !! length done_ = Some c)
      by (rewrite Hcons; by apply list_lookup_middle).
    rewrite Hc. rewrite filter_cons.
    destruct (decide (c_type c ≠ EQ)) as [Hne|Heq].
    + set (v := mkVariable (length (variables m)) (fstring "s" (length done_))).
      set (c0 := if decide (bound c < 0)%Qc then constraint_invert c else c).
      set (c1 := set_type EQ (set_expression
                   (expr_add (c_expression c0)
                      (expr_scale (-1)%Qc (expr_scale LE_value (expr_of_var v)))) c0)).
      set (m1 := set_constraint (length done_) c1
                   (mkModel (variables m ++ [v]) (constraints m) (objective m))).
      destruct (IH (done_ ++ [c1]) m1 (dict_set (length (variables m)) (length done_) slack))
        as (m' & slack' & rest' & Hfold & Hcons' & Hrel & Hobj & Hpre & Hlen & Hn).
      * unfold m1. simpl. rewrite Hcons, insert_app_r_alt by done.
        rewrite Nat.sub_diag. simpl. by rewrite <- app_assoc.
      * unfold m1. simpl. rewrite length_app. simpl.
        clear -Hslack. induction slack as [|[k x] slack IHs]; simpl.
        { constructor; [simpl; lia|constructor]. }
        inversion Hslack as [|?? Hk Hrest]; subst. simpl in Hk.
        case_decide.
        -- constructor; [simpl; lia|].
           eapply Forall_impl; [exact Hrest|]. intros; simpl in *; lia.
        -- constructor; [simpl; lia|]. by apply IHs.
      * rewrite length_app in Hfold. simpl in Hfold.
        replace (length done_ + 1) with (S (length done_)) in Hfold by lia.
        assert (Hfresh : length (dict_set (length (variables m)) (length done_) slack)
                         = S (length slack)).
        { clear -Hslack. induction slack as [|[k x] slack IHs]; simpl; [done|].
          inversion Hslack as [|?? Hk Hrest]; subst. simpl in Hk.
          rewrite decide_False by lia. simpl. f_equal. by apply IHs. }
        exists m', slack', (c1 :: rest'). split_and!.
        -- exact Hfold.
        -- by rewrite <- app_assoc in Hcons'.
        -- constructor; [|done]. unfold lab03_normalized_constraint.
           split_and!; [done|intros ?; by destruct Hne|].
           intros _. unfold c1, c0. simpl. apply bound_after_flip.
        -- done.
        -- etrans; [|exact Hpre]. unfold m1. simpl. by apply prefix_app_r.
        -- simpl. rewrite Hlen, Hfresh. lia.
        -- unfold m1 in Hn. simpl in Hn. rewrite length_app in Hn. simpl in Hn. lia.
    + assert (Hty : c_type c = EQ)
        by (destruct (c_type c); try done; by destruct Heq).
      destruct (IH (done_ ++ [c]) m slack)
        as (m' & slack' & rest' & Hfold & Hcons' & Hrel & Hobj & Hpre & Hlen & Hn).
      * by rewrite <- app_assoc.
      * done.
      * rewrite length_app in Hfold. simpl in Hfold.
        replace (length done_ + 1) with (S (length done_)) in Hfold by lia.
        exists m', slack', (c :: rest'). split_and!; try done.
        -- by rewrite <- app_assoc in Hcons'.
        -- constructor; [|done]. unfold lab03_normalized_constraint.
           by split_and!.
Qed.

(** X9.  [_normalize_model] of lab03 works on the object it is given.
    Afterwards the objective is a maximization and every constraint is an
    equality.  A constraint that was an equality is left as it is, a negative
    bound included; a <= or >= constraint gets the absolute value of its
    bound and one slack variable, appended after the caller's variables and
    recorded in [slack_variables]. *)
Theorem lab03_normalize_model_result
    (LE_value : Qc) (model : loc) (s : Lab03.St) (m : Model) :
  heap s !! model = Some m →
  ∃ s1 nm,
    Lab03._normalize_model LE_value model s = (Ok model, s1) ∧
    heap s1 = <[model := nm]> (heap s) ∧
    o_type (objective nm) = MAX ∧
    Forall2 lab03_normalized_constraint (constraints m) (constraints nm) ∧
    variables m `prefix_of` variables nm ∧
    length (variables nm)
      = length (variables m) + length (Lab03.slack_variables (self s1)) ∧
    length (Lab03.slack_variables (self s1))
      = length (filter (λ c, c_type c ≠ EQ) (constraints m)).
Proof.
  intros Hm. unfold Lab03._normalize_model, mbind, M_bind, get_model.
  rewrite Hm. simpl.
  set (m1 := if decide (o_type (objective m) = MIN)
             then set_objective (objective_invert (objective m)) m else m).
  assert (Hvars1 : variables m1 = variables m) by (unfold m1; by case_decide).
  assert (Hcons1 : constraints m1 = constraints m) by (unfold m1; by case_decide).
  destruct (normalize_round_fold LE_value (constraints m1) [] m1 [])
    as (m' & slack & rest' & Hfold & Hcons' & Hrel & Hobj & Hpre & Hlen & Hn);
    [done|constructor|].
  simpl in Hfold. rewrite Hfold. simpl.
  eexists _, m'. split; [done|]. simpl. split; [done|].
  simpl in Hcons'. subst rest'. rewrite Hcons1 in Hrel, Hlen.
  rewrite Hvars1 in Hpre, Hn. simpl in Hlen, Hn.
  split_and!; try done; [|lia].
  rewrite Hobj. unfold m1. case_decide as Ho; simpl; [by rewrite Ho|].
  by destruct (o_type (objective m)).
Qed.

Lemma lab03_normalize_model_result_witness :
  heap (fresh03 model_minimize) !! 0 = Some model_minimize ∧
  ∃ s1 nm,
    Lab03._normalize_model (num (-1)) 0 (fresh03 model_minimize) = (Ok 0, s1) ∧
    heap s1 = <[0 := nm]> (heap (fresh03 model_minimize)) ∧
    o_type (objective nm) = MAX ∧
    Forall2 lab03_normalized_constraint
            (constraints model_minimize) (constraints nm) ∧
    variables model_minimize `prefix_of` variables nm ∧
    length (variables nm)
      = length (variables model_minimize)
        + length (Lab03.slack_variables (self s1)) ∧
    length (Lab03.slack_variables (self s1))
      = length (filter (λ c, c_type c ≠ EQ) (constraints model_minimize)).
Proof.
  split; [reflexivity|].
  exact (lab03_normalize_model_result (num (-1)) 0 (fresh03 model_minimize)
           model_minimize eq_refl).
Defined.

(** ** [_fix_missing_basis] and the columns of the basis (lab04, lines 182-191) *)

Lemma fix_missing_basis_unfold t basis :
  Lab04._fix_missing_basis t basis
  = (cost_row ← foldl (fix_missing_basis_round (table t) (default [] (table t !! 0)))
                      (Ok (default [] (table t !! 0))) basis;
     Ok (mkTableaux (t_model t) (<[0 := cost_row]> (table t)))).
Proof. reflexivity. Qed.

Lemma where_one_at column i :
  column !! i = Some 1%Qc → (∀ j, j < i → column !! j ≠ Some 1%Qc) →
  where_one column !! 0 = Some i.
Proof.
  revert i. induction column as [|v column IH]; intros i; simpl; [done|].
  destruct i as [|i]; simpl.
  - intros [= ->] _. by rewrite decide_True.
  - intros Hi Hfirst. rewrite decide_False.
    + simpl. rewrite list_lookup_fmap, (IH i); [done|done|].
      intros j Hj. apply (Hfirst (S j)). lia.
    + intros ->. by apply (Hfirst 0); [lia|].
Qed.

Lemma where_one_is_Some column :
  1%Qc ∈ column ↔ is_Some (where_one column !! 0).
Proof.
  induction column as [|v column IH]; simpl.
  - split; [by intros ?%elem_of_nil|by intros [? ?]].
  - case_decide as Hv; simpl.
    + split; [by eexists|]. intros _. rewrite Hv. by left.
    + rewrite list_lookup_fmap, elem_of_cons, IH, fmap_is_Some.
      split; [|by right]. by intros [?|?].
Qed.

Lemma unit_column_where_one tb k r :
  unit_column tb k r → where_one (drop 1 (column tb k)) !! 0 = Some (r - 1).
Proof.
  intros [[Hr1 Hr2] Hcol]. apply where_one_at.
  - rewrite lookup_drop. replace (1 + (r - 1)) with r by lia.
    rewrite column_lookup by done. rewrite Hcol by lia. by rewrite decide_True.
  - intros j Hj. rewrite lookup_drop, column_lookup by lia.
    rewrite Hcol by lia. rewrite decide_False by lia. by intros [= ?].
Qed.

Lemma py_index_of_nat n k : k < n → py_index n (Z.of_nat k) = Some k.
Proof.
  intros Hk. unfold py_index. rewrite decide_True by lia. by rewrite Nat2Z.id.
Qed.

Lemma py_index_lt n i k : py_index n i = Some k → k < n.
Proof.
  unfold py_index. repeat case_decide; intros [= <-]; lia.
Qed.

(** A round of the loop raises IndexError or subtracts a multiple of a
    constraint row. *)
Lemma fix_missing_basis_round_cases tb init acc col_ind :
  length init = ncols tb →
  (addresses_one tb col_ind ∧
   ∃ k i row x,
     py_index (ncols tb) col_ind = Some k ∧
     where_one (drop 1 (column tb k)) !! 0 = Some i ∧
     tb !! (i + 1) = Some row ∧ init !! k = Some x ∧
     fix_missing_basis_round tb init (Ok acc) col_ind
     = Ok (zip_with (λ a b, a - b * x)%Qc acc row)) ∨
  (¬ addresses_one tb col_ind ∧
   fix_missing_basis_round tb init (Ok acc) col_ind = Err IndexError).
Proof.
  intros Hinit. unfold fix_missing_basis_round, addresses_one. simpl.
  destruct (py_index (ncols tb) col_ind) as [k|] eqn:Hk; simpl.
  2:{ right. split; [by intros (? & ? & _)|done]. }
  destruct (where_one (drop 1 (column tb k)) !! 0) as [i|] eqn:Hi; simpl.
  2:{ right. split; [|done]. intros (k' & [= <-] & Hone).
      apply where_one_is_Some in Hone. rewrite Hi in Hone. by destruct Hone. }
  left. split.
  { exists k. split; [done|]. apply where_one_is_Some. by rewrite Hi. }
  assert (Hrow : i + 1 < nrows tb).
  { apply where_one_head, lookup_lt_Some in Hi.
    rewrite length_drop in Hi. unfold column in Hi. rewrite length_fmap in Hi.
    unfold nrows. lia. }
  destruct (lookup_lt_is_Some_2 tb (i + 1) Hrow) as [row Hr]. rewrite Hr. simpl.
  assert (Hk' := py_index_lt _ _ _ Hk).
  destruct (lookup_lt_is_Some_2 init k) as [x Hx]; [lia|].
  unfold py_getitem. rewrite Hinit, Hk, Hx. simpl.
  by exists k, i, row, x.
Qed.

Lemma foldl_fix_missing_basis_Err tb init e basis :
  foldl (fix_missing_basis_round tb init) (Err e) basis = Err e.
Proof. induction basis as [|c basis IH]; [done|]. simpl. apply IH. Qed.

Lemma Qc_sum_cons x l : Qc_sum (x :: l) = (x + Qc_sum l)%Qc.
Proof. reflexivity. Qed.

Lemma zip_with_sub_lookup (acc row : list Qc) (x : Qc) c :
  length acc = length row →
  default 0%Qc (zip_with (λ a b, a - b * x)%Qc acc row !! c)
  = (default 0%Qc (acc !! c) - default 0%Qc (row !! c) * x)%Qc.
Proof.
  intros Hlen. rewrite lookup_zip_with.
  destruct (acc !! c) as [a|] eqn:Ha; simpl.
  - destruct (lookup_lt_is_Some_2 row c) as [b Hb].
    { rewrite <- Hlen. by eapply lookup_lt_Some. }
    by rewrite Hb.
  - rewrite (lookup_ge_None_2 row c).
    + simpl. ring.
    + rewrite <- Hlen. by apply lookup_ge_None_1.
Qed.

(** The cost row after the loop: the multiples of the rows of the basis are
    all taken from the initial cost row. *)
Lemma fix_missing_basis_fold tb init (row_of : nat → nat) basis :
  wf_table tb → length init = ncols tb →
  (∀ k, k ∈ basis → k < ncols tb ∧ unit_column tb k (row_of k)) →
  ∀ acc, length acc = ncols tb →
  ∃ cost_row,
    foldl (fix_missing_basis_round tb init) (Ok acc) (Z.of_nat <$> basis) = Ok cost_row ∧
    length cost_row = ncols tb ∧
    ∀ c,
      default 0%Qc (cost_row !! c)
      = (default 0%Qc (acc !! c)
         - Qc_sum ((λ k, cell tb (row_of k) c * default 0%Qc (init !! k)) <$> basis))%Qc.
Proof.
  intros Hwf Hinit. induction basis as [|k basis IH]; intros Hbasis acc Hacc.
  - exists acc. split_and!; [done|done|]. intros c. simpl. ring.
  - destruct (Hbasis k) as [Hk Hunit]; [by left|].
    assert (Hone := unit_column_where_one _ _ _ Hunit).
    destruct (fix_missing_basis_round_cases tb init acc (Z.of_nat k) Hinit)
      as [(_ & k' & i & row & x & Hk' & Hi & Hrow & Hx & Hstep)|[Hno _]].
    2:{ destruct Hno. exists k. split; [by apply py_index_of_nat|].
        apply where_one_is_Some. by rewrite Hone. }
    rewrite py_index_of_nat in Hk' by done. injection Hk' as <-.
    rewrite Hone in Hi. injection Hi as <-.
    destruct Hunit as [[Hr1 Hr2] Hunit].
    replace (row_of k - 1 + 1) with (row_of k) in Hrow by lia.
    assert (Hlen : length row = ncols tb) by (by eapply wf_table_row).
    destruct (IH (λ k' Hin, Hbasis k' (list_elem_of_further _ _ _ Hin))
                 (zip_with (λ a b, a - b * x)%Qc acc row))
      as (cost_row & Hfold & Hclen & Hcost).
    { rewrite length_zip_with. lia. }
    exists cost_row. rewrite fmap_cons. cbn [foldl]. rewrite Hstep.
    split_and!; [done|done|]. intros c.
    rewrite Hcost, zip_with_sub_lookup by lia.
    rewrite fmap_cons, Qc_sum_cons.
    unfold cell at 2. rewrite Hrow, Hx. cbn [mbind option_bind default]. change (id x) with x. ring.
Qed.

(** A sum over the basis in which only the column of one row counts. *)
Lemma Qc_sum_other_rows tb (row_of : nat → nat) (g : nat → Qc) basis kj :
  unit_column tb kj (row_of kj) →
  (∀ k, k ∈ basis → 1 ≤ row_of k < nrows tb) →
  row_of kj ∉ row_of <$> basis →
  Qc_sum ((λ k, (cell tb (row_of k) kj * g k)%Qc) <$> basis) = 0%Qc.
Proof.
  intros [_ Hunit]. induction basis as [|k basis IH]; intros Hrows Hnot; [done|].
  rewrite fmap_cons in Hnot. apply not_elem_of_cons in Hnot as [Hne Hnot].
  rewrite fmap_cons, Qc_sum_cons. rewrite IH; [|intros; apply Hrows; by right|done].
  rewrite Hunit by (apply Hrows; by left).
  rewrite decide_False by done. ring.
Qed.

Lemma Qc_sum_own_row tb (row_of : nat → nat) (g : nat → Qc) basis kj :
  (∀ k, k ∈ basis → unit_column tb k (row_of k)) →
  NoDup (row_of <$> basis) → kj ∈ basis →
  Qc_sum ((λ k, (cell tb (row_of k) kj * g k)%Qc) <$> basis) = g kj.
Proof.
  induction basis as [|k basis IH]; intros Hunit Hnd Hin; [by apply elem_of_nil in Hin|].
  rewrite fmap_cons in Hnd. apply NoDup_cons in Hnd as [Hnot Hnd].
  rewrite fmap_cons, Qc_sum_cons.
  assert (Hrows : ∀ k', k' ∈ basis → 1 ≤ row_of k' < nrows tb).
  { intros k' Hk'. apply (Hunit k'). by right. }
  destruct (decide (kj ∈ basis)) as [Hin'|Hin'].
  - rewrite IH; [|intros; apply Hunit; by right|done|done].
    destruct (Hunit kj) as [_ Hcol]; [by right|].
    rewrite Hcol by (apply (Hunit k); by left).
    rewrite decide_False; [ring|].
    intros E. apply Hnot. rewrite E. by apply list_elem_of_fmap_2.
  - apply elem_of_cons in Hin as [->|Hin]; [|done].
    rewrite (Qc_sum_other_rows tb row_of g basis k); [|apply Hunit; by left|done|done].
    destruct (Hunit k) as [Hr Hcol]; [by left|].
    rewrite Hcol by done. rewrite decide_True by done. ring.
Qed.

(** X10.  [_fix_missing_basis] on a basis of unit columns of distinct
    constraint rows returns; it changes the cost row only.  Afterwards the
    cost row is 0 in every column of the basis, and in general it is the old
    cost row minus, for each column of the basis, its row times its old cost
    factor. *)
Theorem fix_missing_basis_zeroes
    (t : Tableaux) (basis : list nat) (row_of : nat → nat) :
  wf_table (table t) →
  (∀ k, k ∈ basis → k < ncols (table t) ∧ unit_column (table t) k (row_of k)) →
  NoDup (row_of <$> basis) →
  ∃ t',
    Lab04._fix_missing_basis t (Z.of_nat <$> basis) = Ok t' ∧
    t_model t' = t_model t ∧
    wf_table (table t') ∧ ncols (table t') = ncols (table t) ∧
    drop 1 (table t') = drop 1 (table t) ∧
    (∀ k, k ∈ basis → cell (table t') 0 k = 0%Qc) ∧
    (∀ c, cell (table t') 0 c
          = (cell (table t) 0 c
             - Qc_sum ((λ k, cell (table t) (row_of k) c * cell (table t) 0 k)
                         <$> basis))%Qc).
Proof.
  intros Hwf Hbasis Hnd.
  destruct (table t) as [|row0 rows] eqn:Htb; [destruct Hwf; simpl in *; lia|].
  rewrite <- Htb in *.
  assert (H0 : table t !! 0 = Some row0) by (by rewrite Htb).
  assert (Hlen0 : length row0 = ncols (table t)) by (by eapply wf_table_row).
  destruct (fix_missing_basis_fold (table t) row0 row_of basis Hwf Hlen0 Hbasis row0 Hlen0)
    as (cost_row & Hfold & Hclen & Hcost).
  rewrite fix_missing_basis_unfold, H0. simpl. rewrite Hfold. simpl.
  eexists. split; [reflexivity|]. simpl.
  assert (Hcols : ncols (<[0 := cost_row]> (table t)) = ncols (table t)).
  { rewrite <- Hclen. unfold ncols. by rewrite Htb. }
  assert (Hcell0 : ∀ c, cell (<[0 := cost_row]> (table t)) 0 c
                        = (cell (table t) 0 c
                           - Qc_sum ((λ k, cell (table t) (row_of k) c * cell (table t) 0 k)
                                       <$> basis))%Qc).
  { assert (Hc0 : ∀ c, cell (table t) 0 c = default 0%Qc (row0 !! c))
      by (intros c; unfold cell; by rewrite H0).
    intros c. unfold cell at 1.
    rewrite list_lookup_insert_eq by (destruct Hwf; unfold nrows in *; lia).
    cbn [mbind option_bind]. rewrite Hcost, Hc0. f_equal. f_equal.
    apply list_fmap_ext. intros ? k _. simpl. by rewrite Hc0. }
  split_and!.
  - done.
  - destruct Hwf as (Hn & Hm & Hall). split_and!.
    + unfold nrows in *. rewrite length_insert. done.
    + by rewrite Hcols.
    + rewrite Hcols. rewrite Htb in *. simpl.
      apply Forall_cons in Hall as [_ Hall]. by constructor.
  - done.
  - by rewrite Htb.
  - intros k Hk. rewrite Hcell0.
    rewrite (Qc_sum_own_row (table t) row_of (λ k, cell (table t) 0 k) basis k);
      [ring| |done|done].
    intros k' Hk'. by apply Hbasis.
  - exact Hcell0.
Qed.

Lemma fix_missing_basis_zeroes_witness :
  let t := tableaux_artificial in
  let row_of := λ k, k - 1 in
  let basis := [2; 3] in
  wf_table (table t) ∧
  (∀ k, k ∈ basis → k < ncols (table t) ∧ unit_column (table t) k (row_of k)) ∧
  NoDup (row_of <$> basis) ∧
  ∃ t',
    Lab04._fix_missing_basis t (Z.of_nat <$> basis) = Ok t' ∧
    t_model t' = t_model t ∧
    wf_table (table t') ∧ ncols (table t') = ncols (table t) ∧
    drop 1 (table t') = drop 1 (table t) ∧
    (∀ k, k ∈ basis → cell (table t') 0 k = 0%Qc) ∧
    (∀ c, cell (table t') 0 c
          = (cell (table t) 0 c
             - Qc_sum ((λ k, cell (table t) (row_of k) c * cell (table t) 0 k)
                         <$> basis))%Qc).
Proof.
  intros t row_of basis.
  assert (Hwf : wf_table (table t)).
  { split; [vm_compute; lia|]. split; [vm_compute; lia|].
    vm_compute. repeat constructor. }
  assert (Hbasis : ∀ k, k ∈ [2; 3] →
            k < ncols (table t) ∧ unit_column (table t) k (row_of k)).
  { intros k Hk.
    assert (Hk' : k = 2 ∨ k = 3) by (repeat (apply elem_of_cons in Hk as [?|Hk]; auto);
                                     by apply elem_of_nil in Hk).
    split; [vm_compute; lia|]. split; [destruct Hk' as [-> | ->]; vm_compute; lia|].
    intros r' Hr'. assert (Hr : r' = 1 ∨ r' = 2) by (vm_compute in Hr'; lia).
    destruct Hk' as [-> | ->], Hr as [-> | ->]; Qc_compute. }
  assert (Hnd : NoDup (row_of <$> [2; 3])).
  { unfold row_of, basis. simpl. apply NoDup_cons. split; [|apply NoDup_singleton].
    intros H%list_elem_of_singleton. lia. }
  split; [exact Hwf|]. split; [exact Hbasis|]. split; [exact Hnd|].
  exact (fix_missing_basis_zeroes t [2; 3] row_of Hwf Hbasis Hnd).
Defined.

Lemma drop_insert_0 {A} (l : list A) (x : A) : drop 1 (<[0 := x]> l) = drop 1 l.
Proof. by destruct l. Qed.

(** X11.  [_fix_missing_basis] returns exactly when every entry of [basis]
    addresses, as a Python index, a column that holds a 1 below the cost
    row; the entry -1 of a row without a variable addresses the column of the
    right-hand sides.  Otherwise it raises IndexError.  When it returns, the
    model and the constraint rows are the ones it was given. *)
Theorem fix_missing_basis_returns_iff (t : Tableaux) (basis : list Z) :
  match Lab04._fix_missing_basis t basis with
  | Ok t' =>
      Forall (addresses_one (table t)) basis ∧
      t_model t' = t_model t ∧ drop 1 (table t') = drop 1 (table t)
  | Err e => e = IndexError ∧ ¬ Forall (addresses_one (table t)) basis
  end ∧
  (addresses_one (table t) (-1) ↔
   0 < ncols (table t) ∧ 1%Qc ∈ drop 1 (column (table t) (ncols (table t) - 1))).
Proof.
  split.
  2:{ unfold addresses_one, py_index. split.
      - intros (k & Hk & Hone). rewrite decide_False in Hk by lia.
        case_decide as Hc; [|done]. injection Hk as <-. split; [lia|].
        by replace (ncols (table t) - 1)
             with (Z.to_nat (Z.of_nat (ncols (table t)) + -1)) by lia.
      - intros [Hpos Hone]. exists (ncols (table t) - 1). split; [|done].
        rewrite decide_False by lia. rewrite decide_True by lia. f_equal. lia. }
  rewrite fix_missing_basis_unfold.
  set (init := default [] (table t !! 0)).
  assert (Hinit : length init = ncols (table t)) by done.
  assert (Hfold : ∀ acc,
    match foldl (fix_missing_basis_round (table t) init) (Ok acc) basis with
    | Ok _ => Forall (addresses_one (table t)) basis
    | Err e => e = IndexError ∧ ¬ Forall (addresses_one (table t)) basis
    end).
  { induction basis as [|col_ind basis IH]; intros acc; [by constructor|]. cbn [foldl].
    destruct (fix_missing_basis_round_cases (table t) init acc col_ind Hinit)
      as [(Hone & k & i & row & x & _ & _ & _ & _ & ->)|[Hno ->]].
    - specialize (IH (zip_with (λ a b, a - b * x)%Qc acc row)).
      destruct (foldl _ _ basis) as [cost_row|e].
      + by constructor.
      + destruct IH as [-> IH]. split; [done|].
        intros Hall. apply IH. by apply Forall_cons in Hall as [_ ?].
    - rewrite foldl_fix_missing_basis_Err. split; [done|].
      intros Hall. apply Hno. by apply Forall_cons in Hall as [? _]. }
  specialize (Hfold init).
  destruct (foldl _ _ basis) as [cost_row|e]; simpl; [|done].
  split; [done|]. split; [done|]. apply drop_insert_0.
Qed.

(** ** The initial tableaux (lab03, lines 86-92) *)

Lemma factors_length e m : length (factors e m) = length (variables m).
Proof. unfold factors. by rewrite length_fmap. Qed.

Lemma initial_table_ncols m : ncols (initial_table m) = S (length (variables m)).
Proof.
  unfold ncols, initial_table. simpl. rewrite length_app, factors_length. simpl. lia.
Qed.

Lemma initial_table_nrows m : nrows (initial_table m) = S (length (constraints m)).
Proof. unfold nrows, initial_table. simpl. by rewrite length_fmap. Qed.

Lemma initial_table_wf m : wf_table (initial_table m).
Proof.
  split; [rewrite initial_table_nrows; lia|].
  split; [rewrite initial_table_ncols; lia|].
  rewrite initial_table_ncols. unfold initial_table. constructor.
  - rewrite length_app, factors_length. simpl. lia.
  - apply Forall_fmap, Forall_forall. intros c _. simpl.
    rewrite length_app, factors_length. simpl. lia.
Qed.

Lemma initial_table_rhs m r c :
  constraints m !! r = Some c → rhs (initial_table m) (S r) = bound c.
Proof.
  intros Hc. unfold rhs, cell. rewrite initial_table_ncols.
  replace (S (length (variables m)) - 1) with (length (variables m)) by lia.
  unfold initial_table. simpl. rewrite list_lookup_fmap, Hc. simpl.
  rewrite <- (factors_length (c_expression c) m).
  by rewrite list_lookup_middle.
Qed.

Lemma initial_table_feasible m :
  Forall (λ c, 0 ≤ bound c)%Qc (constraints m) → feasible (initial_table m).
Proof.
  intros Hall r Hr. rewrite initial_table_nrows in Hr.
  destruct r as [|r]; [lia|].
  destruct (lookup_lt_is_Some_2 (constraints m) r) as [c Hc]; [lia|].
  rewrite (initial_table_rhs _ _ _ Hc). rewrite Forall_forall in Hall.
  apply Hall. by eapply list_elem_of_lookup_2.
Qed.

(** ** The reward shift of the mixed solver (lab08, lines 32-41) *)

Lemma fold_left_Qc_min_elem l x : fold_left Qc_min l x ∈ x :: l.
Proof.
  revert x. induction l as [|y l IH]; intros x; simpl; [by left|].
  specialize (IH (Qc_min x y)). apply elem_of_cons in IH as [->|IH].
  - unfold Qc_min. case_decide; [left|right; left].
  - by do 2 right.
Qed.

Lemma fold_left_Qc_min_le l x :
  (fold_left Qc_min l x ≤ x)%Qc ∧ Forall (λ y, fold_left Qc_min l x ≤ y)%Qc l.
Proof.
  revert x. induction l as [|y l IH]; intros x; simpl.
  - split; [apply Qcle_refl|constructor].
  - destruct (IH (Qc_min x y)) as [Hle Hall].
    assert (Hx : (Qc_min x y ≤ x)%Qc).
    { unfold Qc_min. case_decide as H; [apply Qcle_refl|].
      by apply Qclt_le_weak, Qcnot_le_lt. }
    assert (Hy : (Qc_min x y ≤ y)%Qc).
    { unfold Qc_min. case_decide as H; [done|apply Qcle_refl]. }
    split; [by eapply Qcle_trans|].
    constructor; [by eapply Qcle_trans|done].
Qed.

Lemma fold_left_Qc_max_le l x :
  (x ≤ fold_left Qc_max l x)%Qc ∧ Forall (λ y, y ≤ fold_left Qc_max l x)%Qc l.
Proof.
  revert x. induction l as [|y l IH]; intros x; simpl.
  - split; [apply Qcle_refl|constructor].
  - destruct (IH (Qc_max x y)) as [Hle Hall].
    assert (Hx : (x ≤ Qc_max x y)%Qc).
    { unfold Qc_max. case_decide as H; [done|apply Qcle_refl]. }
    assert (Hy : (y ≤ Qc_max x y)%Qc).
    { unfold Qc_max. case_decide as H; [apply Qcle_refl|].
      by apply Qclt_le_weak, Qcnot_le_lt. }
    split; [by eapply Qcle_trans|].
    constructor; [by eapply Qcle_trans|done].
Qed.

Lemma np_min_spec l m :
  np_min l = Some m → m ∈ l ∧ Forall (λ x, m ≤ x)%Qc l.
Proof.
  destruct l as [|x l]; [done|]. simpl. intros [= <-].
  split; [apply fold_left_Qc_min_elem|].
  destruct (fold_left_Qc_min_le l x). by constructor.
Qed.

Lemma np_max_spec l m :
  np_max l = Some m → m ∈ l ∧ Forall (λ x, x ≤ m)%Qc l.
Proof.
  destruct l as [|x l]; [done|]. simpl. intros [= <-].
  split; [apply fold_left_Qc_max_elem|].
  destruct (fold_left_Qc_max_le l x). by constructor.
Qed.

Lemma Qc_abs_nonpos x : (x ≤ 0)%Qc → Qc_abs x = (- x)%Qc.
Proof.
  intros Hx. unfold Qc_abs. case_decide as H; [|done].
  rewrite (Qcle_antisym _ _ Hx H). ring.
Qed.

(** The minima of the rows. *)
Lemma mapM_np_min (reward_matrix : list (list Qc)) :
  match mapM (M := result) (λ col, from_option ValueError (np_min col)) reward_matrix with
  | Ok mins => Forall2 (λ row m, np_min row = Some m) reward_matrix mins
  | Err e => e = ValueError ∧ [] ∈ reward_matrix
  end.
Proof.
  induction reward_matrix as [|row rows IH]; [constructor|]. cbn [mapM].
  destruct row as [|x row]; simpl; [split; [done|by left]|].
  destruct (mapM _ rows) as [mins|e]; simpl.
  - by constructor.
  - destruct IH as [-> Hin]. split; [done|by right].
Qed.

(** X13.  [shift_game_rewards] raises ValueError on a game without rows or
    with a row without entries.  Otherwise it adds to every reward the same
    shift, which is not negative; in the shifted game some row holds no
    negative reward, so the row player can secure a value that is not
    negative.  The shift is 0 when a row of the game holds positive rewards
    only; when there is no such row, every row of the shifted game holds a
    reward that is not positive. *)
Theorem shift_game_rewards_result (reward_matrix : list (list Qc)) :
  (reward_matrix = [] ∨ [] ∈ reward_matrix →
   Minimax.shift_game_rewards reward_matrix = Err ValueError) ∧
  (reward_matrix ≠ [] → [] ∉ reward_matrix →
   ∃ shift,
     Minimax.shift_game_rewards reward_matrix
     = Ok ((λ row : list Qc, (λ x, x + shift)%Qc <$> row) <$> reward_matrix, shift) ∧
     (0 ≤ shift)%Qc ∧
     Exists (Forall (λ x, 0 ≤ x + shift)%Qc) reward_matrix ∧
     (Exists (Forall (λ x, 0 < x)%Qc) reward_matrix → shift = 0%Qc) ∧
     (¬ Exists (Forall (λ x, 0 < x)%Qc) reward_matrix →
      Forall (Exists (λ x, x + shift ≤ 0)%Qc) reward_matrix)).
Proof.
  unfold Minimax.shift_game_rewards.
  pose proof (mapM_np_min reward_matrix) as Hmins.
  destruct (mapM _ reward_matrix) as [mins|e]; simpl.
  2:{ destruct Hmins as [-> Hin]. split; [done|]. by intros _ Hno. }
  assert (Hnot : [] ∉ reward_matrix).
  { intros Hin. apply list_elem_of_lookup in Hin as [i Hi].
    destruct (Forall2_lookup_l _ _ _ _ _ Hmins Hi) as (m & _ & Hm). done. }
  destruct (np_max mins) as [m|] eqn:Hmax; simpl.
  2:{ destruct mins; [|done]. apply Forall2_nil_inv_r in Hmins as ->.
      split; [done|]. by intros Hne. }
  split.
  { intros [->|Hin]; [|done]. by apply Forall2_nil_inv_l in Hmins as ->. }
  intros _ _. eexists. split; [reflexivity|].
  destruct (np_max_spec _ _ Hmax) as [Hm Hle].
  apply list_elem_of_lookup in Hm as [i Hi].
  destruct (Forall2_lookup_r _ _ _ _ _ Hmins Hi) as (row & Hrow & Hmin).
  destruct (np_min_spec _ _ Hmin) as [Hin Hge].
  set (shift := if decide (0 < m)%Qc then 0%Qc else Qc_abs m).
  assert (Hshift : (0 ≤ shift)%Qc ∧ (0 ≤ m + shift)%Qc ∧
                   ((0 < m)%Qc → shift = 0%Qc) ∧ (¬ (0 < m)%Qc → m + shift = 0)%Qc).
  { unfold shift. case_decide as Hpos.
    - split_and!; [done| |done|done].
      replace (m + 0)%Qc with m by ring. by apply Qclt_le_weak.
    - apply Qcnot_lt_le in Hpos. pose proof (Qc_abs_nonneg m) as Hn.
      rewrite (Qc_abs_nonpos _ Hpos) in Hn |- *.
      split_and!; [exact Hn| | |intros _; ring].
      + replace (m + - m)%Qc with 0%Qc by ring. done.
      + intros Hlt. by apply Qclt_not_le in Hlt. }
  destruct Hshift as (Hs0 & Hms & Hs1 & Hs2).
  split_and!.
  - done.
  - apply Exists_exists. exists row. split; [by eapply list_elem_of_lookup_2|].
    eapply Forall_impl; [exact Hge|]. intros x Hx. simpl in Hx.
    eapply Qcle_trans; [exact Hms|]. by apply Qcplus_le_compat; [|apply Qcle_refl].
  - intros Hex. apply Hs1. apply Exists_exists in Hex as (row' & Hrow' & Hpos).
    apply list_elem_of_lookup in Hrow' as [j Hj].
    destruct (Forall2_lookup_l _ _ _ _ _ Hmins Hj) as (m' & Hm' & Hmin').
    destruct (np_min_spec _ _ Hmin') as [Hin' _].
    rewrite Forall_forall in Hpos, Hle.
    eapply Qclt_le_trans; [apply (Hpos m' Hin')|].
    apply Hle. by eapply list_elem_of_lookup_2.
  - intros Hno.
    assert (Hm0 : ¬ (0 < m)%Qc).
    { intros Hpos. apply Hno, Exists_exists. exists row.
      split; [by eapply list_elem_of_lookup_2|].
      eapply Forall_impl; [exact Hge|]. intros x Hx. simpl in Hx.
      by eapply Qclt_le_trans. }
    apply Forall_forall. intros row' Hrow'.
    apply list_elem_of_lookup in Hrow' as [j Hj].
    destruct (Forall2_lookup_l _ _ _ _ _ Hmins Hj) as (m' & Hm' & Hmin').
    destruct (np_min_spec _ _ Hmin') as [Hin' _].
    apply Exists_exists. exists m'. split; [done|].
    rewrite <- (Hs2 Hm0). apply Qcplus_le_compat; [|apply Qcle_refl].
    rewrite Forall_forall in Hle. apply Hle. by eapply list_elem_of_lookup_2.
Qed.

Lemma shift_game_rewards_result_witness :
  let g := [[num (-1); num 2]; [num (-3); num 1]] in
  g ≠ [] ∧ ([] ∉ g) ∧
  ∃ shift,
    Minimax.shift_game_rewards g
    = Ok ((λ row : list Qc, (λ x, x + shift)%Qc <$> row) <$> g, shift) ∧
    (0 ≤ shift)%Qc ∧
    Exists (Forall (λ x, 0 ≤ x + shift)%Qc) g ∧
    (Exists (Forall (λ x, 0 < x)%Qc) g → shift = 0%Qc) ∧
    (¬ Exists (Forall (λ x, 0 < x)%Qc) g →
     Forall (Exists (λ x, x + shift ≤ 0)%Qc) g).
Proof.
  intros g.
  assert (H1 : g ≠ []) by done.
  assert (H2 : [] ∉ g).
  { intros H. repeat (apply elem_of_cons in H as [H|H]; [done|]).
    by apply elem_of_nil in H. }
  split; [exact H1|]. split; [exact H2|].
  exact (proj2 (shift_game_rewards_result g) H1 H2).
Defined.

(** ** The normalized assignment problem (lab10, lines 116-144) *)

Lemma foldl_Z_max_spec l x :
  foldl Z.max x l ∈ x :: l ∧ Forall (λ y, (y ≤ foldl Z.max x l)%Z) (x :: l).
Proof.
  revert x. induction l as [|y l IH]; intros x; simpl.
  - split; [by left|]. constructor; [lia|constructor].
  - destruct (IH (x `max` y)%Z) as [Hin Hall].
    apply Forall_cons in Hall as [Hxy Hall]. split.
    + apply elem_of_cons in Hin as [->|Hin]; [|by do 2 right].
      destruct (Z.max_spec x y) as [[_ ->]|[_ ->]]; [right; left|left].
    + constructor; [lia|]. constructor; [lia|done].
Qed.

Lemma zcell_lookup a i j row x :
  a !! i = Some row → row !! j = Some x → zcell a i j = x.
Proof. intros Hi Hj. unfold zcell. rewrite Hi. simpl. by rewrite Hj. Qed.

Lemma zcell_concat (a : list (list Z)) (x : Z) :
  x ∈ concat a ↔ ∃ i j row, a !! i = Some row ∧ row !! j = Some x.
Proof.
  rewrite list_elem_of_In, in_concat. split.
  - intros (row & Hrow & Hx).
    apply list_elem_of_In in Hrow, Hx.
    apply list_elem_of_lookup in Hrow as [i Hi].
    apply list_elem_of_lookup in Hx as [j Hj]. by exists i, j, row.
  - intros (i & j & row & Hi & Hj). exists row.
    split; apply list_elem_of_In; by eapply list_elem_of_lookup_2.
Qed.

Lemma wrap64_small z : (- 2 ^ 63 ≤ z < 2 ^ 63)%Z → Assignment.wrap64 z = z.
Proof.
  intros Hz. unfold Assignment.wrap64.
  assert (H64 : (2 ^ 64 = 2 * 2 ^ 63)%Z) by done.
  rewrite Z.mod_small; lia.
Qed.

Lemma np_float64_small z : (Z.abs z < 2 ^ 53)%Z → Assignment.np_float64 z = z.
Proof.
  intros Hz. unfold Assignment.np_float64. rewrite decide_True; [done|].
  destruct (decide (Z.abs z = 0%Z)) as [->|Hnz]; [done|].
  assert (Z.log2 (Z.abs z) < 53)%Z; [|lia].
  apply Z.log2_lt_pow2; lia.
Qed.

(** X14.  [from_problem] raises IndexError on costs without rows and
    ValueError on costs without cells.  Otherwise it returns a square
    array whose size is the larger of the numbers of workers and tasks,
    together with the problem it was given.  When every cost is below 2^52
    in absolute value, so that no 64-bit subtraction wraps around and no
    float is rounded: for a minimization the cells of the problem are
    copied and the added rows or columns hold 0; for a maximization every
    cell, the added ones included, is subtracted from the largest cost, so
    that the added cells hold the largest cost. *)
Theorem from_problem_result (problem : Assignment.AssignmentProblem) (cols : nat) :
  let a := Assignment.costs problem in
  let rows := length a in
  Forall (λ row, length row = cols) a →
  (rows = 0 → Assignment.from_problem problem = Err IndexError) ∧
  (0 < rows → cols = 0 → Assignment.from_problem problem = Err ValueError) ∧
  (0 < rows → 0 < cols →
   Forall (Forall (λ c, (Z.abs c < 2 ^ 52)%Z)) a →
   ∃ n max_value,
     Assignment.from_problem problem = Ok n ∧
     Assignment.original_problem n = problem ∧
     Assignment.size n = rows `max` cols ∧
     Forall (λ row, length row = rows `max` cols) (Assignment.n_costs n) ∧
     (∃ i j, i < rows ∧ j < cols ∧ zcell a i j = max_value) ∧
     (∀ i j, i < rows → j < cols → (zcell a i j ≤ max_value)%Z) ∧
     (∀ i j, i < rows `max` cols → j < rows `max` cols →
        zcell (Assignment.n_costs n) i j
        = let x := if decide (i < rows ∧ j < cols) then zcell a i j else 0%Z in
          if Assignment.objective_is_min problem then x else (max_value - x)%Z)).
Proof.
  intros a rows Hrect. unfold Assignment.from_problem. fold a. fold rows.
  split; [|split].
  - intros Hr. destruct a; [done|]. simpl in *. subst rows. simpl in Hr. lia.
  - intros Hr ->. destruct a as [|row0 a'] eqn:Ha; [simpl in *; subst rows; simpl in Hr; lia|].
    simpl. unfold Assignment.np_max_array.
    assert (Hc : concat (row0 :: a') = []).
    { apply concat_nil_Forall.
      eapply Forall_impl; [exact Hrect|]. intros row Hrow. simpl in Hrow.
      by apply nil_length_inv. }
    by rewrite Hc.
  - intros Hr Hc Hbound.
    destruct (lookup_lt_is_Some_2 a 0 Hr) as [row0 Hrow0]. rewrite Hrow0. simpl.
    assert (Hlen0 : length row0 = cols).
    { rewrite Forall_forall in Hrect. apply Hrect. by eapply list_elem_of_lookup_2. }
    rewrite Hlen0.
    assert (Hcell : ∀ i j, i < rows → j < cols →
              ∃ row, a !! i = Some row ∧ row !! j = Some (zcell a i j)).
    { intros i j Hi Hj. destruct (lookup_lt_is_Some_2 a i Hi) as [row Hrow].
      assert (Hl : length row = cols).
      { rewrite Forall_forall in Hrect. apply Hrect. by eapply list_elem_of_lookup_2. }
      destruct (lookup_lt_is_Some_2 row j) as [x Hx]; [lia|].
      exists row. split; [done|]. by rewrite (zcell_lookup _ _ _ _ _ Hrow Hx). }
    unfold Assignment.np_max_array.
    destruct (concat a) as [|x0 l] eqn:Hcat.
    { destruct (Hcell 0 0 Hr Hc) as (row & Hi & Hj).
      assert (Hin : zcell a 0 0 ∈ concat a) by (apply zcell_concat; eauto).
      rewrite Hcat in Hin. by apply elem_of_nil in Hin. }
    simpl. set (max_value := foldl Z.max x0 l).
    destruct (foldl_Z_max_spec l x0) as [Hmax_in Hmax_le].
    fold max_value in Hmax_in, Hmax_le. rewrite <- Hcat in Hmax_in, Hmax_le.
    assert (Hfloat : Forall (λ row : list Z, Assignment.np_float64 <$> row = row) a).
    { eapply Forall_impl; [exact Hbound|]. intros row Hrow. simpl in *.
      rewrite <- (list_fmap_id row) at 2. apply Forall_fmap_ext_1.
      eapply Forall_impl; [exact Hrow|]. intros c Hc'. simpl in *.
      apply np_float64_small. lia. }
    rewrite (Forall_fmap_ext_1
               (λ row : list Z, (Assignment.np_float64 <$> row) ++ replicate (rows - cols) 0%Z)
               (λ row : list Z, row ++ replicate (rows - cols) 0%Z) a)
      by (eapply Forall_impl; [exact Hfloat|]; intros row Hrow; simpl in *;
          by rewrite Hrow).
    rewrite (Forall_fmap_ext_1 (λ row : list Z, Assignment.np_float64 <$> row) id a),
      list_fmap_id by done.
    set (costs1 := if decide (cols < rows) then _ else _).
    assert (H1 : length costs1 = rows `max` cols ∧
                 Forall (λ row, length row = rows `max` cols) costs1 ∧
                 ∀ i j, i < rows `max` cols → j < rows `max` cols →
                   ∃ row, costs1 !! i = Some row ∧
                          row !! j = Some (if decide (i < rows ∧ j < cols)
                                           then zcell a i j else 0%Z)).
    { unfold costs1. destruct (decide (cols < rows)) as [Hgt|Hle].
      - split_and!.
        + rewrite length_fmap. fold rows. lia.
        + apply Forall_fmap. eapply Forall_impl; [exact Hrect|].
          intros row Hrow. simpl in *. rewrite length_app, length_replicate. lia.
        + intros i j Hi Hj. assert (Hi' : i < rows) by lia.
          destruct (lookup_lt_is_Some_2 a i Hi') as [row Hrow].
          assert (Hl : length row = cols).
          { rewrite Forall_forall in Hrect. apply Hrect. by eapply list_elem_of_lookup_2. }
          exists (row ++ replicate (rows - cols) 0%Z).
          split; [by rewrite list_lookup_fmap, Hrow|].
          destruct (decide (j < cols)) as [Hjc|Hjc].
          * rewrite decide_True by done. rewrite lookup_app_l by lia.
            destruct (lookup_lt_is_Some_2 row j) as [x Hx]; [lia|].
            by rewrite Hx, (zcell_lookup _ _ _ _ _ Hrow Hx).
          * rewrite decide_False by (intros [_ ?]; lia).
            rewrite lookup_app_r by lia. apply lookup_replicate_2. lia.
      - destruct (decide (rows < cols)) as [Hlt|Hge].
        + split_and!.
          * rewrite length_app, length_replicate. fold rows. lia.
          * apply Forall_app. split.
            -- eapply Forall_impl; [exact Hrect|]. intros row Hrow. simpl in *. lia.
            -- apply Forall_replicate. rewrite length_replicate. lia.
          * intros i j Hi Hj. destruct (decide (i < rows)) as [Hir|Hir].
            -- destruct (Hcell i j Hir) as (row & Hrow & Hx); [lia|].
               exists row. split; [by rewrite lookup_app_l|].
               rewrite decide_True by (split; [done|lia]). done.
            -- exists (replicate cols 0%Z). split.
               ++ rewrite lookup_app_r by (fold rows; lia).
                  apply lookup_replicate_2. fold rows. lia.
               ++ rewrite decide_False by (intros [? _]; lia).
                  apply lookup_replicate_2. lia.
        + assert (Heq : rows = cols) by lia. split_and!.
          * fold rows. lia.
          * eapply Forall_impl; [exact Hrect|]. intros row Hrow. simpl in *. lia.
          * intros i j Hi Hj. destruct (Hcell i j) as (row & Hrow & Hx); [lia..|].
            exists row. split; [done|]. rewrite decide_True by lia. done. }
    destruct H1 as (Hsize & Hrows & Hcells).
    eexists _, max_value. split; [reflexivity|]. simpl. split; [done|].
    unfold Assignment.size. simpl.
    apply zcell_concat in Hmax_in as (i0 & j0 & row & Hi0 & Hj0).
    assert (Hi0' : i0 < rows) by (by eapply lookup_lt_Some).
    assert (Hj0' : j0 < cols).
    { apply lookup_lt_Some in Hj0. rewrite Forall_forall in Hrect.
      rewrite (Hrect row) in Hj0; [done|]. by eapply list_elem_of_lookup_2. }
    assert (Hle : ∀ i j, i < rows → j < cols → (zcell a i j ≤ max_value)%Z).
    { intros i j Hi Hj. destruct (Hcell i j Hi Hj) as (row' & Hrow' & Hx).
      rewrite Forall_forall in Hmax_le. apply Hmax_le. apply zcell_concat. eauto. }
    assert (Hsmall : ∀ i j, i < rows → j < cols → (Z.abs (zcell a i j) < 2 ^ 52)%Z).
    { intros i j Hi Hj. destruct (Hcell i j Hi Hj) as (row' & Hrow' & Hx).
      rewrite Forall_forall in Hbound.
      pose proof (Hbound row' (list_elem_of_lookup_2 _ _ _ Hrow')) as Hb.
      rewrite Forall_forall in Hb. apply Hb. by eapply list_elem_of_lookup_2. }
    destruct (Assignment.objective_is_min problem).
    + split_and!; [done|done| |done|].
      * exists i0, j0. split_and!; [done|done|]. by eapply zcell_lookup.
      * intros i j Hi Hj. destruct (Hcells i j Hi Hj) as (row' & Hrow' & Hx).
        by rewrite (zcell_lookup _ _ _ _ _ Hrow' Hx).
    + split_and!.
      * by rewrite length_fmap.
      * apply Forall_fmap. eapply Forall_impl; [exact Hrows|].
        intros row' Hrow'. simpl in *. by rewrite length_fmap.
      * exists i0, j0. split_and!; [done|done|]. by eapply zcell_lookup.
      * done.
      * intros i j Hi Hj. destruct (Hcells i j Hi Hj) as (row' & Hrow' & Hx).
        unfold zcell at 1. rewrite list_lookup_fmap, Hrow'. simpl.
        rewrite list_lookup_fmap, Hx. simpl.
        assert (Hmax : (Z.abs max_value < 2 ^ 52)%Z).
        { rewrite <- (zcell_lookup _ _ _ _ _ Hi0 Hj0). by apply Hsmall. }
        set (x := if decide (i < rows ∧ j < cols) then zcell a i j else 0%Z).
        assert (Hx52 : (Z.abs x < 2 ^ 52)%Z).
        { unfold x. case_decide as Hin; [apply Hsmall; lia|done]. }
        assert (H53 : (2 ^ 53 = 2 * 2 ^ 52)%Z) by done.
        assert (H63 : (2 ^ 63 = 2048 * 2 ^ 52)%Z) by done.
        destruct (decide (rows = cols)) as [Heq|Hne].
        -- apply wrap64_small. lia.
        -- rewrite (np_float64_small max_value) by lia.
           apply np_float64_small. lia.
Qed.

Lemma from_problem_result_witness :
  let problem :=
    Assignment.mkAssignmentProblem "profits" [[1; 5; 3]; [4; 2; 6]]%Z false in
  let a := Assignment.costs problem in
  let rows := length a in
  let no_rows := Assignment.mkAssignmentProblem "empty" [] true in
  let no_cells := Assignment.mkAssignmentProblem "empty" [[]; []] true in
  (Forall (λ row, length row = 3) a ∧ 0 < rows ∧ 0 < 3 ∧
   Forall (Forall (λ c, (Z.abs c < 2 ^ 52)%Z)) a ∧
   ∃ n max_value,
     Assignment.from_problem problem = Ok n ∧
     Assignment.original_problem n = problem ∧
     Assignment.size n = rows `max` 3 ∧
     Forall (λ row, length row = rows `max` 3) (Assignment.n_costs n) ∧
     (∃ i j, i < rows ∧ j < 3 ∧ zcell a i j = max_value) ∧
     (∀ i j, i < rows → j < 3 → (zcell a i j ≤ max_value)%Z) ∧
     (∀ i j, i < rows `max` 3 → j < rows `max` 3 →
        zcell (Assignment.n_costs n) i j
        = let x := if decide (i < rows ∧ j < 3) then zcell a i j else 0%Z in
          if Assignment.objective_is_min problem then x else (max_value - x)%Z)) ∧
  (Forall (λ row : list Z, length row = 0) (Assignment.costs no_rows) ∧
   length (Assignment.costs no_rows) = 0 ∧
   Assignment.from_problem no_rows = Err IndexError) ∧
  (Forall (λ row : list Z, length row = 0) (Assignment.costs no_cells) ∧
   0 < length (Assignment.costs no_cells) ∧
   Assignment.from_problem no_cells = Err ValueError).
Proof.
  intros problem a rows no_rows no_cells.
  assert (Hrect : Forall (λ row, length row = 3) a) by (repeat constructor).
  assert (Hrows : 0 < rows) by (vm_compute; lia).
  assert (Hcols : 0 < 3) by lia.
  assert (Hbound : Forall (Forall (λ c, (Z.abs c < 2 ^ 52)%Z)) a)
    by (repeat constructor).
  assert (H0 : Forall (λ row : list Z, length row = 0) (Assignment.costs no_rows))
    by constructor.
  assert (H1 : Forall (λ row : list Z, length row = 0) (Assignment.costs no_cells))
    by (repeat constructor).
  assert (H2 : 0 < length (Assignment.costs no_cells)) by (simpl; lia).
  split; [|split].
  - split; [exact Hrect|]. split; [exact Hrows|]. split; [exact Hcols|].
    split; [exact Hbound|].
    exact (proj2 (proj2 (from_problem_result problem 3 Hrect)) Hrows Hcols Hbound).
  - split; [exact H0|]. split; [reflexivity|].
    exact (proj1 (from_problem_result no_rows 0 H0) eq_refl).
  - split; [exact H1|]. split; [exact H2|].
    exact (proj1 (proj2 (from_problem_result no_cells 0 H1)) H2 eq_refl).
Defined.

(** ** Comparison matrices (lab12_13 ahp.py) *)

Lemma mapM_Ok_fmap {A B} (f : A → result B) (g : A → B) (l : list A) :
  (∀ x, x ∈ l → f x = Ok (g x)) → mapM f l = Ok (g <$> l).
Proof.
  induction l as [|x l IH]; intros Hf; [done|]. cbn [mapM].
  rewrite (Hf x) by (by left). rewrite IH; [done|].
  intros y Hy. apply Hf. by right.
Qed.

Lemma mapM_Err_all {A B} (f : A → result B) (e : error) (l : list A) :
  (∀ x e', x ∈ l → f x = Err e' → e' = e) →
  (∃ x, x ∈ l ∧ f x = Err e) → mapM f l = Err e.
Proof.
  induction l as [|x l IH]; intros Hall (y & Hy & Hfy); [by apply elem_of_nil in Hy|].
  cbn [mapM]. destruct (f x) as [b|e'] eqn:Hfx; simpl.
  - rewrite IH; [done| |].
    + intros z e'' Hz. apply Hall. by right.
    + apply elem_of_cons in Hy as [->|Hy]; [congruence|]. by exists y.
  - f_equal. eapply Hall; [by left|done].
Qed.

Lemma snd_imap_pair {A} (l : list A) : snd <$> imap pair l = l.
Proof.
  apply list_eq. intros i. rewrite list_lookup_fmap, list_lookup_imap.
  by destruct (l !! i).
Qed.

Lemma elem_of_imap_pair {A} (l : list A) (p : nat * A) :
  p ∈ imap pair l ↔ l !! p.1 = Some p.2.
Proof.
  rewrite list_elem_of_lookup. split.
  - intros [i Hi]. rewrite list_lookup_imap in Hi.
    destruct (l !! i) as [x|] eqn:E; [|done]. simpl in Hi. by injection Hi as <-.
  - intros Hp. exists p.1. rewrite list_lookup_imap, Hp. by destruct p.
Qed.

Lemma cell_tabulate (F : nat → nat → Qc) (n i j : nat) :
  i < n → j < n →
  cell ((λ row, F row <$> seq 0 n) <$> seq 0 n) i j = F i j.
Proof.
  intros Hi Hj. unfold cell.
  rewrite list_lookup_fmap, lookup_seq_lt by done. simpl.
  by rewrite list_lookup_fmap, lookup_seq_lt.
Qed.

(** The array after the first loop of
    [fill_comparison_matrix_from_upper_triangular]. *)
Lemma eye_with_upper_cells (upper : list (list Qc)) :
  let cm1 := imap (λ row values, replicate row 0%Qc ++ [1%Qc] ++ values) upper
             ++ [replicate (length upper + 1 - 1) 0%Qc ++ [1%Qc]] in
  (∀ i, i < length upper + 1 → cell cm1 i i = 1%Qc) ∧
  (∀ i j row x, i < j → upper !! i = Some row → row !! (j - i - 1) = Some x →
                cell cm1 i j = x).
Proof.
  intros cm1. split.
  - intros i Hi. unfold cell, cm1.
    destruct (decide (i < length upper)) as [Hlt|Hge].
    + destruct (lookup_lt_is_Some_2 upper i Hlt) as [row Hrow].
      rewrite lookup_app_l by (by rewrite length_imap).
      rewrite list_lookup_imap, Hrow. simpl.
      rewrite (list_lookup_middle (replicate i 0%Qc)); [done|].
      by rewrite length_replicate.
    + assert (Hi' : i = length upper) by lia. subst i.
      rewrite lookup_app_r by (by rewrite length_imap).
      rewrite length_imap, Nat.sub_diag. simpl.
      rewrite (list_lookup_middle (replicate _ 0%Qc)); [done|].
      rewrite length_replicate. lia.
  - intros i j row x Hij Hrow Hx. unfold cell, cm1.
    assert (Hlt : i < length upper) by (by eapply lookup_lt_Some).
    rewrite lookup_app_l by (by rewrite length_imap).
    rewrite list_lookup_imap, Hrow. simpl.
    rewrite lookup_app_r by (rewrite length_replicate; lia).
    rewrite length_replicate.
    replace (j - i) with (S (j - i - 1)) by lia. simpl. by rewrite Hx.
Qed.

(** X15.  On the upper triangular part of a matrix (row [i] holds
    [len - i] numbers, none of them 0)
    [fill_comparison_matrix_from_upper_triangular] returns a square
    matrix of one more row than the input, with 1 on the diagonal, the input
    above the diagonal, and below the diagonal the quotient [1 / x] of the
    mirror cell [x].  A row of another length, apart from the length 1 that
    numpy repeats, raises ValueError. *)
Theorem fill_comparison_matrix_result (upper_triangular : list (list Qc)) :
  let size := length upper_triangular + 1 in
  ((∀ i row, upper_triangular !! i = Some row → length row = size - 1 - i) →
   Forall (Forall (λ x, x ≠ 0%Qc)) upper_triangular →
   ∃ cm,
     Ahp.fill_comparison_matrix_from_upper_triangular upper_triangular = Ok cm ∧
     length cm = size ∧ Forall (λ row, length row = size) cm ∧
     (∀ i, i < size → cell cm i i = 1%Qc) ∧
     (∀ i j row x, i < j → upper_triangular !! i = Some row →
                   row !! (j - i - 1) = Some x →
                   cell cm i j = x ∧ cell cm j i = (1 / x)%Qc)) ∧
  (∀ i row, upper_triangular !! i = Some row →
            length row ≠ size - 1 - i → length row ≠ 1 →
            Ahp.fill_comparison_matrix_from_upper_triangular upper_triangular
            = Err ValueError).
Proof.
  intros size. unfold Ahp.fill_comparison_matrix_from_upper_triangular. fold size.
  split.
  2:{ intros i row Hrow Hlen Hone.
      rewrite (mapM_Err_all _ ValueError); [done| |].
      - intros [k r] e' _. unfold Ahp.assign_slice. simpl.
        case_decide; [done|]. destruct r as [|? [|? ?]]; by intros [= <-].
      - exists (i, row). split; [by apply elem_of_imap_pair|].
        unfold Ahp.assign_slice. simpl. rewrite decide_False by done.
        destruct row as [|? [|? ?]]; done. }
  intros Hlen Hnz.
  rewrite (mapM_Ok_fmap _ snd).
  2:{ intros [i row] Hin. apply elem_of_imap_pair in Hin. simpl in *.
      unfold Ahp.assign_slice. by rewrite decide_True by (by apply Hlen). }
  rewrite snd_imap_pair. simpl.
  set (cm1 := imap _ upper_triangular ++ _).
  assert (Hdiag : ∀ i, i < size → cell cm1 i i = 1%Qc)
    by apply (eye_with_upper_cells upper_triangular).
  assert (Hupper : ∀ i j row x, i < j → upper_triangular !! i = Some row →
                     row !! (j - i - 1) = Some x → cell cm1 i j = x)
    by apply (eye_with_upper_cells upper_triangular).
  assert (Hex : ∀ i j, i < j → j < size →
            ∃ row x, upper_triangular !! i = Some row ∧
                     row !! (j - i - 1) = Some x ∧ x ≠ 0%Qc).
  { intros i j Hij Hj.
    destruct (lookup_lt_is_Some_2 upper_triangular i) as [row Hrow];
      [unfold size in Hj; lia|].
    destruct (lookup_lt_is_Some_2 row (j - i - 1)) as [x Hx];
      [rewrite (Hlen i row Hrow); lia|].
    exists row, x. split_and!; [done|done|].
    rewrite Forall_forall in Hnz.
    specialize (Hnz row (list_elem_of_lookup_2 _ _ _ Hrow)).
    rewrite Forall_forall in Hnz. apply Hnz. by eapply list_elem_of_lookup_2. }
  set (G := λ row col, if decide (col < row) then (1 / cell cm1 col row)%Qc
                       else cell cm1 row col).
  rewrite (mapM_Ok_fmap _ (λ row, G row <$> seq 0 size)).
  2:{ intros row Hrow%elem_of_seq. apply mapM_Ok_fmap.
      intros col Hcol%elem_of_seq. unfold G. case_decide as Hlt; [|done].
      destruct (Hex col row) as (r & x & Hr & Hx & Hx0); [lia..|].
      rewrite (Hupper col row r x) by done. by rewrite decide_False. }
  eexists. split; [reflexivity|].
  assert (Hcell : ∀ i j, i < size → j < size →
            cell ((λ row, G row <$> seq 0 size) <$> seq 0 size) i j = G i j)
    by (intros; by apply cell_tabulate).
  split_and!.
  - by rewrite length_fmap, length_seq.
  - apply Forall_fmap, Forall_forall. intros row _. simpl.
    by rewrite length_fmap, length_seq.
  - intros i Hi. rewrite Hcell by done. unfold G.
    rewrite decide_False by lia. by apply Hdiag.
  - intros i j row x Hij Hrow Hx.
    assert (Hj : j < size).
    { apply lookup_lt_Some in Hx. rewrite (Hlen i row Hrow) in Hx. lia. }
    rewrite !Hcell by lia. unfold G.
    rewrite decide_False by lia. rewrite decide_True by lia.
    by rewrite (Hupper i j row x).
Qed.

Lemma fill_comparison_matrix_result_witness :
  let u := [[num 2; num 3]; [num 4]] in
  let size := length u + 1 in
  let u' := [[num 2; num 3; num 5]; [num 4]] in
  ((∀ i row, u !! i = Some row → length row = size - 1 - i) ∧
   Forall (Forall (λ x, x ≠ 0%Qc)) u ∧
   ∃ cm,
     Ahp.fill_comparison_matrix_from_upper_triangular u = Ok cm ∧
     length cm = size ∧ Forall (λ row, length row = size) cm ∧
     (∀ i, i < size → cell cm i i = 1%Qc) ∧
     (∀ i j row x, i < j → u !! i = Some row →
                   row !! (j - i - 1) = Some x →
                   cell cm i j = x ∧ cell cm j i = (1 / x)%Qc)) ∧
  (u' !! 0 = Some [num 2; num 3; num 5] ∧
   length [num 2; num 3; num 5] ≠ length u' + 1 - 1 - 0 ∧
   length [num 2; num 3; num 5] ≠ 1 ∧
   Ahp.fill_comparison_matrix_from_upper_triangular u' = Err ValueError).
Proof.
  intros u size u'.
  assert (H1 : ∀ i row, u !! i = Some row → length row = size - 1 - i).
  { intros [|[|i]] row Hr; try done; by injection Hr as <-. }
  assert (H2 : Forall (Forall (λ x, x ≠ 0%Qc)) u).
  { repeat (apply Forall_cons_2 || apply Forall_nil_2);
      intros H; vm_compute in H; discriminate H. }
  assert (H3 : length [num 2; num 3; num 5] ≠ length u' + 1 - 1 - 0)
    by (simpl; lia).
  assert (H4 : length [num 2; num 3; num 5] ≠ 1) by (simpl; lia).
  split.
  - split; [exact H1|]. split; [exact H2|].
    exact (proj1 (fill_comparison_matrix_result u) H1 H2).
  - split; [reflexivity|]. split; [exact H3|]. split; [exact H4|].
    exact (proj2 (fill_comparison_matrix_result u') 0 _ eq_refl H3 H4).
Defined.

Lemma triples_spec n i j k :
  (i, j, k) ∈ Ahp.triples n ↔ i < j ∧ j < k ∧ k < n.
Proof.
  unfold Ahp.triples. rewrite list_elem_of_bind. split.
  - intros (i' & Hin & Hi%elem_of_seq).
    apply list_elem_of_bind in Hin as (j' & Hin & Hj%elem_of_seq).
    apply list_elem_of_bind in Hin as (k' & Hin & Hk%elem_of_seq).
    apply list_elem_of_singleton in Hin as [= -> -> ->]. lia.
  - intros (Hij & Hjk & Hk). exists i. split; [|apply elem_of_seq; lia].
    apply list_elem_of_bind. exists j. split; [|apply elem_of_seq; lia].
    apply list_elem_of_bind. exists k. split; [|apply elem_of_seq; lia].
    by apply list_elem_of_singleton.
Qed.

Lemma Qc_pos_ne (a : Qc) : (0 < a)%Qc → a ≠ 0%Qc.
Proof. intros Ha ->. by apply Qclt_not_eq in Ha. Qed.

Lemma Qc_div_pos (a b : Qc) : (0 < a → 0 < b → 0 < a / b)%Qc.
Proof. intros Ha Hb. apply Qcmult_pos_pos; [done|by apply Qcinv_pos]. Qed.

Lemma Qc_div_le_1 (a b : Qc) : (0 < b → a ≤ b → a / b ≤ 1)%Qc.
Proof.
  intros Hb Hab. rewrite <- (Qcmult_inv_r b) by (by apply Qc_pos_ne).
  apply Qcmult_le_compat_r; [done|]. by apply Qclt_le_weak, Qcinv_pos.
Qed.

Lemma Qc_sub_lt (x p : Qc) : (0 < p → x - p < x)%Qc.
Proof.
  intros Hp. apply Qclt_minus_iff.
  by replace (x + - (x - p))%Qc with p by ring.
Qed.

Lemma Qc_abs_of_nonneg (x : Qc) : (0 ≤ x)%Qc → Qc_abs x = x.
Proof. intros Hx. unfold Qc_abs. by rewrite decide_True. Qed.

Lemma Qc_min_cases (a b : Qc) :
  (Qc_min a b = a ∧ (a ≤ b)%Qc) ∨ (Qc_min a b = b ∧ (b ≤ a)%Qc).
Proof.
  unfold Qc_min. case_decide as H; [by left|right].
  split; [done|]. by apply Qclt_le_weak, Qcnot_le_lt.
Qed.

(** The local index of a triple of positive cells lies between 0 and 1,
    and is 0 when the triple is consistent. *)
Lemma koczkodaj_local_bound (a b : Qc) :
  (0 < a)%Qc → (0 < b)%Qc →
  let v := Qc_min (Qc_abs (1 - a / b)) (Qc_abs (1 - b / a)) in
  (0 ≤ v)%Qc ∧ (v ≤ 1)%Qc ∧ (a = b → v = 0%Qc).
Proof.
  intros Ha Hb v.
  assert (Hsmall : ∀ x y : Qc, (0 < x)%Qc → (0 < y)%Qc → (x ≤ y)%Qc →
            (Qc_abs (1 - x / y) < 1)%Qc).
  { intros x y Hx Hy Hxy. rewrite Qc_abs_of_nonneg.
    - by apply Qc_sub_lt, Qc_div_pos.
    - apply Qc_sub_nonneg. by apply Qc_div_le_1. }
  split_and!.
  - unfold v. destruct (Qc_min_cases (Qc_abs (1 - a / b)) (Qc_abs (1 - b / a)))
      as [[-> _]|[-> _]]; apply Qc_abs_nonneg.
  - apply Qclt_le_weak.
    unfold v. destruct (Qc_min_cases (Qc_abs (1 - a / b)) (Qc_abs (1 - b / a)))
      as [[-> Hle]|[-> Hle]].
    + destruct (Qclt_le_dec b a) as [Hlt|Hab].
      * eapply Qcle_lt_trans; [exact Hle|].
        apply Hsmall; [done..|by apply Qclt_le_weak].
      * by apply Hsmall.
    + destruct (Qclt_le_dec a b) as [Hlt|Hba].
      * eapply Qcle_lt_trans; [exact Hle|].
        apply Hsmall; [done..|by apply Qclt_le_weak].
      * by apply Hsmall.
  - intros <-. unfold v.
    replace (1 - a / a)%Qc with 0%Qc by (field; by apply Qc_pos_ne).
    by vm_compute.
Qed.

(** X16.  [koczkodaj_index] raises ValueError on a matrix of fewer than
    three rows.  On a square matrix of positive cells with three rows or
    more it returns a value between 0 and 1, which is 0 when every triple
    [i < j < k] is consistent: [c[i, k] * c[k, j] = c[i, j]]. *)
Theorem koczkodaj_index_result (c : list (list Qc)) :
  let n := length c in
  (n < 3 → Ahp.koczkodaj_index c = Err ValueError) ∧
  (3 ≤ n →
   Forall (λ row, length row = n ∧ Forall (λ x, 0 < x)%Qc row) c →
   ∃ v,
     Ahp.koczkodaj_index c = Ok v ∧ (0 ≤ v)%Qc ∧ (v ≤ 1)%Qc ∧
     ((∀ i j k, i < j → j < k → k < n →
                (cell c i k * cell c k j)%Qc = cell c i j) →
      v = 0%Qc)).
Proof.
  intros n. unfold Ahp.koczkodaj_index. fold n. split.
  - intros Hn. assert (Hnil : Ahp.triples n = []).
    { destruct (Ahp.triples n) as [|[[i j] k] l] eqn:E; [done|].
      assert (Hin : (i, j, k) ∈ Ahp.triples n) by (rewrite E; left).
      apply triples_spec in Hin. lia. }
    by rewrite Hnil.
  - intros Hn Hpos.
    assert (Hcell : ∀ i j, i < n → j < n →
              Ahp.getitem2 c i j = Ok (cell c i j) ∧ (0 < cell c i j)%Qc).
    { intros i j Hi Hj. unfold Ahp.getitem2, cell.
      destruct (lookup_lt_is_Some_2 c i Hi) as [row Hrow]. rewrite Hrow. simpl.
      rewrite Forall_forall in Hpos.
      destruct (Hpos row (list_elem_of_lookup_2 _ _ _ Hrow)) as [Hlen Hrowpos].
      destruct (lookup_lt_is_Some_2 row j) as [x Hx]; [lia|]. rewrite Hx. simpl.
      split; [done|]. rewrite Forall_forall in Hrowpos.
      apply Hrowpos. by eapply list_elem_of_lookup_2. }
    set (g := λ t : nat * nat * nat,
                let '(i, j, k) := t in
                Qc_min (Qc_abs (1 - cell c i j / (cell c i k * cell c k j)))
                       (Qc_abs (1 - (cell c i k * cell c k j) / cell c i j))).
    rewrite (mapM_Ok_fmap _ g).
    2:{ intros [[i j] k] Hin%triples_spec. unfold Ahp.local_koczkodaj.
        destruct (Hcell i j) as [-> Hij]; [lia..|].
        destruct (Hcell i k) as [-> Hik]; [lia..|].
        destruct (Hcell k j) as [-> Hkj]; [lia..|]. simpl.
        rewrite decide_False; [done|].
        intros [H|H]; [|by apply Qc_pos_ne in Hij].
        by apply (Qc_pos_ne _ (Qcmult_pos_pos _ _ Hik Hkj)). }
    simpl.
    assert (Hloc : ∀ i j k, i < j → j < k → k < n →
              (0 ≤ g (i, j, k))%Qc ∧ (g (i, j, k) ≤ 1)%Qc ∧
              ((cell c i k * cell c k j)%Qc = cell c i j → g (i, j, k) = 0%Qc)).
    { intros i j k Hij Hjk Hk.
      destruct (Hcell i j) as [_ Ha]; [lia..|].
      destruct (Hcell i k) as [_ Hik]; [lia..|].
      destruct (Hcell k j) as [_ Hkj]; [lia..|].
      destruct (koczkodaj_local_bound _ _ Ha (Qcmult_pos_pos _ _ Hik Hkj))
        as (H0 & H1 & Hz).
      split_and!; [done|done|]. simpl. intros Heq. by apply Hz. }
    destruct (np_max (g <$> Ahp.triples n)) as [v|] eqn:Hmax.
    2:{ assert (Hin : (0, 1, 2) ∈ Ahp.triples n) by (apply triples_spec; lia).
        destruct (Ahp.triples n); [by apply elem_of_nil in Hin|done]. }
    destruct (np_max_spec _ _ Hmax) as [Hv Hle].
    apply list_elem_of_fmap in Hv as ([[i0 j0] k0] & -> & Hin0%triples_spec).
    destruct Hin0 as (H1 & H2 & H3).
    destruct (Hloc i0 j0 k0 H1 H2 H3) as (Hv0 & Hv1 & Hvz).
    eexists. split; [reflexivity|]. split_and!; [done|done|].
    intros Hcons. apply Hvz. by apply Hcons.
Qed.

Lemma koczkodaj_index_result_witness :
  let c := [[num 1; num 2; num 3];
            [frac 1 2; num 1; num 4];
            [frac 1 3; frac 1 4; num 1]] in
  let n := length c in
  let c2 := [[num 1; num 2]; [frac 1 2; num 1]] in
  (3 ≤ n ∧
   Forall (λ row, length row = n ∧ Forall (λ x, 0 < x)%Qc row) c ∧
   ∃ v,
     Ahp.koczkodaj_index c = Ok v ∧ (0 ≤ v)%Qc ∧ (v ≤ 1)%Qc ∧
     ((∀ i j k, i < j → j < k → k < n →
                (cell c i k * cell c k j)%Qc = cell c i j) →
      v = 0%Qc)) ∧
  (length c2 < 3 ∧ Ahp.koczkodaj_index c2 = Err ValueError).
Proof.
  intros c n c2.
  assert (Hn : 3 ≤ n) by (vm_compute; lia).
  assert (Hpos : Forall (λ row, length row = n ∧ Forall (λ x, 0 < x)%Qc row) c).
  { repeat (apply Forall_cons_2 || apply Forall_nil_2 || split). }
  assert (H2 : length c2 < 3) by (vm_compute; lia).
  split.
  - split; [exact Hn|]. split; [exact Hpos|].
    exact (proj2 (koczkodaj_index_result c) Hn Hpos).
  - split; [exact H2|].
    exact (proj1 (koczkodaj_index_result c2) H2).
Defined.

(** ** [extract_basis] on a canonical tableaux *)

Lemma np_min_intro l m :
  m ∈ l → Forall (λ x, m ≤ x)%Qc l → np_min l = Some m.
Proof.
  intros Hin Hall.
  destruct (np_min l) as [m'|] eqn:E; [|by destruct l; [apply elem_of_nil in Hin|]].
  destruct (np_min_spec _ _ E) as [Hin' Hall']. f_equal.
  rewrite Forall_forall in Hall, Hall'.
  apply Qcle_antisym; [by apply Hall'|by apply Hall].
Qed.

Lemma np_max_intro l m :
  m ∈ l → Forall (λ x, x ≤ m)%Qc l → np_max l = Some m.
Proof.
  intros Hin Hall.
  destruct (np_max l) as [m'|] eqn:E; [|by destruct l; [apply elem_of_nil in Hin|]].
  destruct (np_max_spec _ _ E) as [Hin' Hall']. f_equal.
  rewrite Forall_forall in Hall, Hall'.
  apply Qcle_antisym; [by apply Hall|by apply Hall'].
Qed.

Lemma Qc_sum_zeros l : Forall (λ x, x = 0%Qc) l → Qc_sum l = 0%Qc.
Proof.
  induction 1 as [|x l -> _ IH]; [done|]. rewrite Qc_sum_cons, IH. ring.
Qed.

Lemma Qc_sum_unit l r :
  l !! r = Some 1%Qc → (∀ i x, i ≠ r → l !! i = Some x → x = 0%Qc) →
  Qc_sum l = 1%Qc.
Proof.
  revert r. induction l as [|y l IH]; intros r Hr Hz; [done|].
  rewrite Qc_sum_cons. destruct r as [|r]; simpl in Hr.
  - injection Hr as ->. rewrite Qc_sum_zeros; [ring|].
    apply Forall_forall. intros x Hx. apply list_elem_of_lookup in Hx as [i Hi].
    by apply (Hz (S i) x).
  - rewrite (Hz 0 y) by done. rewrite (IH r Hr); [ring|].
    intros i x Hi Hx. apply (Hz (S i) x); [lia|done].
Qed.

Lemma Qc_sum_nonneg_zero l :
  Forall (λ x, 0 ≤ x)%Qc l → Qc_sum l = 0%Qc → Forall (λ x, x = 0%Qc) l.
Proof.
  induction 1 as [|x l Hx Hl IH]; [constructor|]. rewrite Qc_sum_cons. intros Hs.
  assert (Hsum : (0 ≤ Qc_sum l)%Qc).
  { clear -Hl. induction Hl as [|y l Hy _ IH]; [done|]. rewrite Qc_sum_cons.
    replace 0%Qc with (0 + 0)%Qc by ring. by apply Qcplus_le_compat. }
  assert (Hx0 : x = 0%Qc).
  { apply Qcle_antisym; [|done]. rewrite <- Hs.
    replace x with (x + 0)%Qc at 1 by ring.
    apply Qcplus_le_compat; [apply Qcle_refl|done]. }
  subst x. constructor; [done|]. apply IH. rewrite <- Hs. ring.
Qed.

Lemma column_length tb c : length (column tb c) = nrows tb.
Proof. unfold column, nrows. by rewrite length_fmap. Qed.

(** A basic column passes the test of [extract_basis], for its row. *)
Lemma unit_column_belongs tb k r :
  unit_column tb k r → cell tb 0 k = 0%Qc →
  belongs_to_basis (column tb k) = true ∧
  where_one (column tb k) !! 0 = Some r.
Proof.
  intros [[Hr1 Hr2] Hunit] Hcost.
  assert (Hcells : ∀ i x, column tb k !! i = Some x →
            x = if decide (i = r) then 1%Qc else 0%Qc).
  { intros i x Hx. assert (Hi : i < nrows tb).
    { apply lookup_lt_Some in Hx. by rewrite column_length in Hx. }
    rewrite column_lookup in Hx by done. injection Hx as <-.
    destruct i as [|i]; [by rewrite decide_False by lia|]. apply Hunit. lia. }
  assert (H1 : column tb k !! r = Some 1%Qc).
  { rewrite column_lookup by done. f_equal. rewrite Hunit by lia.
    by rewrite decide_True. }
  assert (H0 : column tb k !! 0 = Some 0%Qc).
  { rewrite column_lookup by lia. by f_equal. }
  split.
  - unfold belongs_to_basis. rewrite !andb_true_iff, !bool_decide_eq_true.
    split_and!.
    + apply np_min_intro; [by eapply list_elem_of_lookup_2|].
      apply Forall_forall. intros x Hx. apply list_elem_of_lookup in Hx as [i Hi].
      rewrite (Hcells i x Hi). by case_decide.
    + apply np_max_intro; [by eapply list_elem_of_lookup_2|].
      apply Forall_forall. intros x Hx. apply list_elem_of_lookup in Hx as [i Hi].
      rewrite (Hcells i x Hi). by case_decide.
    + apply (Qc_sum_unit _ r H1). intros i x Hi Hx.
      rewrite (Hcells i x Hx). by rewrite decide_False.
  - apply where_one_at; [done|]. intros j Hj Hone.
    apply Hcells in Hone. rewrite decide_False in Hone by lia.
    by vm_compute in Hone.
Qed.

(** A column that passes the test of [extract_basis] and does not hold
    its 1 in the cost row holds it in a constraint row. *)
Lemma belongs_to_basis_constraint_row tb k :
  0 < nrows tb →
  belongs_to_basis (column tb k) = true →
  ((∀ r, 1 ≤ r < nrows tb → cell tb r k = 0%Qc) → cell tb 0 k ≠ 1%Qc) →
  1%Qc ∈ drop 1 (column tb k).
Proof.
  intros Hn Hbel Hno. unfold belongs_to_basis in Hbel.
  rewrite !andb_true_iff, !bool_decide_eq_true in Hbel.
  destruct Hbel as [[Hmin Hmax] Hsum].
  destruct (np_min_spec _ _ Hmin) as [_ Hge].
  destruct (np_max_spec _ _ Hmax) as [Hin _].
  destruct (column tb k) as [|x col] eqn:Hcol; [by apply elem_of_nil in Hin|].
  simpl. apply elem_of_cons in Hin as [Hx|Hin]; [|done].
  exfalso. subst x.
  assert (Hzero : Forall (λ x, x = 0%Qc) col).
  { apply Forall_cons in Hge as [_ Hge]. apply Qc_sum_nonneg_zero; [done|].
    rewrite Qc_sum_cons in Hsum.
    replace (Qc_sum col) with (1 + Qc_sum col - 1)%Qc by ring. rewrite Hsum. ring. }
  apply Hno.
  - intros r Hr. assert (Hc : column tb k !! r = Some (cell tb r k))
      by (apply column_lookup; lia).
    rewrite Hcol in Hc. destruct r as [|r]; [lia|]. simpl in Hc.
    rewrite Forall_forall in Hzero. apply Hzero.
    by eapply list_elem_of_lookup_2.
  - assert (Hc : column tb k !! 0 = Some (cell tb 0 k))
      by (by apply column_lookup).
    rewrite Hcol in Hc. simpl in Hc. by injection Hc.
Qed.

(** An entry of [basis] that is set stays set through the loop of
    [extract_basis], and a column that passes the test sets the entry of
    its row. *)
Lemma extract_basis_fold_set t (cols : list nat) (init : list Z) (i : nat) :
  length init = nrows (table t) - 1 → i < length init →
  ((∃ z, init !! i = Some z ∧ z ≠ (-1)%Z) ∨
   (∃ c, c ∈ cols ∧ belongs_to_basis (column (table t) c) = true ∧
         where_one (column (table t) c) !! 0 = Some (S i))) →
  ∀ basis,
    foldl (λ (acc : result (list Z)) c,
             basis ← acc;
             let column := column (table t) c in
             if belongs_to_basis column then
               row ← from_option IndexError (where_one column !! 0);
               py_setitem basis (Z.of_nat row - 1) (Z.of_nat c)
             else Ok basis)
          (Ok init) cols = Ok basis →
    ∃ z, basis !! i = Some z ∧ z ≠ (-1)%Z.
Proof.
  set (step := λ (acc : result (list Z)) (c : nat), _).
  revert init. induction cols as [|c cols IH]; intros init Hlen Hi Hcase basis.
  - simpl. intros [= <-]. destruct Hcase as [?|(c & Hc & _)]; [done|].
    by apply elem_of_nil in Hc.
  - cbn [foldl].
    destruct (step (Ok init) c) as [init'|e] eqn:Hstep.
    2:{ assert (Herr : ∀ l, foldl step (Err e) l = Err e)
          by (induction l; [done|]; by simpl).
        by rewrite Herr. }
    assert (Hnext : length init' = nrows (table t) - 1 ∧
              ((∃ z, init' !! i = Some z ∧ z ≠ (-1)%Z) ∨
               (∃ c', c' ∈ cols ∧ belongs_to_basis (column (table t) c') = true ∧
                      where_one (column (table t) c') !! 0 = Some (S i)))).
    { unfold step in Hstep. simpl in Hstep.
      destruct (belongs_to_basis (column (table t) c)) eqn:Hb.
      2:{ injection Hstep as <-. split; [done|].
          destruct Hcase as [?|(c' & Hc' & Hb' & Hrow')]; [by left|].
          apply elem_of_cons in Hc' as [->|Hc']; [congruence|].
          right. by exists c'. }
      destruct (where_one (column (table t) c) !! 0) as [row|] eqn:Hrow; [|done].
      simpl in Hstep. unfold py_setitem in Hstep.
      destruct (py_index (length init) (Z.of_nat row - 1)) as [k|] eqn:Hk; [|done].
      injection Hstep as <-. split; [by rewrite length_insert|].
      destruct (decide (k = i)) as [->|Hki].
      { left. exists (Z.of_nat c). rewrite list_lookup_insert_eq by done.
        split; [done|lia]. }
      destruct Hcase as [(z & Hz & Hz1)|(c' & Hc' & Hb' & Hrow')].
      { left. exists z. by rewrite list_lookup_insert_ne. }
      apply elem_of_cons in Hc' as [->|Hc']; [|right; by exists c'].
      rewrite Hrow in Hrow'. injection Hrow' as ->.
      unfold py_index in Hk. rewrite decide_True in Hk by lia.
      injection Hk as <-. lia. }
    destruct Hnext as [Hlen' Hcase']. apply IH; [done|lia|done].
Qed.

(** On a canonical tableaux every entry of the extracted basis is a
    variable column that holds a 1 in a constraint row. *)
Lemma extract_basis_canonical t basis :
  canonical (table t) → extract_basis t = Ok basis →
  length basis = nrows (table t) - 1 ∧
  Forall (λ c, ∃ k, c = Z.of_nat k ∧ k < ncols (table t) - 1 ∧
                    1%Qc ∈ drop 1 (column (table t) k)) basis.
Proof.
  intros (Hwf & _ & Hbasis & Hno) Hb.
  destruct (extract_basis_spec t) as (basis' & Hb' & Hlen & Hall).
  rewrite Hb in Hb'. injection Hb' as <-. split; [done|].
  apply Forall_forall. intros c Hc.
  destruct (Hall c Hc) as [->|(k & -> & Hk & Hbel)].
  - exfalso. apply list_elem_of_lookup in Hc as [i Hi].
    assert (Hi' : i < nrows (table t) - 1) by (rewrite <- Hlen; by eapply lookup_lt_Some).
    destruct (Hbasis (S i)) as (k & Hk & Hunit & Hcost); [lia|].
    destruct (unit_column_belongs _ _ _ Hunit Hcost) as [Hbel Hrow].
    destruct (extract_basis_fold_set t (seq 0 (ncols (table t) - 1))
                (replicate (nrows (table t) - 1) (-1)%Z) i) with (basis := basis)
      as (z & Hz & Hz1).
    + by rewrite length_replicate.
    + by rewrite length_replicate.
    + right. exists k. split; [apply elem_of_seq; lia|done].
    + exact Hb.
    + rewrite Hi in Hz. by injection Hz as <-.
  - exists k. split_and!; [done|done|].
    apply belongs_to_basis_constraint_row; [by destruct Hwf|done|].
    intros Hz. by apply Hno.
Qed.

(** ** [_fix_missing_basis] writes to the cost row only (lab04, lines 182-191) *)

Lemma cell_drop_1 tb tb' r c :
  drop 1 tb' = drop 1 tb → 1 ≤ r → cell tb' r c = cell tb r c.
Proof.
  intros Hdrop Hr. unfold cell.
  replace r with (1 + (r - 1)) by lia. by rewrite <- !lookup_drop, Hdrop.
Qed.

Lemma feasible_drop_1 tb tb' :
  drop 1 tb' = drop 1 tb → nrows tb' = nrows tb → ncols tb' = ncols tb →
  feasible tb → feasible tb'.
Proof.
  intros Hdrop Hn Hm Hfeas r Hr. unfold rhs. rewrite Hm.
  rewrite (cell_drop_1 tb tb') by (done || lia). apply Hfeas. lia.
Qed.

Lemma fix_missing_basis_Ok t basis :
  wf_table (table t) → Forall (addresses_one (table t)) basis →
  ∃ t',
    Lab04._fix_missing_basis t basis = Ok t' ∧
    t_model t' = t_model t ∧ wf_table (table t') ∧
    nrows (table t') = nrows (table t) ∧ ncols (table t') = ncols (table t) ∧
    drop 1 (table t') = drop 1 (table t).
Proof.
  intros Hwf Hall. rewrite fix_missing_basis_unfold.
  set (init := default [] (table t !! 0)).
  assert (Hinit : length init = ncols (table t)) by done.
  assert (Hfold : ∀ acc, length acc = ncols (table t) →
            ∃ cost_row,
              foldl (fix_missing_basis_round (table t) init) (Ok acc) basis
              = Ok cost_row ∧ length cost_row = ncols (table t)).
  { induction Hall as [|col_ind basis Hone _ IH]; intros acc Hacc; [by exists acc|].
    cbn [foldl].
    destruct (fix_missing_basis_round_cases (table t) init acc col_ind Hinit)
      as [(_ & k & i & row & x & _ & _ & Hrow & _ & ->)|[Hno _]]; [|done].
    apply IH. rewrite length_zip_with, (wf_table_row _ _ _ Hwf Hrow). lia. }
  destruct (Hfold init Hinit) as (cost_row & -> & Hlen). simpl.
  eexists. split; [reflexivity|]. simpl.
  assert (Hcols : ncols (<[0 := cost_row]> (table t)) = ncols (table t)).
  { rewrite <- Hlen. unfold ncols at 1.
    rewrite list_lookup_insert_eq; [done|]. by destruct Hwf. }
  split_and!; [done| |by unfold nrows; rewrite length_insert|done|apply drop_insert_0].
  destruct Hwf as (Hn & Hm & Hrows). split_and!.
  - unfold nrows. by rewrite length_insert.
  - by rewrite Hcols.
  - rewrite Hcols. apply Forall_insert; done.
Qed.

(** ** The columns that the loops of [add_variable_round] add *)

Lemma Qc_sum_app l1 l2 : Qc_sum (l1 ++ l2) = (Qc_sum l1 + Qc_sum l2)%Qc.
Proof.
  induction l1 as [|x l1 IH].
  - change (Qc_sum []) with 0%Qc. cbn [app]. ring.
  - rewrite <- app_comm_cons, !Qc_sum_cons, IH. ring.
Qed.

Lemma coef_app e1 e2 x : coef (e1 ++ e2) x = (coef e1 x + coef e2 x)%Qc.
Proof. unfold coef, Expression. by rewrite filter_app, fmap_app, Qc_sum_app. Qed.

Lemma coef_atom v f x :
  coef [mkAtom v f] x = if decide (index v = x) then f else 0%Qc.
Proof.
  unfold coef, Expression. rewrite filter_cons, filter_nil. simpl.
  case_decide; [|done]. rewrite fmap_cons, Qc_sum_cons. simpl.
  change (Qc_sum []) with 0%Qc. ring.
Qed.

Lemma coef_out_of_range e n x :
  Forall (λ a, index (var a) < n) e → n ≤ x → coef e x = 0%Qc.
Proof.
  intros Hall Hx. unfold coef, Expression.
  induction Hall as [|a e Ha _ IH]; [done|].
  rewrite filter_cons. by rewrite decide_False by lia.
Qed.

Lemma factors_lookup e m x :
  indexed (variables m) → x < length (variables m) →
  factors e m !! x = Some (coef e x).
Proof.
  intros Hidx Hx. unfold factors. rewrite list_lookup_fmap.
  destruct (lookup_lt_is_Some_2 _ _ Hx) as [v Hv]. rewrite Hv. simpl.
  by rewrite (Hidx x v Hv).
Qed.

Lemma initial_table_cell m j c x :
  indexed (variables m) → constraints m !! j = Some c → x < length (variables m) →
  cell (initial_table m) (S j) x = coef (c_expression c) x.
Proof.
  intros Hidx Hc Hx. unfold cell, initial_table. simpl.
  rewrite list_lookup_fmap, Hc. simpl.
  rewrite lookup_app_l by (by rewrite factors_length).
  by rewrite factors_lookup.
Qed.

Lemma initial_table_cost_cell m x :
  indexed (variables m) → x < length (variables m) →
  cell (initial_table m) 0 x
  = coef (expr_scale (-1)%Qc (o_expression (objective m))) x.
Proof.
  intros Hidx Hx. unfold cell, initial_table. simpl.
  rewrite lookup_app_l by (by rewrite factors_length).
  by rewrite factors_lookup.
Qed.

Lemma dict_set_fresh {V} (k : Var) (v : V) (d : list (Var * V)) :
  (∀ p, p ∈ d → p.1 ≠ k) → dict_set k v d = d ++ [(k, v)].
Proof.
  induction d as [|[k' v'] d IH]; intros Hfresh; [done|]. simpl.
  rewrite decide_False by (apply (Hfresh (k', v')); by left).
  f_equal. apply IH. intros p Hp. apply Hfresh. by right.
Qed.

(** The loop from the constraint [t] on keeps the relation [extension]. *)
Lemma add_variable_round_extension select prefix f m0 n :
  ∀ t m vars,
    t + n = length (constraints m0) →
    extension select f t m0 m vars →
    ∃ m' vars',
      foldl (Lab04.add_variable_round select prefix (λ e v, e ++ [mkAtom v f]))
            (m, vars) (seq t n) = (m', vars') ∧
      extension select f (t + n) m0 m' vars'.
Proof.
  induction n as [|n IH]; intros t m vars Htn Hext.
  { exists m, vars. split; [done|]. by rewrite Nat.add_0_r. }
  cbn [seq foldl].
  destruct Hext as (Hvars & Hobj & Hlen & Hnd & Hdict & Hcons).
  destruct (lookup_lt_is_Some_2 (constraints m0) t) as [c Hc]; [lia|].
  destruct (Hcons t c Hc) as (c' & Hc' & Hty & Hb & Hsame & _).
  specialize (Hsame (or_introl (le_n t))).
  unfold Lab04.add_variable_round at 2. rewrite Hc', Hty.
  replace (t + S n) with (S t + n) by lia.
  destruct (select (c_type c)) eqn:Hsel.
  - unfold create_variable.
    set (v := mkVariable (length (variables m)) (fstring prefix t)).
    assert (Hfresh : dict_set v t vars = vars ++ [(v, t)]).
    { apply dict_set_fresh. intros [v' j'] Hp%list_elem_of_lookup. simpl.
      destruct Hp as [k Hk]. destruct (Hdict k v' j' Hk) as (Hi & _).
      intros ->. unfold v in Hi. simpl in Hi.
      rewrite Hvars, length_app, length_fmap in Hi.
      apply lookup_lt_Some in Hk. lia. }
    rewrite Hfresh. apply IH; [lia|].
    assert (Hv : index v = length (variables m0) + length vars).
    { unfold v. simpl. by rewrite Hvars, length_app, length_fmap. }
    split_and!; simpl.
    + by rewrite Hvars, fmap_app, app_assoc.
    + done.
    + by rewrite length_insert.
    + rewrite fmap_app. simpl. apply NoDup_app. split_and!; [done| |apply NoDup_singleton].
      intros j Hj Hj'%list_elem_of_singleton. subst j.
      apply list_elem_of_fmap in Hj as ([v' j'] & Hjj & Hin). simpl in Hjj. subst j'.
      apply list_elem_of_lookup in Hin as [k Hk].
      destruct (Hdict k v' t Hk) as (_ & Hlt & _). lia.
    + intros k v' j Hk. destruct (decide (k < length vars)) as [Hlt|Hge].
      * rewrite lookup_app_l in Hk by done.
        destruct (Hdict k v' j Hk) as (Hi & Hj & Hex). split_and!; [done|lia|done].
      * rewrite lookup_app_r in Hk by lia.
        destruct (k - length vars) as [|?] eqn:Hk0; [|done]. simpl in Hk.
        injection Hk as <- <-. split_and!; [rewrite Hv; lia|lia|by exists c].
    + intros j cj Hcj. destruct (decide (j = t)) as [->|Hne].
      * rewrite Hc in Hcj. injection Hcj as <-.
        eexists. split; [apply list_lookup_insert_eq; by eapply lookup_lt_Some|].
        simpl. split_and!; [done|done| |].
        -- intros [?|?]; [lia|congruence].
        -- intros _ _. exists (length vars), v.
           split; [by rewrite lookup_app_r, Nat.sub_diag|]. by rewrite Hsame.
      * destruct (Hcons j cj Hcj) as (cj' & Hcj' & Hty' & Hb' & Hsame' & Hnew').
        exists cj'. split; [by rewrite list_lookup_insert_ne|].
        split_and!; [done|done| |].
        -- intros [?|?]; apply Hsame'; [left; lia|by right].
        -- intros Hjt Hs. destruct (Hnew' ltac:(lia) Hs) as (k & v' & Hk & He).
           exists k, v'. split; [|done]. apply lookup_app_l_Some. done.
  - apply IH; [lia|].
    split_and!; try done.
    + intros k v' j Hk. destruct (Hdict k v' j Hk) as (Hi & Hj & Hex).
      split_and!; [done|lia|done].
    + intros j cj Hcj.
      destruct (Hcons j cj Hcj) as (cj' & Hcj' & Hty' & Hb' & Hsame' & Hnew').
      exists cj'. split_and!; [done|done|done| |].
      * intros [?|?]; apply Hsame'; [left; lia|by right].
      * intros Hjt Hs. destruct (decide (j = t)) as [->|Hne].
        -- rewrite Hc in Hcj. injection Hcj as <-. congruence.
        -- apply Hnew'; [lia|done].
Qed.

Lemma extension_rounds select prefix f m0 m vars :
  Lab04.add_variable_rounds select prefix (λ e v, e ++ [mkAtom v f]) m0 = (m, vars) →
  extension select f (length (constraints m0)) m0 m vars.
Proof.
  intros Hrounds. unfold Lab04.add_variable_rounds in Hrounds.
  destruct (add_variable_round_extension select prefix f m0
              (length (constraints m0)) 0 m0 [])
    as (m' & vars' & Hfold & Hext); [done| |].
  - split_and!; simpl; [by rewrite app_nil_r|done|done|constructor| |].
    + by intros k v j Hk.
    + intros j c Hc. exists c. split_and!; try done. intros Hj. lia.
  - rewrite Hfold in Hrounds. by injection Hrounds as <- <-.
Qed.

Lemma extension_wf select f t m0 m vars :
  wf_model m0 → extension select f t m0 m vars → wf_model m.
Proof.
  intros [Hidx Hatoms] (Hvars & _ & Hlen & _ & Hdict & Hcons). split.
  - intros i v Hv. rewrite Hvars in Hv.
    destruct (decide (i < length (variables m0))) as [Hlt|Hge].
    + rewrite lookup_app_l in Hv by done. by apply Hidx.
    + rewrite lookup_app_r in Hv by lia. rewrite list_lookup_fmap in Hv.
      destruct (vars !! (i - length (variables m0))) as [[v' j]|] eqn:Hk; [|done].
      simpl in Hv. injection Hv as <-.
      destruct (Hdict _ _ _ Hk) as (-> & _). lia.
  - apply Forall_forall. intros c' Hc'. apply list_elem_of_lookup in Hc' as [j Hj].
    assert (Hjl : j < length (constraints m0))
      by (rewrite <- Hlen; by eapply lookup_lt_Some).
    destruct (lookup_lt_is_Some_2 _ _ Hjl) as [c Hc].
    destruct (Hcons j c Hc) as (c'' & Hc'' & _ & _ & Hsame & Hnew).
    rewrite Hj in Hc''. injection Hc'' as <-.
    rewrite Forall_forall in Hatoms.
    specialize (Hatoms c (list_elem_of_lookup_2 _ _ _ Hc)).
    assert (Hold : Forall (λ a, index (var a) < length (variables m)) (c_expression c)).
    { eapply Forall_impl; [exact Hatoms|]. intros a Ha. simpl in *.
      rewrite Hvars, length_app. lia. }
    destruct (select (c_type c)) eqn:Hsel.
    + destruct (decide (j < t)) as [Hjt|Hjt].
      * destruct (Hnew Hjt eq_refl) as (k & v & Hk & ->).
        apply Forall_app. split; [done|]. constructor; [|constructor]. simpl.
        destruct (Hdict _ _ _ Hk) as (-> & _).
        rewrite Hvars, length_app, length_fmap. apply lookup_lt_Some in Hk. lia.
      * rewrite Hsame; [done|left; lia].
    + rewrite Hsame; [done|by right].
Qed.

(** The coefficients of the variables of [m0] are not changed. *)
Lemma extension_coef_old select f t m0 m vars j c c' x :
  wf_model m0 → extension select f t m0 m vars →
  constraints m0 !! j = Some c → constraints m !! j = Some c' →
  x < length (variables m0) →
  coef (c_expression c') x = coef (c_expression c) x.
Proof.
  intros _ (_ & _ & _ & _ & Hdict & Hcons) Hc Hc' Hx.
  destruct (Hcons j c Hc) as (c'' & Hc'' & _ & _ & Hsame & Hnew).
  rewrite Hc' in Hc''. injection Hc'' as <-.
  destruct (select (c_type c)) eqn:Hsel; [|apply f_equal2; [|done]; apply Hsame; by right].
  destruct (decide (j < t)) as [Hjt|Hjt]; [|rewrite Hsame; [done|left; lia]].
  destruct (Hnew Hjt eq_refl) as (k & v & Hk & ->).
  rewrite coef_app, coef_atom. destruct (Hdict _ _ _ Hk) as (Hv & _).
  rewrite decide_False by lia. ring.
Qed.

(** The column of a variable of the dict holds [f] in its constraint and 0
    in the others. *)
Lemma extension_coef_new select f m0 m vars k v j j' c' :
  wf_model m0 → extension select f (length (constraints m0)) m0 m vars →
  vars !! k = Some (v, j) → constraints m !! j' = Some c' →
  coef (c_expression c') (length (variables m0) + k)
  = if decide (j' = j) then f else 0%Qc.
Proof.
  intros [_ Hatoms] (_ & _ & Hlen & Hnd & Hdict & Hcons) Hk Hc'.
  assert (Hjl : j' < length (constraints m0))
    by (rewrite <- Hlen; by eapply lookup_lt_Some).
  destruct (lookup_lt_is_Some_2 _ _ Hjl) as [c Hc].
  destruct (Hcons j' c Hc) as (c'' & Hc'' & _ & _ & Hsame & Hnew).
  rewrite Hc' in Hc''. injection Hc'' as <-.
  rewrite Forall_forall in Hatoms.
  specialize (Hatoms c (list_elem_of_lookup_2 _ _ _ Hc)).
  assert (Hold : coef (c_expression c) (length (variables m0) + k) = 0%Qc).
  { apply (coef_out_of_range _ (length (variables m0))); [done|lia]. }
  destruct (Hdict _ _ _ Hk) as (Hv & _ & cj & Hcj & Hselj).
  destruct (select (c_type c)) eqn:Hsel.
  - destruct (Hnew Hjl eq_refl) as (k' & v' & Hk' & ->).
    rewrite coef_app, coef_atom, Hold.
    destruct (Hdict _ _ _ Hk') as (Hv' & _).
    destruct (decide (j' = j)) as [->|Hne].
    + assert (k' = k).
      { eapply (NoDup_lookup vars.*2); [done| |];
          rewrite list_lookup_fmap; [by rewrite Hk'|by rewrite Hk]. }
      subst k'. rewrite decide_True by lia. ring.
    + rewrite decide_False; [ring|]. intros Hi.
      assert (k' = k) by lia. subst k'. rewrite Hk in Hk'. by injection Hk'.
  - rewrite Hsame by (by right). rewrite Hold.
    rewrite decide_False; [done|]. intros ->. rewrite Hc in Hcj. congruence.
Qed.

(** ** The normalized model is in normal form *)

Lemma extension_lookup select f t m0 m vars j c' :
  extension select f t m0 m vars → constraints m !! j = Some c' →
  ∃ c, constraints m0 !! j = Some c ∧ c_type c' = c_type c ∧ bound c' = bound c ∧
       (j < t → select (c_type c) = true → ∃ k v, vars !! k = Some (v, j)).
Proof.
  intros (_ & _ & Hlen & _ & _ & Hcons) Hc'.
  assert (Hjl : j < length (constraints m0))
    by (rewrite <- Hlen; by eapply lookup_lt_Some).
  destruct (lookup_lt_is_Some_2 _ _ Hjl) as [c Hc].
  destruct (Hcons j c Hc) as (c'' & Hc'' & Hty & Hb & _ & Hnew).
  rewrite Hc' in Hc''. injection Hc'' as <-.
  exists c. split_and!; [done|done|done|].
  intros Hjt Hsel. destruct (Hnew Hjt Hsel) as (k & v & Hk & _). by exists k, v.
Qed.

Lemma own_column_extension select f t m0 m vars j k :
  wf_model m0 → extension select f t m0 m vars →
  own_column m0 j k → own_column m j k.
Proof.
  intros Hwf Hext [Hk Hown].
  pose proof Hext as (Hvars & _ & Hlen & _ & _ & _). split.
  - rewrite Hvars, length_app. lia.
  - intros j' c' Hc'.
    destruct (extension_lookup _ _ _ _ _ _ _ _ Hext Hc') as (c & Hc & _).
    rewrite (extension_coef_old _ _ _ _ _ _ _ _ _ _ Hwf Hext Hc Hc' Hk).
    by apply Hown.
Qed.

Lemma normalized_normal_form m nm slack surplus :
  wf_model m → normalized m = (nm, slack, surplus) → normal_form nm.
Proof.
  intros [Hidx Hatoms] E.
  destruct (normalized_spec m nm slack surplus E) as (_ & _ & _ & _ & Hnn & _).
  unfold normalized in E.
  set (m1 := if decide (o_type (objective m) = MIN)
             then set_objective (objective_invert (objective m)) m else m) in E.
  set (m2 := mkModel (variables m1) _ (objective m1)) in E.
  assert (Hvars1 : variables m1 = variables m) by (unfold m1; by case_decide).
  assert (Hcons1 : constraints m1 = constraints m) by (unfold m1; by case_decide).
  assert (Hwf2 : wf_model m2).
  { split; unfold m2; simpl; rewrite Hvars1; [done|]. rewrite Hcons1.
    apply Forall_fmap. eapply Forall_impl; [exact Hatoms|].
    intros c Hc. simpl. case_decide; [|done]. simpl.
    unfold expr_neg. by apply Forall_fmap. }
  destruct (Lab04.add_variable_rounds _ "s" _ m2) as [m3 slack3] eqn:E3.
  destruct (Lab04.add_variable_rounds _ "s" _ m3) as [m4 surplus4] eqn:E4.
  injection E as <- <- <-.
  pose proof (extension_rounds (λ ty, bool_decide (ty = LE)) "s" 1%Qc
                m2 m3 slack3 E3) as X3.
  pose proof (extension_rounds (λ ty, bool_decide (ty = GE)) "s" (- 1)%Qc
                m3 m4 surplus4 E4) as X4.
  assert (Hwf3 := extension_wf _ _ _ _ _ _ Hwf2 X3).
  assert (Hwf4 := extension_wf _ _ _ _ _ _ Hwf3 X4).
  split_and!; [done|done|].
  intros j c4 Hc4 Hty4.
  destruct (extension_lookup _ _ _ _ _ _ _ _ X4 Hc4) as (c3 & Hc3 & Hty3 & _).
  destruct (extension_lookup _ _ _ _ _ _ _ _ X3 Hc3) as (c2 & Hc2 & Hty2 & _ & Hnew).
  destruct Hnew as (k & v & Hk).
  { by eapply lookup_lt_Some. }
  { apply bool_decide_eq_true. congruence. }
  exists (length (variables m2) + k).
  apply (own_column_extension _ _ _ _ _ _ _ _ Hwf3 X4). split.
  - pose proof X3 as (Hvars3 & _). rewrite Hvars3, length_app, length_fmap.
    apply lookup_lt_Some in Hk. lia.
  - intros j' c' Hc'.
    by rewrite (extension_coef_new _ _ _ _ _ _ _ _ _ _ Hwf2 X3 Hk Hc').
Qed.

(** ** Running Phase I (lab04, lines 53-60, 85-88, 130-151) *)

Lemma create_presolve_model_run model (s : Lab04.St) nm pm art :
  heap s !! model = Some nm →
  Lab04.add_variable_rounds (λ ty, bool_decide (ty = GE) || bool_decide (ty = EQ)) "R"
    (λ e v, expr_add e (expr_of_var v)) nm = (pm, art) →
  Lab04._create_presolve_model model s =
    (Ok (length (heap s)),
     mkState (heap s ++ [pm])
             (Lab04.mkSolver (Lab04.slack_variables (self s))
                (Lab04.surplus_variables (self s)) art)).
Proof.
  intros Hm Hrounds. unfold Lab04._create_presolve_model.
  rewrite (bind_run_Ok _ _ _ _ _ (deepcopy_run model s nm Hm)).
  unfold Lab04._add_artificial_variables.
  rewrite (bind_run_Ok _ _ _ _ _ (add_variables_run_eq _ _ _ (heap s) nm (self s))).
  rewrite Hrounds. reflexivity.
Qed.

Lemma prepare_first_phase_objective_run (h : list Model) pm (f : Lab04.Solver) :
  Lab04._prepare_first_phase_objective (length h) (mkState (h ++ [pm]) f) =
    (Ok (S (length h)),
     mkState (h ++ [pm; set_objective
                          (first_phase_objective (objective pm)
                             (Lab04.artificial_variables f)) pm]) f).
Proof.
  unfold Lab04._prepare_first_phase_objective.
  assert (Hpm : heap (mkState (h ++ [pm]) f) !! length h = Some pm)
    by (simpl; by apply list_lookup_middle).
  rewrite (bind_run_Ok _ _ _ _ _ (deepcopy_run _ _ _ Hpm)). simpl.
  rewrite (bind_run_Ok _ _ _ _ _ (get_model_last (h ++ [pm]) pm f)).
  unfold mbind at 1, M_bind at 1, get_self at 1.
  rewrite (bind_run_Ok _ _ _ _ _ (set_model_last (h ++ [pm]) pm _ f)).
  unfold mret, M_ret. rewrite length_app. simpl.
  rewrite <- app_assoc. simpl. rewrite Nat.add_1_r. reflexivity.
Qed.

Lemma presolve_initial_tableaux_run (h : list Model) pm (f : Lab04.Solver) :
  Lab04._presolve_initial_tableaux (length h) (mkState (h ++ [pm]) f) =
    (Lab04._fix_missing_basis
       (mkTableaux (S (length h))
          (initial_table
             (set_objective
                (first_phase_objective (objective pm) (Lab04.artificial_variables f)) pm)))
       ((λ v, Z.of_nat (index v)) <$> (Lab04.artificial_variables f).*1),
     mkState (h ++ [pm; set_objective
                          (first_phase_objective (objective pm)
                             (Lab04.artificial_variables f)) pm]) f).
Proof.
  unfold Lab04._presolve_initial_tableaux.
  rewrite (bind_run_Ok _ _ _ _ _ (prepare_first_phase_objective_run h pm f)).
  unfold Lab04._basic_initial_tableaux.
  set (pm' := set_objective _ pm).
  assert (Hget : get_model (S (length h)) (mkState (h ++ [pm; pm']) f)
                 = (Ok pm', mkState (h ++ [pm; pm']) f)).
  { unfold get_model. simpl. rewrite lookup_app_r by lia.
    by replace (S (length h) - length h) with 1 by lia. }
  unfold mbind, M_bind. rewrite Hget. reflexivity.
Qed.

Lemma phase_I_tableaux_run model (s : Lab04.St) nm pm art :
  heap s !! model = Some nm →
  Lab04.add_variable_rounds (λ ty, bool_decide (ty = GE) || bool_decide (ty = EQ)) "R"
    (λ e v, expr_add e (expr_of_var v)) nm = (pm, art) →
  phase_I_tableaux model s =
    (Lab04._fix_missing_basis
       (mkTableaux (S (length (heap s)))
          (initial_table (set_objective (first_phase_objective (objective pm) art) pm)))
       ((λ v, Z.of_nat (index v)) <$> art.*1),
     mkState (heap s ++ [pm; set_objective (first_phase_objective (objective pm) art) pm])
             (Lab04.mkSolver (Lab04.slack_variables (self s))
                (Lab04.surplus_variables (self s)) art)).
Proof.
  intros Hm Hrounds. unfold phase_I_tableaux.
  rewrite (bind_run_Ok _ _ _ _ _ (create_presolve_model_run _ _ _ _ _ Hm Hrounds)).
  by rewrite presolve_initial_tableaux_run.
Qed.

(** ** The tableaux of Phase I is canonical *)

Lemma coef_scale k e x : coef (expr_scale k e) x = (coef e x * k)%Qc.
Proof.
  unfold coef, expr_scale, Expression. induction e as [|a e IH].
  - change (Qc_sum (factor <$> filter _ (atom_mul k <$> []))) with 0%Qc.
    change (Qc_sum (factor <$> filter _ [])) with 0%Qc. ring.
  - rewrite fmap_cons, !filter_cons. simpl.
    case_decide; [|done]. rewrite !fmap_cons, !Qc_sum_cons, IH. simpl. ring.
Qed.

Lemma coef_zeroed e x : coef ((λ atom, mkAtom (var atom) 0%Qc) <$> e) x = 0%Qc.
Proof.
  unfold coef, Expression. induction e as [|a e IH]; [done|].
  rewrite fmap_cons, filter_cons. simpl.
  case_decide; [|done]. rewrite fmap_cons, Qc_sum_cons, IH. simpl. ring.
Qed.

Lemma coef_first_phase_fold (vs : list Var) :
  ∀ (o : Objective) (n x : nat),
    (∀ k v, vs !! k = Some v → index v = n + k) →
    coef (o_expression
            (foldl (λ o variable,
                      mkObjective (expr_sub (o_expression o) (expr_of_var variable))
                                  (o_type o)) o vs)) x
    = (coef (o_expression o) x
       - (if decide (n ≤ x < n + length vs)%nat then 1 else 0))%Qc.
Proof.
  induction vs as [|v vs IH]; intros o n x Hidx.
  - simpl. rewrite decide_False by lia. ring.
  - cbn [foldl]. rewrite (IH _ (S n)).
    2:{ intros k v' Hk. rewrite (Hidx (S k) v' Hk). lia. }
    cbn [o_expression]. unfold expr_sub, expr_add, expr_neg, expr_of_var.
    rewrite coef_app. cbn [fmap list_fmap]. unfold atom_neg. cbn [var factor].
    rewrite coef_atom. rewrite (Hidx 0 v eq_refl), Nat.add_0_r. cbn [length].
    destruct (decide (n = x)) as [->|Hne].
    + rewrite decide_False by lia. rewrite decide_True by lia. ring.
    + destruct (decide (S n ≤ x < S n + length vs)).
      * rewrite decide_True by lia. ring.
      * rewrite decide_False by lia. ring.
Qed.

(** The cost row that [_fix_missing_basis] leaves: the multiples of the
    rows of the basis are taken from the cost row it was given. *)
Lemma fix_missing_basis_cost_row t (basis : list nat) (row_of : nat → nat) :
  wf_table (table t) →
  (∀ k, k ∈ basis → k < ncols (table t) ∧ unit_column (table t) k (row_of k)) →
  ∃ t',
    Lab04._fix_missing_basis t (Z.of_nat <$> basis) = Ok t' ∧
    t_model t' = t_model t ∧ wf_table (table t') ∧
    nrows (table t') = nrows (table t) ∧ ncols (table t') = ncols (table t) ∧
    drop 1 (table t') = drop 1 (table t) ∧
    (∀ c, cell (table t') 0 c
          = (cell (table t) 0 c
             - Qc_sum ((λ k, cell (table t) (row_of k) c * cell (table t) 0 k)
                         <$> basis))%Qc).
Proof.
  intros Hwf Hbasis.
  destruct (fix_missing_basis_Ok t (Z.of_nat <$> basis) Hwf)
    as (t' & Hfix & Hmod & Hwf' & Hn & Hm & Hdrop).
  { apply Forall_fmap, Forall_forall. intros k Hk. simpl.
    destruct (Hbasis k Hk) as [Hlt Hunit]. exists k.
    split; [by apply py_index_of_nat|].
    apply where_one_is_Some. by rewrite (unit_column_where_one _ _ _ Hunit). }
  exists t'. split_and!; try done.
  destruct (table t) as [|row0 rows] eqn:Htb; [destruct Hwf; simpl in *; lia|].
  rewrite <- Htb in *.
  assert (H0 : table t !! 0 = Some row0) by (by rewrite Htb).
  assert (Hlen0 : length row0 = ncols (table t)) by (by eapply wf_table_row).
  destruct (fix_missing_basis_fold (table t) row0 row_of basis Hwf Hlen0 Hbasis row0 Hlen0)
    as (cost_row & Hfold & Hclen & Hcost).
  rewrite fix_missing_basis_unfold, H0 in Hfix. simpl in Hfix.
  rewrite Hfold in Hfix. simpl in Hfix. injection Hfix as <-. simpl.
  assert (Hc0 : ∀ c, cell (table t) 0 c = default 0%Qc (row0 !! c))
    by (intros c; unfold cell; by rewrite H0).
  intros c. unfold cell at 1.
  rewrite list_lookup_insert_eq by (destruct Hwf; unfold nrows in *; lia).
  cbn [mbind option_bind]. rewrite Hcost, Hc0. f_equal. f_equal.
  apply list_fmap_ext. intros ? k _. simpl. by rewrite Hc0.
Qed.

Lemma unit_column_drop_1 tb tb' k r :
  drop 1 tb' = drop 1 tb → nrows tb' = nrows tb →
  unit_column tb k r → unit_column tb' k r.
Proof.
  intros Hdrop Hn [Hr Hunit]. split; [by rewrite Hn|].
  intros r' Hr'. rewrite Hn in Hr'.
  rewrite (cell_drop_1 tb tb') by (done || lia). by apply Hunit.
Qed.

Lemma phase_I_canonical l nm pm art :
  normal_form nm →
  Lab04.add_variable_rounds (λ ty, bool_decide (ty = GE) || bool_decide (ty = EQ)) "R"
    (λ e v, expr_add e (expr_of_var v)) nm = (pm, art) →
  ∃ t1,
    Lab04._fix_missing_basis
      (mkTableaux l
         (initial_table (set_objective (first_phase_objective (objective pm) art) pm)))
      ((λ v, Z.of_nat (index v)) <$> art.*1) = Ok t1 ∧
    t_model t1 = l ∧
    canonical (table t1) ∧
    ncols (table t1) = S (length (variables nm) + length art) ∧
    nrows (table t1) = S (length (constraints nm)) ∧
    (∀ i, i ∈ index <$> art.*1 ↔
          length (variables nm) ≤ i < length (variables nm) + length art).
Proof.
  intros (Hwf & Hnn & Hslack) Hrounds.
  pose proof (extension_rounds _ "R" 1%Qc nm pm art Hrounds) as X.
  assert (Hwfp := extension_wf _ _ _ _ _ _ Hwf X).
  pose proof X as (Hvars & Hobj & Hlen & Hnd & Hdict & Hcons).
  set (n := length (variables nm)) in *. set (A := length art).
  set (pm' := set_objective (first_phase_objective (objective pm) art) pm).
  set (T0 := initial_table pm').
  assert (Hidx' : indexed (variables pm')) by apply Hwfp.
  assert (Hnv : length (variables pm') = n + A).
  { unfold pm'. simpl. by rewrite Hvars, length_app, length_fmap. }
  assert (Hcols : ncols T0 = S (n + A))
    by (unfold T0; rewrite initial_table_ncols; lia).
  assert (Hrows : nrows T0 = S (length (constraints nm)))
    by (unfold T0; rewrite initial_table_nrows; simpl; lia).
  assert (Hbn : ∀ k, k < A → (index <$> art.*1) !! k = Some (n + k)).
  { intros k Hk. destruct (lookup_lt_is_Some_2 art k Hk) as [[v j] Hkv].
    rewrite !list_lookup_fmap, Hkv. simpl.
    by destruct (Hdict _ _ _ Hkv) as (-> & _). }
  assert (Hmem : ∀ i, i ∈ index <$> art.*1 ↔ n ≤ i < n + A).
  { intros i. rewrite list_elem_of_lookup. split.
    - intros [k Hk]. assert (k < A).
      { apply lookup_lt_Some in Hk. by rewrite !length_fmap in Hk. }
      rewrite Hbn in Hk by done. injection Hk as <-. lia.
    - intros Hi. exists (i - n). rewrite Hbn by lia. f_equal. lia. }
  assert (Hcell : ∀ j c' x, constraints pm !! j = Some c' → x < n + A →
            cell T0 (S j) x = coef (c_expression c') x).
  { intros j c' x Hc' Hx. apply initial_table_cell; [done|done|lia]. }
  assert (Hcost0 : ∀ x, x < n + A →
            cell T0 0 x = if decide (n ≤ x) then 1%Qc else 0%Qc).
  { intros x Hx. unfold T0. rewrite initial_table_cost_cell by (done || lia).
    rewrite coef_scale. unfold pm'. cbn [objective set_objective].
    unfold first_phase_objective. rewrite (coef_first_phase_fold _ _ n x).
    - cbn [o_expression]. rewrite coef_zeroed, length_fmap. fold A.
      destruct (decide (n ≤ x)).
      + rewrite decide_True by lia. ring.
      + rewrite decide_False by lia. ring.
    - intros k v Hk. rewrite list_lookup_fmap in Hk.
      destruct (art !! k) as [[v' j]|] eqn:Hkv; [|done]. simpl in Hk.
      injection Hk as <-. by destruct (Hdict _ _ _ Hkv) as (-> & _). }
  set (row_of := λ x, S (default 0 (art.*2 !! (x - n)))).
  assert (Hrow_of : ∀ k v j, art !! k = Some (v, j) → row_of (n + k) = S j).
  { intros k v j Hk. unfold row_of. replace (n + k - n) with k by lia.
    by rewrite list_lookup_fmap, Hk. }
  assert (Hunit : ∀ k v j, art !! k = Some (v, j) → unit_column T0 (n + k) (S j)).
  { intros k v j Hk. destruct (Hdict _ _ _ Hk) as (_ & Hj & _).
    split; [rewrite Hrows; lia|]. intros r' Hr'. rewrite Hrows in Hr'.
    destruct r' as [|j']; [lia|].
    destruct (lookup_lt_is_Some_2 (constraints pm) j') as [c' Hc']; [lia|].
    rewrite (Hcell j' c') by (done || apply lookup_lt_Some in Hk; fold A in Hk; lia).
    pose proof (extension_coef_new _ _ _ _ _ _ _ _ _ _ Hwf X Hk Hc') as He.
    fold n in He. rewrite He.
    destruct (decide (j' = j)); [by rewrite decide_True by lia|by rewrite decide_False by lia]. }
  assert (Hbasis : ∀ x, x ∈ index <$> art.*1 →
            x < ncols T0 ∧ unit_column T0 x (row_of x)).
  { intros x Hx%Hmem. split; [lia|].
    destruct (lookup_lt_is_Some_2 art (x - n)) as [[v j] Hk]; [fold A; lia|].
    replace x with (n + (x - n)) by lia.
    rewrite (Hrow_of _ _ _ Hk). by eapply Hunit. }
  assert (Hrows_nd : NoDup (row_of <$> (index <$> art.*1))).
  { assert (Heq : row_of <$> (index <$> art.*1) = S <$> art.*2).
    { apply list_eq. intros k. rewrite !list_lookup_fmap.
      destruct (art !! k) as [[v j]|] eqn:Hk; [|done]. simpl.
      destruct (Hdict _ _ _ Hk) as (-> & _). f_equal. by eapply Hrow_of. }
    rewrite Heq. apply (NoDup_fmap_2 S). done. }
  destruct (fix_missing_basis_cost_row (mkTableaux l T0) (index <$> art.*1) row_of)
    as (t1 & Hfix & Hmod & Hwf1 & Hn1 & Hm1 & Hdrop & Hc1).
  { apply initial_table_wf. }
  { exact Hbasis. }
  cbn [table t_model] in Hn1, Hm1, Hdrop, Hc1, Hmod.
  exists t1. split.
  { rewrite <- Hfix. f_equal. apply list_eq. intros i.
    rewrite !list_lookup_fmap. by destruct (art !! i). }
  split; [done|].
  assert (Hfeas0 : feasible T0).
  { apply initial_table_feasible. unfold pm'. simpl.
    apply Forall_forall. intros c' Hc'. apply list_elem_of_lookup in Hc' as [j Hj].
    destruct (extension_lookup _ _ _ _ _ _ _ _ X Hj) as (c & Hc & _ & -> & _).
    rewrite Forall_forall in Hnn. apply Hnn. by eapply list_elem_of_lookup_2. }
  assert (Hsum0 : ∀ c, c < n + A →
            (∀ k v j, art !! k = Some (v, j) → cell T0 (S j) c = 0%Qc) →
            cell (table t1) 0 c = cell T0 0 c).
  { intros c Hc Hz. rewrite Hc1, Qc_sum_zeros; [ring|].
    apply Forall_fmap, Forall_forall. intros x Hx%Hmem. simpl.
    destruct (lookup_lt_is_Some_2 art (x - n)) as [[v j] Hk]; [fold A; lia|].
    replace x with (n + (x - n)) by lia.
    rewrite (Hrow_of _ _ _ Hk), (Hz _ _ _ Hk). ring. }
  split; [|split_and!; [lia|lia|done]].
  split_and!.
  - done.
  - apply (feasible_drop_1 T0); [done|lia|lia|done].
  - intros r Hr. rewrite Hn1, Hrows in Hr. rewrite Hm1, Hcols.
    destruct r as [|j]; [lia|].
    destruct (lookup_lt_is_Some_2 (constraints nm) j) as [c Hc]; [lia|].
    destruct (Hcons j c Hc) as (c' & Hc' & Hty & _ & _ & Hnew).
    destruct (bool_decide (c_type c = GE) || bool_decide (c_type c = EQ)) eqn:Hsel.
    + destruct (Hnew ltac:(lia) eq_refl) as (k & v & Hk & _).
      assert (HkA : k < A) by (by apply lookup_lt_Some in Hk).
      exists (n + k). split_and!; [lia| |].
      * apply (unit_column_drop_1 T0); [done|lia|by eapply Hunit].
      * rewrite Hc1.
        rewrite (Qc_sum_own_row T0 row_of (λ x, cell T0 0 x) (index <$> art.*1) (n + k)).
        -- ring.
        -- intros x Hx. by apply Hbasis.
        -- done.
        -- apply Hmem. lia.
    + assert (HLE : c_type c = LE).
      { destruct (c_type c); [done|by vm_compute in Hsel|by vm_compute in Hsel]. }
      destruct (Hslack j c Hc HLE) as (k0 & Hown).
      pose proof (own_column_extension _ _ _ _ _ _ _ _ Hwf X Hown) as [_ Hown'].
      destruct Hown as [Hk0 _]. fold n in Hk0.
      assert (Hu0 : unit_column T0 k0 (S j)).
      { split; [rewrite Hrows; lia|]. intros r' Hr'. rewrite Hrows in Hr'.
        destruct r' as [|j']; [lia|].
        destruct (lookup_lt_is_Some_2 (constraints pm) j') as [cj' Hcj']; [lia|].
        rewrite (Hcell j' cj') by (done || lia). rewrite (Hown' j' cj' Hcj').
        destruct (decide (j' = j)); [by rewrite decide_True by lia|by rewrite decide_False by lia]. }
      exists k0. split_and!; [lia| |].
      * by apply (unit_column_drop_1 T0); [done|lia|].
      * rewrite Hsum0; [|lia|].
        -- rewrite Hcost0 by lia. by rewrite decide_False by lia.
        -- intros k v jx Hk.
           destruct (Hdict _ _ _ Hk) as (_ & Hjx & cx & Hcx & Hselx).
           destruct (lookup_lt_is_Some_2 (constraints pm) jx) as [cx' Hcx']; [lia|].
           rewrite (Hcell jx cx') by (done || lia). rewrite (Hown' jx cx' Hcx').
           rewrite decide_False; [done|]. intros ->.
           rewrite Hc in Hcx. injection Hcx as <-. congruence.
  - intros c Hc Hzero. rewrite Hm1, Hcols in Hc. rewrite Hn1, Hrows in Hzero.
    assert (Hc' : c < n + A) by lia.
    assert (Hz0 : ∀ r, 1 ≤ r < S (length (constraints nm)) → cell T0 r c = 0%Qc).
    { intros r Hr. rewrite <- (cell_drop_1 T0 (table t1)) by (done || lia).
      by apply Hzero. }
    destruct (decide (n ≤ c)) as [Hge|Hlt].
    + exfalso.
      destruct (lookup_lt_is_Some_2 art (c - n)) as [[v j] Hk]; [fold A; lia|].
      destruct (Hunit _ _ _ Hk) as [Hj Hu]. rewrite Hrows in Hj, Hu.
      replace (n + (c - n)) with c in Hu by lia.
      specialize (Hu (S j) Hj). rewrite decide_True in Hu by done.
      rewrite Hz0 in Hu by done. by vm_compute in Hu.
    + rewrite Hsum0; [|done|].
      * rewrite Hcost0 by done. rewrite decide_False by done. by vm_compute.
      * intros k v j Hk. destruct (Hdict _ _ _ Hk) as (_ & Hj & _).
        apply Hz0. lia.
Qed.

Lemma integer_01_normalized_canonical :
  canonical (initial_table (normalized model_integer_01).1.1).
Proof.
  set (tb := initial_table _).
  assert (Hwf : wf_table tb) by apply initial_table_wf.
  assert (Hn : nrows tb = 3) by reflexivity.
  assert (Hm : ncols tb = 5) by reflexivity.
  assert (Hrows : ∀ r, 1 ≤ r < 3 → r = 1 ∨ r = 2) by lia.
  split_and!; [done| | |].
  - intros r Hr. rewrite Hn in Hr.
    destruct (Hrows r Hr) as [-> | ->]; vm_compute; discriminate.
  - intros r Hr. rewrite Hn in Hr. rewrite Hm.
    destruct (Hrows r Hr) as [-> | ->]; [exists 2|exists 3];
      (split; [lia|]); (split; [|Qc_compute]);
      (split; [rewrite Hn; lia|]); intros r' Hr'; rewrite Hn in Hr';
      destruct (Hrows r' Hr') as [-> | ->]; Qc_compute.
  - intros c Hc Hz. rewrite Hm in Hc. rewrite Hn in Hz.
    assert (Hc' : c = 0 ∨ c = 1 ∨ c = 2 ∨ c = 3) by lia.
    destruct Hc' as [-> | [-> | [-> | ->]]]; intros H; vm_compute in H; discriminate H.
Qed.

(** ** The extracted basis of a canonical tableaux *)

Lemma Qc_sum_nonneg l : Forall (λ x, 0 ≤ x)%Qc l → (0 ≤ Qc_sum l)%Qc.
Proof.
  induction 1 as [|y l Hy _ IH]; [done|]. rewrite Qc_sum_cons.
  replace 0%Qc with (0 + 0)%Qc by ring. by apply Qcplus_le_compat.
Qed.

Lemma Qc_sum_ge_elem l r x :
  Forall (λ x, 0 ≤ x)%Qc l → l !! r = Some x → (x ≤ Qc_sum l)%Qc.
Proof.
  intros Hall. revert r. induction Hall as [|y l Hy Hl IH]; intros r Hr; [done|].
  rewrite Qc_sum_cons. destruct r as [|r]; simpl in Hr.
  - injection Hr as ->. replace x with (x + 0)%Qc at 1 by ring.
    apply Qcplus_le_compat; [apply Qcle_refl|by apply Qc_sum_nonneg].
  - replace x with (0 + x)%Qc by ring. apply Qcplus_le_compat; [done|by eapply IH].
Qed.

Lemma nonneg_unit_vector l r :
  Forall (λ x, 0 ≤ x)%Qc l → Qc_sum l = 1%Qc → l !! r = Some 1%Qc →
  ∀ i x, i ≠ r → l !! i = Some x → x = 0%Qc.
Proof.
  intros Hall. revert r. induction Hall as [|y l Hy Hl IH]; intros r Hsum Hr i x Hi Hx;
    [done|].
  rewrite Qc_sum_cons in Hsum. destruct r as [|r]; simpl in Hr.
  - injection Hr as ->.
    assert (Hzero : Forall (λ x, x = 0%Qc) l).
    { apply Qc_sum_nonneg_zero; [done|].
      replace (Qc_sum l) with (1 + Qc_sum l - 1)%Qc by ring. rewrite Hsum. ring. }
    destruct i as [|i]; [done|]. simpl in Hx.
    rewrite Forall_forall in Hzero. apply Hzero. by eapply list_elem_of_lookup_2.
  - assert (Hy0 : y = 0%Qc).
    { apply Qcle_antisym; [|done].
      pose proof (Qc_sum_ge_elem l r 1%Qc Hl Hr) as Hge.
      apply (proj2 (Qcle_minus_iff y 0)).
      replace (0 + - y)%Qc with (Qc_sum l + - 1)%Qc
        by (rewrite <- Hsum; ring).
      by apply Qc_sub_nonneg. }
    subst y. destruct i as [|i]; simpl in Hx; [by injection Hx|].
    assert (Hsum' : Qc_sum l = 1%Qc) by (rewrite <- Hsum; ring).
    apply (IH r Hsum' Hr i x); [lia|done].
Qed.

(** A column that passes the test of [extract_basis] is a unit vector. *)
Lemma belongs_to_basis_unit col :
  belongs_to_basis col = true →
  ∃ r, col !! r = Some 1%Qc ∧ where_one col !! 0 = Some r ∧
       ∀ i x, i ≠ r → col !! i = Some x → x = 0%Qc.
Proof.
  unfold belongs_to_basis. rewrite !andb_true_iff, !bool_decide_eq_true.
  intros [[Hmin Hmax] Hsum].
  destruct (np_min_spec _ _ Hmin) as [_ Hge].
  destruct (np_max_spec _ _ Hmax) as [Hin _].
  apply list_elem_of_lookup in Hin as [r Hr].
  pose proof (nonneg_unit_vector col r Hge Hsum Hr) as Hunit.
  exists r. split_and!; [done| |done].
  apply where_one_at; [done|]. intros j Hj Hone.
  assert (H01 : 1%Qc = 0%Qc) by (apply (Hunit j); [lia|done]).
  by vm_compute in H01.
Qed.

Lemma belongs_to_basis_unit_column tb k :
  belongs_to_basis (column tb k) = true →
  ((∀ r, 1 ≤ r < nrows tb → cell tb r k = 0%Qc) → cell tb 0 k ≠ 1%Qc) →
  ∃ r, where_one (column tb k) !! 0 = Some r ∧
       unit_column tb k r ∧ cell tb 0 k = 0%Qc.
Proof.
  intros Hbel Hno.
  destruct (belongs_to_basis_unit _ Hbel) as (r & Hr & Hone & Hunit).
  assert (Hrn : r < nrows tb).
  { apply lookup_lt_Some in Hr. by rewrite column_length in Hr. }
  assert (Hcells : ∀ i, i < nrows tb → i ≠ r → cell tb i k = 0%Qc).
  { intros i Hi Hne. apply (Hunit i); [done|]. by apply column_lookup. }
  assert (Hcell_r : cell tb r k = 1%Qc).
  { rewrite column_lookup in Hr by done. by injection Hr. }
  destruct r as [|r].
  { exfalso. apply Hno; [|done]. intros i Hi. apply Hcells; lia. }
  exists (S r). split_and!; [done| |apply Hcells; lia].
  split; [lia|]. intros r' Hr'. case_decide as Heq; [by subst r'|].
  apply Hcells; [lia|done].
Qed.

(** Every entry that [extract_basis] sets is the basic column of its row. *)
Lemma extract_basis_rows t :
  wf_table (table t) → no_cost_only_column (table t) →
  ∃ basis,
    extract_basis t = Ok basis ∧
    length basis = nrows (table t) - 1 ∧
    ∀ i z, basis !! i = Some z →
      z = (-1)%Z ∨
      ∃ k, z = Z.of_nat k ∧ k < ncols (table t) - 1 ∧
           unit_column (table t) k (S i) ∧ cell (table t) 0 k = 0%Qc.
Proof.
  intros Hwf Hno. unfold extract_basis.
  set (step := λ (acc : result (list Z)) (c : nat), _).
  set (good := λ (i : nat) (z : Z),
         z = (-1)%Z ∨
         ∃ k, z = Z.of_nat k ∧ k < ncols (table t) - 1 ∧
              unit_column (table t) k (S i) ∧ cell (table t) 0 k = 0%Qc).
  assert (H : ∀ cols init,
    length init = nrows (table t) - 1 →
    (∀ i z, init !! i = Some z → good i z) →
    Forall (λ k, k < ncols (table t) - 1) cols →
    ∃ basis, foldl step (Ok init) cols = Ok basis ∧
      length basis = nrows (table t) - 1 ∧
      ∀ i z, basis !! i = Some z → good i z).
  { induction cols as [|c cols IH]; intros init Hlen Hinit Hcols.
    - by exists init.
    - inversion Hcols as [|?? Hc Hcols']; subst.
      assert (Hstep : ∃ init',
        step (Ok init) c = Ok init' ∧
        length init' = nrows (table t) - 1 ∧
        ∀ i z, init' !! i = Some z → good i z).
      { unfold step. simpl.
        destruct (belongs_to_basis (column (table t) c)) eqn:Hb; [|by exists init].
        destruct (belongs_to_basis_unit_column _ _ Hb (Hno c Hc))
          as (r & Hrow & Hunit & Hcost).
        rewrite Hrow. simpl. pose proof Hunit as [[Hr1 Hr2] _].
        unfold py_setitem, py_index. rewrite Hlen.
        rewrite decide_True by lia.
        eexists. split; [done|]. split; [by rewrite length_insert|].
        intros i z Hz.
        destruct (decide (i = Z.to_nat (Z.of_nat r - 1))) as [->|Hne].
        - rewrite list_lookup_insert_eq in Hz by lia. injection Hz as <-.
          right. exists c. split_and!; [done|done| |done].
          by replace (S (Z.to_nat (Z.of_nat r - 1))) with r by lia.
        - rewrite list_lookup_insert_ne in Hz by done. by apply Hinit. }
      destruct Hstep as (init' & Hstep & Hlen' & Hinit').
      change (foldl step (Ok init) (c :: cols))
        with (foldl step (step (Ok init) c) cols).
      rewrite Hstep. by apply IH. }
  apply H.
  - by rewrite length_replicate.
  - intros i z Hz. left. by apply lookup_replicate in Hz as [-> _].
  - apply Forall_forall. intros k Hk. apply elem_of_seq in Hk. lia.
Qed.

Lemma integer_01_normalized_integer :
  integer_cells (initial_table (normalized model_integer_01).1.1).
Proof. vm_compute. repeat constructor. Qed.

(** X19.  On a canonical tableaux of whole numbers [extract_basis]
    returns, for every constraint row, a basic column of that row: the entry
    at position [i] is a variable column that is the unit vector of the row
    [i + 1] and holds 0 in the cost row.  No entry is left at -1, and no
    entry is a column whose 1 stands in the cost row. *)
Theorem extract_basis_basic_columns (t : Tableaux) :
  canonical (table t) → integer_cells (table t) →
  ∃ basis,
    extract_basis t = Ok basis ∧
    length basis = nrows (table t) - 1 ∧
    ∀ i c, basis !! i = Some c →
      ∃ k, c = Z.of_nat k ∧ k < ncols (table t) - 1 ∧
           unit_column (table t) k (S i) ∧ cell (table t) 0 k = 0%Qc.
Proof.
  intros Hcan _. pose proof Hcan as (Hwf & _ & _ & Hno).
  destruct (extract_basis_rows t Hwf Hno) as (basis & Hb & Hlen & Hrows).
  exists basis. split_and!; [done|done|].
  intros i c Hc. destruct (Hrows i c Hc) as [->|Hgood]; [|done].
  destruct (extract_basis_canonical t basis Hcan Hb) as [_ Hentries].
  rewrite Forall_forall in Hentries.
  destruct (Hentries _ (list_elem_of_lookup_2 _ _ _ Hc)) as (k & Hk & _). lia.
Qed.

Lemma extract_basis_basic_columns_witness :
  let t := mkTableaux 0 (initial_table (normalized model_integer_01).1.1) in
  canonical (table t) ∧ integer_cells (table t) ∧
  ∃ basis,
    extract_basis t = Ok basis ∧
    length basis = nrows (table t) - 1 ∧
    ∀ i c, basis !! i = Some c →
      ∃ k, c = Z.of_nat k ∧ k < ncols (table t) - 1 ∧
           unit_column (table t) k (S i) ∧ cell (table t) 0 k = 0%Qc.
Proof.
  intros t. split; [exact integer_01_normalized_canonical|].
  split; [exact integer_01_normalized_integer|].
  exact (extract_basis_basic_columns t integer_01_normalized_canonical
           integer_01_normalized_integer).
Defined.

(** ** The normal form and the tableaux of Phase I *)

(** X20.  [_normalize_model] turns a model whose variables carry their
    positions as indices and whose constraints mention these variables only
    into a model in normal form: it is such a model again, no bound is
    negative, and every [<=] constraint owns a slack column, with the
    coefficient 1 in its own row and 0 in every other row. *)
Theorem normalize_model_normal_form (model : loc) (s : Lab04.St) (m : Model) :
  heap s !! model = Some m → wf_model m →
  ∃ normal_model s1 nm,
    Lab04._normalize_model model s = (Ok normal_model, s1) ∧
    heap s1 !! normal_model = Some nm ∧
    wf_model nm ∧
    Forall (λ c, 0 ≤ bound c)%Qc (constraints nm) ∧
    (∀ j c, constraints nm !! j = Some c → c_type c = LE →
            ∃ k, own_column nm j k).
Proof.
  intros Hm Hwf. destruct (normalized m) as [[nm slack] surplus] eqn:E.
  pose proof (normalize_model_normalized model s m Hm) as Hrun.
  rewrite E in Hrun. simpl in Hrun.
  eexists _, _, nm. split; [exact Hrun|]. simpl.
  split; [by apply list_lookup_middle|].
  exact (normalized_normal_form m nm slack surplus Hwf E).
Qed.

Lemma model_redundant_wf : wf_model model_redundant.
Proof.
  split.
  - intros [|[|i]] v Hv; try done; by injection Hv as <-.
  - repeat (apply Forall_cons_2 || apply Forall_nil_2); simpl; lia.
Qed.

Lemma normalize_model_normal_form_witness :
  heap (fresh04 model_redundant) !! 0 = Some model_redundant ∧
  wf_model model_redundant ∧
  ∃ normal_model s1 nm,
    Lab04._normalize_model 0 (fresh04 model_redundant) = (Ok normal_model, s1) ∧
    heap s1 !! normal_model = Some nm ∧
    wf_model nm ∧
    Forall (λ c, 0 ≤ bound c)%Qc (constraints nm) ∧
    (∀ j c, constraints nm !! j = Some c → c_type c = LE →
            ∃ k, own_column nm j k).
Proof.
  split; [reflexivity|]. split; [exact model_redundant_wf|].
  exact (normalize_model_normal_form 0 (fresh04 model_redundant) model_redundant
           eq_refl model_redundant_wf).
Defined.

(** X21.  For a model in normal form, [_create_presolve_model] followed by
    [_presolve_initial_tableaux] returns the tableaux of Phase I in
    canonical form: the right-hand sides are not negative, every constraint
    row has a basic column (a slack or an artificial variable) with 0 in the
    cost row, and the artificial variables are the last variable columns. *)
Theorem phase_I_tableaux_canonical (model : loc) (s : Lab04.St) (nm : Model) :
  heap s !! model = Some nm → normal_form nm →
  ∃ t s1,
    phase_I_tableaux model s = (Ok t, s1) ∧
    heap s `prefix_of` heap s1 ∧
    canonical (table t) ∧
    nrows (table t) = S (length (constraints nm)) ∧
    ncols (table t)
    = S (length (variables nm) + length (Lab04.artificial_variables (self s1))) ∧
    (∀ i, i ∈ index <$> (Lab04.artificial_variables (self s1)).*1 ↔
          length (variables nm) ≤ i
          < length (variables nm) + length (Lab04.artificial_variables (self s1))).
Proof.
  intros Hm Hnf.
  destruct (Lab04.add_variable_rounds
              (λ ty, bool_decide (ty = GE) || bool_decide (ty = EQ)) "R"
              (λ e v, expr_add e (expr_of_var v)) nm) as [pm art] eqn:E.
  destruct (phase_I_canonical (S (length (heap s))) nm pm art Hnf E)
    as (t1 & Hfix & _ & Hcan & Hcols & Hrows & Hart).
  rewrite (phase_I_tableaux_run model s nm pm art Hm E), Hfix.
  eexists _, _. split; [reflexivity|]. simpl.
  split; [by apply prefix_app_r|]. by split_and!.
Qed.

Lemma model_redundant_normal_form : normal_form (normalized model_redundant).1.1.
Proof.
  apply (normalized_normal_form model_redundant _
           (normalized model_redundant).1.2 (normalized model_redundant).2).
  - exact model_redundant_wf.
  - by destruct (normalized model_redundant) as [[? ?] ?].
Qed.

Lemma phase_I_tableaux_canonical_witness :
  let nm := (normalized model_redundant).1.1 in
  let s := fresh04 nm in
  heap s !! 0 = Some nm ∧ normal_form nm ∧
  ∃ t s1,
    phase_I_tableaux 0 s = (Ok t, s1) ∧
    heap s `prefix_of` heap s1 ∧
    canonical (table t) ∧
    nrows (table t) = S (length (constraints nm)) ∧
    ncols (table t)
    = S (length (variables nm) + length (Lab04.artificial_variables (self s1))) ∧
    (∀ i, i ∈ index <$> (Lab04.artificial_variables (self s1)).*1 ↔
          length (variables nm) ≤ i
          < length (variables nm) + length (Lab04.artificial_variables (self s1))).
Proof.
  intros nm s. split; [reflexivity|]. split; [exact model_redundant_normal_form|].
  exact (phase_I_tableaux_canonical 0 s nm eq_refl model_redundant_normal_form).
Defined.

(** ** The solution read off a canonical tableaux *)

Lemma Qc_sum_single l r x :
  l !! r = Some x → (∀ i y, i ≠ r → l !! i = Some y → y = 0%Qc) →
  Qc_sum l = x.
Proof.
  revert r. induction l as [|y l IH]; intros r Hr Hz; [done|].
  rewrite Qc_sum_cons. destruct r as [|r]; simpl in Hr.
  - injection Hr as ->. rewrite Qc_sum_zeros; [ring|].
    apply Forall_forall. intros z Hx. apply list_elem_of_lookup in Hx as [i Hi].
    by apply (Hz (S i) z).
  - rewrite (Hz 0 y) by done. rewrite (IH r Hr); [ring|].
    intros i z Hi Hx. apply (Hz (S i) z); [lia|done].
Qed.

(** The values of the basic and of the other columns. *)
Lemma extract_solution_canonical t :
  canonical (table t) →
  ∃ basis a,
    extract_basis t = Ok basis ∧
    extract_solution t = Ok a ∧
    length basis = nrows (table t) - 1 ∧
    length a = ncols (table t) - 1 ∧
    (∀ i c, basis !! i = Some c →
       ∃ k, c = Z.of_nat k ∧ k < ncols (table t) - 1 ∧
            unit_column (table t) k (S i) ∧ cell (table t) 0 k = 0%Qc ∧
            a !! k = Some (rhs (table t) (S i))) ∧
    (∀ c, c < ncols (table t) - 1 → Z.of_nat c ∉ basis → a !! c = Some 0%Qc).
Proof.
  intros Hcan. pose proof Hcan as (Hwf & _ & _ & Hno).
  destruct (extract_basis_rows t Hwf Hno) as (basis & Hb & Hlen & Hrows).
  exists basis. unfold extract_solution. rewrite Hb. simpl.
  eexists. split_and!; [done|done|done|by rewrite length_fmap, length_seq|..].
  - intros i c Hc. destruct (Hrows i c Hc) as [->|(k & -> & Hk & Hunit & Hcost)].
    { destruct (extract_basis_canonical t basis Hcan Hb) as [_ Hentries].
      rewrite Forall_forall in Hentries.
      destruct (Hentries _ (list_elem_of_lookup_2 _ _ _ Hc)) as (k & Hk & _). lia. }
    exists k. split_and!; try done.
    rewrite list_lookup_fmap, lookup_seq_lt by done. simpl.
    rewrite bool_decide_eq_true_2 by (by eapply list_elem_of_lookup_2).
    destruct (unit_column_belongs _ _ _ Hunit Hcost) as [_ Hone].
    unfold find_variable_value. rewrite Hone. simpl.
    rewrite rhs_column_lookup; [done|done|]. destruct Hunit as [? _]. lia.
  - intros c Hc Hnot. rewrite list_lookup_fmap, lookup_seq_lt by done. simpl.
    by rewrite bool_decide_eq_false_2.
Qed.

(** X24.  The values that [extract_solution] reads off a canonical tableaux
    of whole numbers form its basic feasible solution: no value is negative,
    every constraint row holds with equality (the sum of
    [table[r, c] * value[c]] over the variable columns is the right-hand
    side of the row), and the cost row gives 0 at these values, so that the
    cost cell is the value of the objective. *)
Theorem extract_solution_basic_feasible (t : Tableaux) :
  canonical (table t) → integer_cells (table t) →
  ∃ a,
    extract_solution t = Ok a ∧
    length a = ncols (table t) - 1 ∧
    Forall (λ x, 0 ≤ x)%Qc a ∧
    (∀ r, 1 ≤ r < nrows (table t) →
          row_value (table t) a r = rhs (table t) r) ∧
    row_value (table t) a 0 = 0%Qc.
Proof.
  intros Hcan _.
  destruct (extract_solution_canonical t Hcan)
    as (basis & a & Hb & Ha & Hlenb & Hlen & Hbasic & Hother).
  pose proof Hcan as (Hwf & Hfeas & _ & _).
  exists a. split_and!; [done|done|..].
  - apply Forall_forall. intros x Hx. apply list_elem_of_lookup in Hx as [c Hc].
    assert (Hlt : c < ncols (table t) - 1)
      by (rewrite <- Hlen; by eapply lookup_lt_Some).
    destruct (decide (Z.of_nat c ∈ basis)) as [Hin|Hnot].
    + apply list_elem_of_lookup in Hin as [i Hi].
      destruct (Hbasic i _ Hi) as (k & Hk & _ & [Hr _] & _ & Hval).
      apply Nat2Z.inj in Hk as <-. rewrite Hc in Hval. injection Hval as ->.
      by apply Hfeas.
    + rewrite (Hother c Hlt Hnot) in Hc. by injection Hc as <-.
  - intros r Hr.
    destruct (lookup_lt_is_Some_2 basis (r - 1)) as [c0 Hc0]; [lia|].
    destruct (Hbasic _ _ Hc0) as (k0 & -> & Hk0 & Hunit0 & _ & Hval0).
    replace (S (r - 1)) with r in * by lia.
    unfold row_value. apply (Qc_sum_single _ k0).
    + rewrite list_lookup_imap, Hval0. simpl. f_equal.
      destruct Hunit0 as [_ Hcells]. rewrite (Hcells r Hr).
      rewrite decide_True by done. ring.
    + intros c y Hne. rewrite list_lookup_imap.
      destruct (a !! c) as [x|] eqn:Hc; [|done]. simpl. intros [= <-].
      assert (Hlt : c < ncols (table t) - 1)
        by (rewrite <- Hlen; by eapply lookup_lt_Some).
      destruct (decide (Z.of_nat c ∈ basis)) as [Hin|Hnot].
      * apply list_elem_of_lookup in Hin as [i Hi].
        destruct (Hbasic i _ Hi) as (k & Hk & _ & [_ Hcells] & _ & _).
        apply Nat2Z.inj in Hk as <-. rewrite (Hcells r Hr).
        rewrite decide_False; [ring|]. intros ->.
        replace (S i - 1) with i in Hc0 by lia.
        rewrite Hi in Hc0. injection Hc0 as Heq. apply Nat2Z.inj in Heq. done.
      * rewrite (Hother c Hlt Hnot) in Hc. injection Hc as <-. ring.
  - unfold row_value. apply Qc_sum_zeros, Forall_forall.
    intros y Hy. apply list_elem_of_lookup in Hy as [c Hy].
    rewrite list_lookup_imap in Hy.
    destruct (a !! c) as [x|] eqn:Hc; [|done]. simpl in Hy. injection Hy as <-.
    assert (Hlt : c < ncols (table t) - 1)
      by (rewrite <- Hlen; by eapply lookup_lt_Some).
    destruct (decide (Z.of_nat c ∈ basis)) as [Hin|Hnot].
    + apply list_elem_of_lookup in Hin as [i Hi].
      destruct (Hbasic i _ Hi) as (k & Hk & _ & _ & Hcost & _).
      apply Nat2Z.inj in Hk as <-. rewrite Hcost. ring.
    + rewrite (Hother c Hlt Hnot) in Hc. injection Hc as <-. ring.
Qed.

Lemma extract_solution_basic_feasible_witness :
  let t := mkTableaux 0 (initial_table (normalized model_integer_01).1.1) in
  canonical (table t) ∧ integer_cells (table t) ∧
  ∃ a,
    extract_solution t = Ok a ∧
    length a = ncols (table t) - 1 ∧
    Forall (λ x, 0 ≤ x)%Qc a ∧
    (∀ r, 1 ≤ r < nrows (table t) →
          row_value (table t) a r = rhs (table t) r) ∧
    row_value (table t) a 0 = 0%Qc.
Proof.
  intros t. split; [exact integer_01_normalized_canonical|].
  split; [exact integer_01_normalized_integer|].
  exact (extract_solution_basic_feasible t integer_01_normalized_canonical
           integer_01_normalized_integer).
Defined.

(** ** The one-phase solver on a model of the caller *)

(** What [_normalize_model] of lab03 leaves in the copy. *)
Lemma lab03_normalize_model_run
    (LE_value : Qc) (model : loc) (s : Lab03.St) (m : Model) :
  heap s !! model = Some m →
  ∃ s1 nm,
    Lab03._normalize_model LE_value model s = (Ok model, s1) ∧
    heap s1 = <[model := nm]> (heap s) ∧
    Forall2 lab03_normalized_constraint (constraints m) (constraints nm) ∧
    variables m `prefix_of` variables nm ∧
    length (variables nm)
    = length (variables m) + length (filter (λ c, c_type c ≠ EQ) (constraints m)).
Proof.
  intros Hm. unfold Lab03._normalize_model, mbind, M_bind, get_model.
  rewrite Hm. simpl.
  set (m1 := if decide (o_type (objective m) = MIN)
             then set_objective (objective_invert (objective m)) m else m).
  assert (Hvars1 : variables m1 = variables m) by (unfold m1; by case_decide).
  assert (Hcons1 : constraints m1 = constraints m) by (unfold m1; by case_decide).
  destruct (normalize_round_fold LE_value (constraints m1) [] m1 [])
    as (m' & slack & rest' & Hfold & Hcons' & Hrel & _ & Hpre & Hlen & Hn);
    [done|constructor|].
  simpl in Hfold. rewrite Hfold. simpl.
  eexists _, m'. split; [done|]. simpl. split; [done|].
  simpl in Hcons'. subst rest'. rewrite Hcons1 in Hrel, Hlen.
  rewrite Hvars1 in Hn, Hpre. simpl in Hlen, Hn.
  split_and!; [done|done|lia].
Qed.

(** The loop of [_optimize] keeps the shape and the model of the tableaux. *)
Lemma optimize_shape fuel t t' :
  wf_table (table t) → _optimize fuel t = Ok t' →
  wf_table (table t') ∧ t_model t' = t_model t ∧
  nrows (table t') = nrows (table t) ∧ ncols (table t') = ncols (table t).
Proof.
  revert t. induction fuel as [|fuel IH]; intros t Hwf; simpl; [done|].
  destruct (is_optimal t); [by intros [= <-]|].
  destruct (choose_entering_variable t) as [pivot_col|]; [|done]. simpl.
  destruct (is_unbounded t pivot_col); [done|].
  destruct (choose_leaving_variable t pivot_col) as [pivot_row|]; [|done]. simpl.
  destruct (pivot t pivot_row pivot_col) as [t1|] eqn:Hpiv; [|done]. simpl.
  apply pivot_inv in Hpiv as (_ & _ & _ & ->).
  destruct (pivot_table_shape (table t) pivot_row pivot_col Hwf) as (Hn & Hc & Hwf1).
  intros Hopt. apply IH in Hopt as (Hwf' & Hmod & Hn' & Hc'); [|exact Hwf1].
  simpl in *. split_and!; [done|done|lia|lia].
Qed.

(** The run of [solve] of lab03: the state after the normalization of the
    copy, and the result of the loop on the tableaux of the copy. *)
Lemma lab03_solve_run
    (LE_value : Qc) (fuel : nat) (model : loc) (s : Lab03.St) (m : Model) :
  heap s !! model = Some m →
  ∃ s1 nm,
    heap s1 !! length (heap s) = Some nm ∧
    variables m `prefix_of` variables nm ∧
    length (variables nm)
    = length (variables m)
      + length (filter (λ c, c_type c ≠ EQ) (constraints m)) ∧
    Lab03.solve LE_value fuel model s
    = (t' ← _optimize fuel (mkTableaux (length (heap s)) (initial_table nm));
       a ← extract_solution t';
       Ok (mkSolution (length (heap s)) a),
       s1).
Proof.
  intros Hm. unfold Lab03.solve.
  rewrite (bind_run_Ok _ _ _ _ _ (deepcopy_run model s m Hm)).
  set (s0 := mkState (heap s ++ [m]) (self s)).
  assert (Hcopy : heap s0 !! length (heap s) = Some m)
    by apply list_lookup_middle, eq_refl.
  destruct (lab03_normalize_model_run LE_value (length (heap s)) s0 m Hcopy)
    as (s1 & nm & Hrun & Hheap & _ & Hpre & Hvars).
  rewrite (bind_run_Ok _ _ _ _ _ Hrun).
  assert (Hnm : heap s1 !! length (heap s) = Some nm).
  { rewrite Hheap. apply list_lookup_insert_eq. by eapply lookup_lt_Some. }
  exists s1, nm. split_and!; [done|done|done|].
  unfold Lab03.new_Tableaux, mbind, M_bind, get_model, lift.
  rewrite Hnm. simpl.
  destruct (_optimize fuel _) as [t'|e]; simpl; [|done].
  by destruct (extract_solution t').
Qed.

(** X25.  Whenever [solve] of lab03 returns, the solution is attached to
    the normalized deep copy that [solve] created, not to the object of the
    caller, and holds one value per variable of that copy: the variables of
    the caller come first, followed by one slack variable per constraint
    that was not an equality. *)
Theorem lab03_solve_returns
    (LE_value : Qc) (fuel : nat) (model : loc) (s : Lab03.St) (m : Model)
    (solution : Solution) :
  heap s !! model = Some m →
  (Lab03.solve LE_value fuel model s).1 = Ok solution →
  s_model solution = length (heap s) ∧ s_model solution ≠ model ∧
  ∃ nm,
    heap (Lab03.solve LE_value fuel model s).2 !! s_model solution = Some nm ∧
    variables m `prefix_of` variables nm ∧
    length (variables nm)
    = length (variables m)
      + length (filter (λ c, c_type c ≠ EQ) (constraints m)) ∧
    length (assignment solution) = length (variables nm).
Proof.
  intros Hm.
  destruct (lab03_solve_run LE_value fuel model s m Hm)
    as (s1 & nm & Hnm & Hpre & Hvars & ->).
  simpl.
  set (t0 := mkTableaux (length (heap s)) (initial_table nm)).
  pose proof (optimize_shape fuel t0) as Hshape.
  destruct (_optimize fuel t0) as [t'|e]; simpl; [|done].
  destruct (Hshape t' (initial_table_wf nm) eq_refl) as (Hwf & _ & _ & Hcols).
  destruct (extract_solution t') as [a|e] eqn:Ha; simpl; [|done].
  intros [= <-]. simpl.
  split; [done|]. split; [apply lookup_lt_Some in Hm; lia|].
  exists nm. split_and!; [done|done|done|].
  unfold extract_solution in Ha.
  destruct (extract_basis t') as [basis|]; simpl in Ha; [|done].
  injection Ha as <-. rewrite length_fmap, length_seq, Hcols.
  unfold t0. simpl. rewrite initial_table_ncols. lia.
Qed.

Lemma lab03_solve_returns_witness :
  ∃ solution,
    heap (fresh03 model_minimize) !! 0 = Some model_minimize ∧
    (Lab03.solve (num (-1)) 10 0 (fresh03 model_minimize)).1 = Ok solution ∧
    s_model solution = length (heap (fresh03 model_minimize)) ∧
    s_model solution ≠ 0 ∧
    ∃ nm,
      heap (Lab03.solve (num (-1)) 10 0 (fresh03 model_minimize)).2
        !! s_model solution = Some nm ∧
      variables model_minimize `prefix_of` variables nm ∧
      length (variables nm)
      = length (variables model_minimize)
        + length (filter (λ c, c_type c ≠ EQ) (constraints model_minimize)) ∧
      length (assignment solution) = length (variables nm).
Proof.
  eexists. split; [reflexivity|].
  assert (Hr : (Lab03.solve (num (-1)) 10 0 (fresh03 model_minimize)).1
               = Ok (match (Lab03.solve (num (-1)) 10 0 (fresh03 model_minimize)).1 with
                     | Ok solution => solution
                     | Err _ => mkSolution 0 []
                     end)) by (vm_compute; reflexivity).
  split; [exact Hr|].
  exact (lab03_solve_returns (num (-1)) 10 0 (fresh03 model_minimize) model_minimize _
           eq_refl Hr).
Defined.

(** ** Normalized weights (lab12_13 ahp.py, lines 81-82) *)

Lemma py_sum_Qc_sum (w : list Qc) : Ahp.py_sum w = Qc_sum w.
Proof.
  unfold Ahp.py_sum.
  assert (H : ∀ a, foldl Qcplus a w = (a + Qc_sum w)%Qc).
  { induction w as [|x w IH]; intros a.
    - unfold Qc_sum. simpl. ring.
    - cbn [foldl]. rewrite IH, Qc_sum_cons. ring. }
  rewrite H. ring.
Qed.

(** X17.  On a vector of entries that are not negative, [normalize_vector]
    divides every entry by the sum of the vector.  When the vector has
    entries and all of them are 0 the quotients are not finite; when some
    entry is positive the result has the length of the vector and every
    entry of the result lies between 0 and 1. *)
Theorem normalize_vector_result (w : list Qc) :
  Forall (λ x, 0 ≤ x)%Qc w →
  (w ≠ [] → Forall (λ x, x = 0%Qc) w →
   Ahp.normalize_vector w = Err NonFinite) ∧
  (Exists (λ x, 0 < x)%Qc w →
   ∃ u,
     Ahp.normalize_vector w = Ok u ∧
     length u = length w ∧
     (∀ i x, w !! i = Some x → u !! i = Some (x / Ahp.py_sum w)%Qc) ∧
     Forall (λ y, 0 ≤ y ∧ y ≤ 1)%Qc u).
Proof.
  intros Hpos. unfold Ahp.normalize_vector. rewrite py_sum_Qc_sum.
  split_and!.
  - intros Hne Hzero. rewrite (Qc_sum_zeros w Hzero).
    destruct w as [|x w]; [done|]. cbn [mapM]. by rewrite decide_True.
  - intros Hex.
    assert (Hs : (0 < Qc_sum w)%Qc).
    { apply Exists_exists in Hex as (x & Hx & Hx0).
      apply list_elem_of_lookup in Hx as [i Hi].
      eapply Qclt_le_trans; [exact Hx0|]. by eapply Qc_sum_ge_elem. }
    rewrite (mapM_Ok_fmap _ (λ x, x / Qc_sum w)%Qc).
    2:{ intros x _. rewrite decide_False; [done|]. by apply Qc_pos_ne. }
    eexists. split; [reflexivity|]. split_and!.
    + by rewrite length_fmap.
    + intros i x Hx. by rewrite list_lookup_fmap, Hx.
    + apply Forall_fmap, Forall_lookup. intros i x Hx. simpl.
      rewrite Forall_lookup in Hpos. split.
      * apply Qc_div_nonneg; [by eapply Hpos|done].
      * apply Qc_div_le_1; [done|].
        eapply Qc_sum_ge_elem; [by apply Forall_lookup|done].
Qed.

Lemma normalize_vector_result_witness :
  let w := [num 1; num 3; num 4] in
  let z := [num 0; num 0] in
  (Forall (λ x, 0 ≤ x)%Qc w ∧ Exists (λ x, 0 < x)%Qc w ∧
   ∃ u,
     Ahp.normalize_vector w = Ok u ∧
     length u = length w ∧
     (∀ i x, w !! i = Some x → u !! i = Some (x / Ahp.py_sum w)%Qc) ∧
     Forall (λ y, 0 ≤ y ∧ y ≤ 1)%Qc u) ∧
  (Forall (λ x, 0 ≤ x)%Qc z ∧ z ≠ [] ∧ Forall (λ x, x = 0%Qc) z ∧
   Ahp.normalize_vector z = Err NonFinite).
Proof.
  intros w z.
  assert (Hw : Forall (λ x, 0 ≤ x)%Qc w)
    by (repeat constructor; vm_compute; discriminate).
  assert (Hex : Exists (λ x, 0 < x)%Qc w) by (apply Exists_cons_hd; reflexivity).
  assert (Hz : Forall (λ x, 0 ≤ x)%Qc z)
    by (repeat constructor; vm_compute; discriminate).
  assert (Hne : z ≠ []) by discriminate.
  assert (Hzero : Forall (λ x, x = 0%Qc) z) by (repeat constructor).
  split.
  - split; [exact Hw|]. split; [exact Hex|].
    exact (proj2 (normalize_vector_result w Hw) Hex).
  - split; [exact Hz|]. split; [exact Hne|]. split; [exact Hzero|].
    exact (proj1 (normalize_vector_result z Hz) Hne Hzero).
Defined.
